(** * Smart-Summarizer: map-reduce summarisation orchestrator

    A shallow embedding of [summarizer.py], [llm_client.py], [prompts.py],
    [pdf_utils.py] and of [app.py] (the input guard, the reading of an
    uploaded text file and the name of the download), with the properties
    of the specification stated and settled over it, followed by further
    properties of the code.

    Conventions.
    - A Python [str] is a list of Unicode code points ([N]); a Python
      [bytes] is a list of [Byte.byte].
    - A Python [int] is a [Z]; a Python [float] is an IEEE-754 binary64 value
      ([spec_float] with [prec = 53], [emax = 1024]).
    - A function that may raise returns [exn + A].
    - A call that leaves the process (the Gemini endpoint, or the section
      generator seen from the orchestrator) is a node of an interaction
      tree ([prog]); [run] replays a tree against an oracle and records the
      requests in order. *)

From Stdlib Require Import Ascii String.
From Stdlib Require Import List ZArith NArith Lia Bool.
From Stdlib Require Import SpecFloat.
From Stdlib.Strings Require Byte.
Import ListNotations.

Set Implicit Arguments.
Set Warnings "-register-all".
Open Scope Z_scope.

(* ===================================================================== *)
(** * Python strings                                                     *)
(* ===================================================================== *)

Definition char := N.
Definition str := list char.

(** An ASCII literal as a [str]. *)
Definition lit (s : string) : str := map N_of_ascii (list_ascii_of_string s).

Definition SP : char := 32%N.
Definition NL : char := 10%N.

(** [str.isspace] on one code point; the same set is what [\s] matches in a
    [re] pattern over [str], and what [str.strip] and [str.split] remove. *)
Definition is_space (c : char) : bool :=
  ((9 <=? c) && (c <=? 13) || (28 <=? c) && (c <=? 32) || (c =? 133) || (c =? 160)
   || (c =? 5760) || (8192 <=? c) && (c <=? 8202) || (c =? 8232) || (c =? 8233)
   || (c =? 8239) || (c =? 8287) || (c =? 12288))%N.

Definition str_eqb (a b : str) : bool :=
  if list_eq_dec N.eq_dec a b then true else false.

Definition is_empty (A : Type) (l : list A) : bool :=
  match l with [] => true | _ => false end.

(** [len(s)] *)
Definition len (A : Type) (l : list A) : Z := Z.of_nat (length l).

Fixpoint lstrip (s : str) : str :=
  match s with
  | [] => []
  | c :: r => if is_space c then lstrip r else s
  end.

Fixpoint rstrip (s : str) : str :=
  match s with
  | [] => []
  | c :: r =>
      match rstrip r with
      | [] => if is_space c then [] else [c]
      | r' => c :: r'
      end
  end.

(** [s.strip()] *)
Definition strip (s : str) : str := lstrip (rstrip s).

(** [sep.join(l)] *)
Fixpoint join (sep : str) (l : list str) : str :=
  match l with
  | [] => []
  | [x] => x
  | x :: r => x ++ sep ++ join sep r
  end.

Definition cons_word (w : str) (ws : list str) : list str :=
  match w with [] => ws | _ => w :: ws end.

(** The scan behind [s.split()]: the word that starts at the head of [s]
    (empty when [s] starts with whitespace) and the words after it. *)
Fixpoint wsplit (s : str) : str * list str :=
  match s with
  | [] => ([], [])
  | c :: r =>
      let (w, ws) := wsplit r in
      if is_space c then ([], cons_word w ws) else (c :: w, ws)
  end.

(** [s.split()]: maximal runs of non-whitespace, in order. *)
Definition split_ws (s : str) : list str :=
  let (w, ws) := wsplit s in cons_word w ws.

(** [len(s.split())] *)
Definition word_count (s : str) : Z := len (split_ws s).

(** [re.sub(r'\s+', ' ', s)]: every maximal whitespace run becomes one
    space (a whitespace character followed by another one is dropped, the
    last of the run is replaced). *)
Fixpoint collapse_ws (s : str) : str :=
  match s with
  | [] => []
  | c :: r =>
      if is_space c then
        match r with
        | c' :: _ => if is_space c' then collapse_ws r else SP :: collapse_ws r
        | [] => [SP]
        end
      else c :: collapse_ws r
  end.

(** [l[-n:]] for [n > 0]. *)
Definition last_n (A : Type) (n : nat) (l : list A) : list A :=
  skipn (length l - n) l.

(** [l[i:j]] for [0 <= i <= j]. *)
Definition slice (A : Type) (i j : nat) (l : list A) : list A :=
  firstn (j - i) (skipn i l).

(** [range(start, stop, step)] for [step >= 1]; [stop] iterations suffice. *)
Fixpoint range_from (fuel start stop step : nat) : list nat :=
  match fuel with
  | O => []
  | S f => if (start <? stop)%nat then start :: range_from f (start + step) stop step else []
  end.

Definition py_range (start stop step : nat) : list nat :=
  range_from stop start stop step.

(** [prefix] is a literal prefix of [s]; the rest of [s] when it is. *)
Fixpoint strip_prefix (prefix s : str) : option str :=
  match prefix, s with
  | [], _ => Some s
  | p :: ps, c :: r => if (p =? c)%N then strip_prefix ps r else None
  | _ :: _, [] => None
  end.

(* ===================================================================== *)
(** * Python values, exceptions and external calls                       *)
(* ===================================================================== *)

(** The values [json.loads] produces, which are also the values the
    summariser stores in its dictionaries. A [dict] keeps insertion order.
    A float is kept as the literal that denotes it. *)
Inductive json : Type :=
| JNull
| JBool (b : bool)
| JInt (z : Z)
| JFloat (lexeme : str)
| JString (s : str)
| JArray (items : list json)
| JObject (kvs : list (str * json)).

Definition dict := list (str * json).

(** [d.get(k)]: [None] when the key is absent. *)
Fixpoint dict_lookup (d : dict) (k : str) : option json :=
  match d with
  | [] => None
  | (k', v) :: r => if str_eqb k' k then Some v else dict_lookup r k
  end.

(** [d.get(k, default)] *)
Definition dict_get (d : dict) (k : str) (default : json) : json :=
  match dict_lookup d k with Some v => v | None => default end.

(** [d[k] = v] *)
Fixpoint dict_set (d : dict) (k : str) (v : json) : dict :=
  match d with
  | [] => [(k, v)]
  | (k', v') :: r => if str_eqb k' k then (k', v) :: r else (k', v') :: dict_set r k v
  end.

(** [d.setdefault(k, v)], for its effect on [d]. *)
Definition dict_setdefault (d : dict) (k : str) (v : json) : dict :=
  match dict_lookup d k with Some _ => d | None => dict_set d k v end.

Inductive exn : Type :=
| ValueError (msg : str)
| JSONDecodeError
| TypeError
| AttributeError
| OverflowError
| ZeroDivisionError
| UpstreamError (msg : str).

(** A computation that returns an [A], raises, or sends a request [Q] to a
    collaborator and goes on with its answer [R]. *)
Inductive prog (Q R A : Type) : Type :=
| Ret (a : A)
| Raise (e : exn)
| Call (q : Q) (k : R -> prog Q R A).

Arguments Ret {Q R A} a.
Arguments Raise {Q R A} e.
Arguments Call {Q R A} q k.

Fixpoint bind (Q R A B : Type) (m : prog Q R A) (f : A -> prog Q R B) : prog Q R B :=
  match m with
  | Ret a => f a
  | Raise e => Raise e
  | Call q k => Call q (fun r => bind (k r) f)
  end.

(** [run oracle i p]: replay [p]; the [j]-th request overall (counted from
    [i]) is answered by [oracle j]; an oracle that raises aborts the run.
    The result is the list of requests sent, in order, and the outcome. *)
Fixpoint run (Q R A : Type) (oracle : nat -> Q -> exn + R) (i : nat) (p : prog Q R A)
  : list Q * (exn + A) :=
  match p with
  | Ret a => ([], inr a)
  | Raise e => ([], inl e)
  | Call q k =>
      match oracle i q with
      | inl e => ([q], inl e)
      | inr r => let (tr, out) := run oracle (S i) (k r) in (q :: tr, out)
      end
  end.

(* ===================================================================== *)
(** * Python floats (binary64)                                           *)
(* ===================================================================== *)

Definition prec : Z := 53.
Definition emax : Z := 1024.

(** The float literal [1.2]: 5404319552844595 * 2^-52. *)
Definition float_1_2 : spec_float := S754_finite false 5404319552844595 (-52).

(** [float(n)] as done for a mixed [int * float]: round to nearest even,
    [OverflowError] when out of range. *)
Definition float_of_int (n : Z) : exn + spec_float :=
  match binary_normalize prec emax n 0 false with
  | S754_infinity _ => inl OverflowError
  | f => inr f
  end.

(** [a / b] on ints: the correctly rounded quotient. *)
Definition int_truediv (a b : Z) : exn + spec_float :=
  match a, b with
  | _, Z0 => inl ZeroDivisionError
  | Z0, _ => inr (S754_zero (b <? 0))
  | _, _ =>
      match SFdiv prec emax (S754_finite (a <? 0) (Z.to_pos (Z.abs a)) 0)
                            (S754_finite (b <? 0) (Z.to_pos (Z.abs b)) 0) with
      | S754_infinity _ => inl OverflowError
      | f => inr f
      end
  end.

Definition float_mul (x y : spec_float) : spec_float := SFmul prec emax x y.

(** [int(x)]: truncation toward zero. *)
Definition int_of_float (x : spec_float) : exn + Z :=
  match x with
  | S754_zero _ => inr 0
  | S754_infinity _ => inl OverflowError
  | S754_nan => inl (ValueError (lit "cannot convert float NaN to integer"))
  | S754_finite s m e =>
      let mag := match e with
                 | Zneg p => Z.shiftr (Zpos m) (Zpos p)
                 | _ => Z.shiftl (Zpos m) e
                 end in
      inr (if s then - mag else mag)
  end.

(* ===================================================================== *)
(** * summarizer.py                                                      *)
(* ===================================================================== *)

(** [re.sub(r'\s+', ' ', s or '').strip()] *)
Definition _normalize_whitespace (s : option str) : str :=
  strip (collapse_ws (match s with Some x => x | None => [] end)).

(** A character of the class [[.!?]]. *)
Definition is_terminal (c : char) : bool :=
  ((c =? 46) || (c =? 33) || (c =? 63))%N.

(** [len(re.findall(r'[.!?]', s))] *)
Definition count_terminal (s : str) : Z := len (filter is_terminal s).

(** Where the scan of [re.split(r'(?<=[.!?])\s+', s)] stands: inside a
    separator, just after a terminal mark, or elsewhere. *)
Inductive split_state : Type := InSep | AfterTerminal | Elsewhere.

(** The part that is open at the head of [s] and the parts after it. *)
Fixpoint re_split_scan (st : split_state) (s : str) : str * list str :=
  match s with
  | [] => ([], [])
  | c :: r =>
      if is_space c then
        match st with
        | InSep => re_split_scan InSep r
        | AfterTerminal => let (p, ps) := re_split_scan InSep r in ([], p :: ps)
        | Elsewhere => let (p, ps) := re_split_scan Elsewhere r in (c :: p, ps)
        end
      else
        let (p, ps) := re_split_scan (if is_terminal c then AfterTerminal else Elsewhere) r in
        (c :: p, ps)
  end.

(** [re.split(r'(?<=[.!?])\s+', s)] *)
Definition re_split_sentences (s : str) : list str :=
  let (p, ps) := re_split_scan Elsewhere s in p :: ps.

(** One iteration of the [for p in parts] loop; the state is
    [(merged, buf)]. *)
Definition merge_step (st : list str * str) (p : str) : list str * str :=
  let (merged, buf) := st in
  if word_count p <? 4 then
    let buf' := strip (buf ++ [SP] ++ p) in
    if word_count buf' >=? 4 then (merged ++ [buf'], []) else (merged, buf')
  else
    let merged' := if is_empty buf then merged else merged ++ [buf] in
    (merged' ++ [strip p], []).

Definition merge_fragments (parts : list str) : list str :=
  let (merged, buf) := fold_left merge_step parts ([], []) in
  let merged' := if is_empty buf then merged else merged ++ [buf] in
  filter (fun p => negb (is_empty p)) merged'.

Definition low_punctuation (cleaned : str) : bool :=
  count_terminal cleaned <? Z.max 1 (len cleaned / 1000).

Definition pseudo_sentences (cleaned : str) : list str :=
  let words := split_ws cleaned in
  let chunk_size := 30%nat in
  map (fun i => join [SP] (slice i (i + chunk_size) words))
      (py_range 0 (length words) chunk_size).

Definition _split_into_sentences (text : str) : list str :=
  let cleaned := _normalize_whitespace (Some text) in
  if low_punctuation cleaned then pseudo_sentences cleaned
  else merge_fragments (re_split_sentences cleaned).

Definition sentence_len (s : str) : Z := len (split_ws s).

(** The state of the loop of [_chunk_by_words]. *)
Record chunk_state : Type := {
  chunks : list str;
  current : list str;
  current_words : Z
}.

Definition chunk_step (target_chunk_words overlap_words : Z)
    (st : chunk_state) (sent : str) : chunk_state :=
  let w := sentence_len sent in
  if (current_words st + w >? target_chunk_words) && negb (is_empty (current st)) then
    let chunks' := chunks st ++ [join [SP] (current st)] in
    if overlap_words >? 0 then
      let tail := join [SP] (last_n (Z.to_nat overlap_words)
                                    (split_ws (join [SP] (current st)))) in
      {| chunks := chunks'; current := [tail; sent];
         current_words := len (split_ws tail) + w |}
    else
      {| chunks := chunks'; current := [sent]; current_words := w |}
  else
    {| chunks := chunks st; current := current st ++ [sent];
       current_words := current_words st + w |}.

Definition chunk_loop (target_chunk_words overlap_words : Z) (sentences : list str)
  : chunk_state :=
  fold_left (chunk_step target_chunk_words overlap_words) sentences
            {| chunks := []; current := []; current_words := 0 |}.

(** The chunks before the final clean-up. *)
Definition raw_chunks (target_chunk_words overlap_words : Z) (sentences : list str)
  : list str :=
  let st := chunk_loop target_chunk_words overlap_words sentences in
  if is_empty (current st) then chunks st else chunks st ++ [join [SP] (current st)].

Definition _chunk_by_words (sentences : list str) (target_chunk_words overlap_words : Z)
  : list str :=
  map (fun c => _normalize_whitespace (Some c))
      (filter (fun c => negb (is_empty (_normalize_whitespace (Some c))))
              (raw_chunks target_chunk_words overlap_words sentences)).

Definition _proportional_words (total_words chunk_words final_target : Z) : exn + Z :=
  if total_words <=? 0 then inr (Z.max 50 (Z.min final_target 2000))
  else
    match int_truediv chunk_words total_words with
    | inl e => inl e
    | inr ratio =>
        match float_of_int final_target with
        | inl e => inl e
        | inr ft =>
            match int_of_float (float_mul (float_mul ft ratio) float_1_2) with
            | inl e => inl e
            | inr alloc => inr (Z.max 80 (Z.min alloc (Z.max 200 final_target)))
            end
        end
    end.

(** The arguments of one [generate_sections] call. *)
Record gen_call : Type := {
  gc_text : str;
  gc_model : str;
  gc_summary_words : Z;
  gc_takeaways_count : option Z
}.

Definition K_SUMMARY : str := lit "summary".
Definition K_TAKEAWAYS : str := lit "key_takeaways".

(** The map step: the [for c in chunks] loop, then [k] on the collected
    [mini_summaries]. *)
Fixpoint map_step (total_words target_words : Z) (model : str) (cs : list str)
    (mini_summaries : list json) (k : list json -> prog gen_call dict dict)
  : prog gen_call dict dict :=
  match cs with
  | [] => k mini_summaries
  | c :: cs' =>
      let cw := len (split_ws c) in
      match _proportional_words total_words cw target_words with
      | inl e => Raise e
      | inr chunk_target =>
          Call {| gc_text := c; gc_model := model; gc_summary_words := chunk_target;
                  gc_takeaways_count := Some 0 |}
               (fun mini =>
                  map_step total_words target_words model cs'
                           (mini_summaries ++ [dict_get mini K_SUMMARY (JString [])]) k)
      end
  end.

(** [[s for s in mini_summaries if s.strip()]]; a value without a [strip]
    method raises. *)
Fixpoint keep_nonblank (l : list json) : exn + list str :=
  match l with
  | [] => inr []
  | JString s :: r =>
      match keep_nonblank r with
      | inl e => inl e
      | inr r' => inr (if is_empty (strip s) then r' else s :: r')
      end
  | _ :: _ => inl AttributeError
  end.

Definition reduce_step (model : str) (target_words : Z) (takeaways_count : option Z)
    (mini_summaries : list json) : prog gen_call dict dict :=
  match keep_nonblank mini_summaries with
  | inl e => Raise e
  | inr kept =>
      let combined := join [NL; NL] kept in
      Call {| gc_text := combined; gc_model := model; gc_summary_words := target_words;
              gc_takeaways_count := takeaways_count |}
           (fun final => Ret final)
  end.

Definition summarize_document (raw_text : option str) (model : str) (target_words : Z)
    (takeaways_count : option Z) : prog gen_call dict dict :=
  let text := _normalize_whitespace raw_text in
  let words := split_ws text in
  let n_words := len words in
  if n_words <? 60 then
    Call {| gc_text := text; gc_model := model;
            gc_summary_words := Z.min target_words (Z.max 30 n_words);
            gc_takeaways_count := takeaways_count |}
         (fun mini =>
            Ret [(K_SUMMARY, JString text);
                 (K_TAKEAWAYS, dict_get mini K_TAKEAWAYS (JArray []))])
  else
    let sentences := _split_into_sentences text in
    let chunks := _chunk_by_words sentences 2400 200 in
    let total_words := n_words in
    map_step total_words target_words model chunks []
             (reduce_step model target_words takeaways_count).

(* ===================================================================== *)
(** * json.loads                                                         *)
(* ===================================================================== *)

(** The decoder of Python's [json] module ([json.loads] with its default
    arguments), by recursive descent as the library's scanner does it.
    [None] stands for [JSONDecodeError]. The fuel bounds the depth of the
    descent; [json_loads] gives more than the text can use. *)

Definition is_json_ws (c : char) : bool :=
  ((c =? 32) || (c =? 9) || (c =? 10) || (c =? 13))%N.

Fixpoint skip_ws (s : str) : str :=
  match s with
  | [] => []
  | c :: r => if is_json_ws c then skip_ws r else s
  end.

Definition is_digit (c : char) : bool := ((48 <=? c) && (c <=? 57))%N.

Definition hex_value (c : char) : option N :=
  if ((48 <=? c) && (c <=? 57))%N then Some (c - 48)%N
  else if ((97 <=? c) && (c <=? 102))%N then Some (c - 87)%N
  else if ((65 <=? c) && (c <=? 70))%N then Some (c - 55)%N
  else None.

(** Four hexadecimal digits at the head of [s]. *)
Definition hex4 (s : str) : option (N * str) :=
  match s with
  | a :: b :: c :: d :: r =>
      match hex_value a, hex_value b, hex_value c, hex_value d with
      | Some a, Some b, Some c, Some d => Some (((a * 16 + b) * 16 + c) * 16 + d, r)%N
      | _, _, _, _ => None
      end
  | _ => None
  end.

(** The character a one-letter escape stands for. *)
Definition simple_escape (c : char) : option char :=
  if (c =? 34)%N then Some 34%N          (* backslash quote *)
  else if (c =? 92)%N then Some 92%N     (* two backslashes *)
  else if (c =? 47)%N then Some 47%N     (* backslash slash *)
  else if (c =? 98)%N then Some 8%N      (* backslash b *)
  else if (c =? 102)%N then Some 12%N    (* backslash f *)
  else if (c =? 110)%N then Some 10%N    (* backslash n *)
  else if (c =? 114)%N then Some 13%N    (* backslash r *)
  else if (c =? 116)%N then Some 9%N     (* backslash t *)
  else None.

Definition is_high_surrogate (u : N) : bool := ((55296 <=? u) && (u <=? 56319))%N.
Definition is_low_surrogate (u : N) : bool := ((56320 <=? u) && (u <=? 57343))%N.

(** A [\uXXXX] escape whose backslash and [u] are consumed: the code point
    and the rest; a high surrogate joins a low-surrogate escape after it. *)
Definition scan_unicode_escape (s : str) : option (char * str) :=
  match hex4 s with
  | None => None
  | Some (u, r) =>
      if is_high_surrogate u then
        match r with
        | b :: l :: r2 =>
            if ((b =? 92) && (l =? 117))%N then
              match hex4 r2 with
              | Some (u2, r3) =>
                  if is_low_surrogate u2
                  then Some ((65536 + (u - 55296) * 1024 + (u2 - 56320))%N, r3)
                  else Some (u, r)
              | None => Some (u, r)
              end
            else Some (u, r)
        | _ => Some (u, r)
        end
      else Some (u, r)
  end.

(** The body of a string literal, after its opening quote: the decoded
    string and what follows the closing quote. *)
Fixpoint scan_string (fuel : nat) (s : str) : option (str * str) :=
  match fuel with
  | O => None
  | S f =>
      match s with
      | [] => None
      | c :: r =>
          if (c =? 34)%N then Some ([], r)
          else if (c =? 92)%N then
            match r with
            | [] => None
            | e :: r' =>
                if (e =? 117)%N then
                  match scan_unicode_escape r' with
                  | Some (u, r2) =>
                      match scan_string f r2 with
                      | Some (x, rest) => Some (u :: x, rest)
                      | None => None
                      end
                  | None => None
                  end
                else
                  match simple_escape e with
                  | Some u =>
                      match scan_string f r' with
                      | Some (x, rest) => Some (u :: x, rest)
                      | None => None
                      end
                  | None => None
                  end
            end
          else if (c <? 32)%N then None
          else
            match scan_string f r with
            | Some (x, rest) => Some (c :: x, rest)
            | None => None
            end
      end
  end.

(** The longest run of decimal digits at the head of [s], and the rest. *)
Fixpoint span_digits (s : str) : str * str :=
  match s with
  | [] => ([], [])
  | c :: r =>
      if is_digit c then let (ds, rest) := span_digits r in (c :: ds, rest)
      else ([], s)
  end.

Definition digits_value (ds : str) : Z :=
  fold_left (fun acc c => acc * 10 + Z.of_N (c - 48)) ds 0.

(** The parts of a number at the head of a text, each with what follows
    it: an optional minus; [0] or a digit string without leading zero; an
    optional point and digits; an optional [e] or [E], sign and digits. *)
Definition scan_sign (s : str) : str * str :=
  match s with
  | c :: r => if (c =? 45)%N then ([c], r) else ([], s)
  | [] => ([], s)
  end.

Definition scan_int_part (s : str) : option (str * str) :=
  let (ds, rest) := span_digits s in
  match ds with
  | [] => None
  | d :: ds' => Some (if (d =? 48)%N then ([d], ds' ++ rest) else (ds, rest))
  end.

Definition scan_frac (s : str) : str * str :=
  match s with
  | c :: r =>
      if (c =? 46)%N then
        let (fs, rest) := span_digits r in
        if is_empty fs then ([], s) else (c :: fs, rest)
      else ([], s)
  | [] => ([], s)
  end.

Definition scan_exp (s : str) : str * str :=
  match s with
  | e :: r =>
      if ((e =? 101) || (e =? 69))%N then
        let (sg, r1) := match r with
                        | x :: r0 => if ((x =? 43) || (x =? 45))%N then ([x], r0) else ([], r)
                        | [] => ([], r)
                        end in
        let (es, rest) := span_digits r1 in
        if is_empty es then ([], s) else (e :: sg ++ es, rest)
      else ([], s)
  | [] => ([], s)
  end.

(** A number at the head of [s]. With a fraction or an exponent it is a
    float, otherwise an int. *)
Definition scan_number (s : str) : option (json * str) :=
  let (sign, s1) := scan_sign s in
  match scan_int_part s1 with
  | None => None
  | Some (ipart, s2) =>
      let (frac, s3) := scan_frac s2 in
      let (expo, s4) := scan_exp s3 in
      if is_empty frac && is_empty expo
      then Some (JInt (if is_empty sign then digits_value ipart else - digits_value ipart), s4)
      else Some (JFloat (sign ++ ipart ++ frac ++ expo), s4)
  end.

Definition scan_literal (word : string) (v : json) (s : str) : option (json * str) :=
  match strip_prefix (lit word) s with
  | Some rest => Some (v, rest)
  | None => None
  end.

Fixpoint parse_value (fuel : nat) (s : str) {struct fuel} : option (json * str) :=
  match fuel with
  | O => None
  | S f =>
      match s with
      | [] => None
      | c :: r =>
          if (c =? 34)%N then
            match scan_string f r with
            | Some (x, rest) => Some (JString x, rest)
            | None => None
            end
          else if (c =? 123)%N then
            match skip_ws r with
            | c' :: rest =>
                if (c' =? 125)%N then Some (JObject [], rest)
                else parse_members f (c' :: rest) []
            | [] => parse_members f [] []
            end
          else if (c =? 91)%N then
            match skip_ws r with
            | c' :: rest =>
                if (c' =? 93)%N then Some (JArray [], rest)
                else parse_elements f (c' :: rest) []
            | [] => parse_elements f [] []
            end
          else if (c =? 110)%N then scan_literal "null" JNull s
          else if (c =? 116)%N then scan_literal "true" (JBool true) s
          else if (c =? 102)%N then scan_literal "false" (JBool false) s
          else if (c =? 78)%N then scan_literal "NaN" (JFloat (lit "NaN")) s
          else if (c =? 73)%N then scan_literal "Infinity" (JFloat (lit "Infinity")) s
          else
            match scan_literal "-Infinity" (JFloat (lit "-Infinity")) s with
            | Some res => Some res
            | None => scan_number s
            end
      end
  end

(** The members of an object, from the opening quote of a key on. *)
with parse_members (fuel : nat) (s : str) (acc : dict) {struct fuel} : option (json * str) :=
  match fuel with
  | O => None
  | S f =>
      match s with
      | q :: r =>
          if (q =? 34)%N then
            match scan_string f r with
            | Some (key, r1) =>
                match skip_ws r1 with
                | colon :: r2 =>
                    if (colon =? 58)%N then
                      match parse_value f (skip_ws r2) with
                      | Some (v, r3) =>
                          match skip_ws r3 with
                          | d :: r4 =>
                              if (d =? 125)%N then Some (JObject (dict_set acc key v), r4)
                              else if (d =? 44)%N
                              then parse_members f (skip_ws r4) (dict_set acc key v)
                              else None
                          | [] => None
                          end
                      | None => None
                      end
                    else None
                | [] => None
                end
            | None => None
            end
          else None
      | [] => None
      end
  end

(** The elements of an array, from the first character of an element on. *)
with parse_elements (fuel : nat) (s : str) (acc : list json) {struct fuel}
  : option (json * str) :=
  match fuel with
  | O => None
  | S f =>
      match parse_value f s with
      | Some (v, r1) =>
          match skip_ws r1 with
          | d :: r2 =>
              if (d =? 93)%N then Some (JArray (acc ++ [v]), r2)
              else if (d =? 44)%N then parse_elements f (skip_ws r2) (acc ++ [v])
              else None
          | [] => None
          end
      | None => None
      end
  end.

(** [json.loads(s)] *)
Definition json_loads (s : str) : option json :=
  if match s with c :: _ => (c =? 65279)%N | [] => false end then None
  else
    match parse_value (2 * length s + 2) (skip_ws s) with
    | Some (v, rest) => if is_empty (skip_ws rest) then Some v else None
    | None => None
    end.

(* ===================================================================== *)
(** * prompts.py                                                         *)
(* ===================================================================== *)

Definition digit_char (d : Z) : char := Z.to_N (48 + d).

(** The decimal digits of a positive number, most significant first. *)
Fixpoint decimal_digits (fuel : nat) (n : Z) (acc : str) : str :=
  match fuel with
  | O => acc
  | S f =>
      if n <? 10 then digit_char n :: acc
      else decimal_digits f (n / 10) (digit_char (n mod 10) :: acc)
  end.

(** [str(n)] for an [int]. *)
Definition str_of_int (n : Z) : str :=
  let digits := decimal_digits (S (Z.to_nat (Z.log2 (Z.abs n)))) (Z.abs n) [] in
  if n <? 0 then 45%N :: digits else digits.

(** How an f-string shows an [Optional[int]]. *)
Definition format_count (c : option Z) : str :=
  match c with
  | Some n => str_of_int n
  | None => lit "None"
  end.

Definition build_prompt (text : str) (summary_words : Z) (takeaways_count : option Z) : str :=
  lit "You are a precise writing assistant." ++ [NL]
  ++ lit "Task:" ++ [NL]
  ++ lit "1) Provide a concise, faithful summary of the input text." ++ [NL]
  ++ lit "2) List exactly " ++ format_count takeaways_count
  ++ lit " key takeaways as short bullet points." ++ [NL]
  ++ lit "Length guidance: aim for about " ++ str_of_int summary_words ++ lit " words." ++ [NL]
  ++ lit "Output JSON ONLY with keys: summary, key_takeaways (array)." ++ [NL]
  ++ lit "Text:" ++ [NL]
  ++ text ++ [NL].

(* ===================================================================== *)
(** * llm_client.py                                                      *)
(* ===================================================================== *)

Definition BACKTICKS : str := [96; 96; 96]%N.

(** A pattern letter against a character under [re.IGNORECASE]: the letter,
    its ASCII capital, and for [s] the long s (U+017F). *)
Definition ci_match (p c : char) : bool :=
  ((c =? p) || (65 <=? c) && (c <=? 90) && (c + 32 =? p) || (p =? 115) && (c =? 383))%N.

Fixpoint strip_prefix_ci (prefix s : str) : option str :=
  match prefix, s with
  | [], _ => Some s
  | p :: ps, c :: r => if ci_match p c then strip_prefix_ci ps r else None
  | _ :: _, [] => None
  end.

(** The first alternative, [^```tag\s*], at the start of the text: what
    follows the match. *)
Definition match_open_fence (tag : str) (s : str) : option str :=
  match strip_prefix_ci (BACKTICKS ++ tag) s with
  | Some rest => Some (lstrip rest)
  | None => None
  end.

(** The second alternative, [\s*```$], at the head of [s]: what follows the
    match. [$] holds at the end of the text and before a final newline. *)
Definition match_close_fence (s : str) : option str :=
  match strip_prefix BACKTICKS (lstrip s) with
  | Some rest => if is_empty rest || str_eqb rest [NL] then Some rest else None
  | None => None
  end.

(** The scan of [re.sub] past the start of the text, where only the second
    alternative can match; after a match the rest is empty or a lone
    newline, in which nothing matches. *)
Fixpoint sub_close_fence (s : str) : str :=
  match match_close_fence s with
  | Some rest => rest
  | None =>
      match s with
      | [] => []
      | c :: r => c :: sub_close_fence r
      end
  end.

(** [re.sub(r'^```tag\s*|\s*```$', '', s, flags=re.IGNORECASE | re.DOTALL)] *)
Definition sub_fences (tag : str) (s : str) : str :=
  match match_open_fence tag s with
  | Some rest => sub_close_fence rest
  | None => sub_close_fence s
  end.

(** The longest prefix of [s] that ends with a closing brace. *)
Fixpoint upto_last_brace (s : str) : option str :=
  match s with
  | [] => None
  | c :: r =>
      match upto_last_brace r with
      | Some p => Some (c :: p)
      | None => if (c =? 125)%N then Some [c] else None
      end
  end.

(** [re.search(r'\{.*\}', s, flags=re.DOTALL)], as [match.group(0)]. *)
Fixpoint search_braces (s : str) : option str :=
  match s with
  | [] => None
  | c :: r =>
      if (c =? 123)%N then
        match upto_last_brace r with
        | Some p => Some (c :: p)
        | None => search_braces r
        end
      else search_braces r
  end.

(** The soft repair: every single quote that no backslash precedes becomes
    a double quote; [escaped] tells whether the character
    before the head of [s] is a backslash. *)
Fixpoint repair_quotes_from (escaped : bool) (s : str) : str :=
  match s with
  | [] => []
  | c :: r =>
      (if (c =? 39)%N && negb escaped then 34%N else c)
        :: repair_quotes_from (c =? 92)%N r
  end.

Definition repair_quotes (s : str) : str := repair_quotes_from false s.

Definition loads_or_raise (s : str) : exn + json :=
  match json_loads s with
  | Some v => inr v
  | None => inl JSONDecodeError
  end.

Definition _extract_json (text : option str) : exn + json :=
  match text with
  | None => inl (ValueError (lit "Empty response from model."))
  | Some text =>
      let text := strip text in
      let text := strip (sub_fences (lit "json") text) in
      let text := strip (sub_fences [] text) in
      match json_loads text with
      | Some v => inr v
      | None =>
          match search_braces text with
          | Some candidate =>
              match json_loads candidate with
              | Some v => inr v
              | None =>
                  let candidate2 := repair_quotes candidate in
                  loads_or_raise candidate2
              end
          | None => inl (ValueError (lit "Could not parse JSON from model output."))
          end
      end
  end.

(** One request to the generation endpoint; the answer is [resp.text], or
    [None] when the response has no such attribute. *)
Record llm_request : Type := {
  rq_model : str;
  rq_prompt : str
}.

(** [needle in s] for two strings. *)
Fixpoint is_infix (needle s : str) : bool :=
  match strip_prefix needle s with
  | Some _ => true
  | None =>
      match s with
      | [] => false
      | _ :: r => is_infix needle r
      end
  end.

Definition is_string (k : str) (v : json) : bool :=
  match v with
  | JString s => str_eqb s k
  | _ => false
  end.

(** The normalisation at the end of [_call]:
    [if 'key_takeaways' in data and data['key_takeaways'] is None: ...]. *)
Definition normalize_null_takeaways (data : json) : exn + json :=
  match data with
  | JObject d =>
      match dict_lookup d K_TAKEAWAYS with
      | Some JNull => inr (JObject (dict_set d K_TAKEAWAYS (JArray [])))
      | _ => inr data
      end
  | JArray items => if existsb (is_string K_TAKEAWAYS) items then inl TypeError else inr data
  | JString s => if is_infix K_TAKEAWAYS s then inl TypeError else inr data
  | _ => inl TypeError
  end.

Definition _call (model prompt : str) : prog llm_request (option str) json :=
  Call {| rq_model := model; rq_prompt := prompt |}
       (fun content =>
          match _extract_json content with
          | inl e => Raise e
          | inr data =>
              match normalize_null_takeaways data with
              | inl e => Raise e
              | inr data' => Ret data'
              end
          end).

(** A method of [dict] called on [data]: anything else has no such
    attribute. *)
Definition as_dict (Q R : Type) (data : json) : prog Q R dict :=
  match data with
  | JObject d => Ret d
  | _ => Raise AttributeError
  end.

(** [kt = data.get('key_takeaways', []); if not isinstance(kt, list): kt = []] *)
Definition takeaways_list (d : dict) : list json :=
  match dict_get d K_TAKEAWAYS (JArray []) with
  | JArray items => items
  | _ => []
  end.

(** The local repair after the retry. *)
Definition pad_or_truncate (kt : list json) (takeaways_count : Z) : list json :=
  if len kt <? takeaways_count
  then kt ++ repeat (JString []) (Z.to_nat (takeaways_count - len kt))
  else if len kt >? takeaways_count then firstn (Z.to_nat takeaways_count) kt
  else kt.

(** The validation block of [generate_sections], on the first answer. *)
Definition validate_takeaways (model prompt : str) (takeaways_count : option Z)
    (data : json) : prog llm_request (option str) json :=
  match takeaways_count with
  | None => Ret data
  | Some k =>
      if k >=? 0 then
        bind (as_dict _ _ data) (fun d =>
          let kt := takeaways_list d in
          if negb (len kt =? k) then
            bind (_call model prompt) (fun data2 =>
              bind (as_dict _ _ data2) (fun d2 =>
                let kt2 := pad_or_truncate (takeaways_list d2) k in
                Ret (JObject (dict_set d2 K_TAKEAWAYS (JArray kt2)))))
          else Ret data)
      else Ret data
  end.

(** [GeminiClient.generate_sections] *)
Definition generate_sections (text model : str) (summary_words : Z)
    (takeaways_count : option Z) : prog llm_request (option str) dict :=
  let prompt := build_prompt text summary_words takeaways_count in
  bind (_call model prompt) (fun data =>
    bind (validate_takeaways model prompt takeaways_count data) (fun data =>
      bind (as_dict _ _ data) (fun d =>
        let d := dict_setdefault d K_SUMMARY (JString []) in
        let d := dict_setdefault d K_TAKEAWAYS (JArray []) in
        Ret d))).

(* ===================================================================== *)
(** * app.py: the guard in front of the orchestrator                     *)
(* ===================================================================== *)

Inductive ui_outcome : Type :=
| Warned
| Submitted (p : prog gen_call dict dict).

(** The [Summarize] button: [if not raw_text or not raw_text.strip()] warns
    and returns; otherwise the orchestrator is called. *)
Definition on_summarize (raw_text : option str) (model : str) (target_words : Z)
    (takeaways_count : Z) : ui_outcome :=
  match raw_text with
  | None => Warned
  | Some t =>
      if is_empty t || is_empty (strip t) then Warned
      else Submitted (summarize_document raw_text model target_words (Some takeaways_count))
  end.

(* ===================================================================== *)
(** * pdf_utils.py                                                       *)
(* ===================================================================== *)

(** What [page.extract_text()] does on one page: it raises, or returns a
    text or [None]. *)
Definition page_outcome : Type := exn + option str.

(** One iteration of the [for i, page in enumerate(reader.pages)] loop; the
    state is [texts]. An exception is caught and the page skipped. *)
Definition page_step (texts : list str) (page : page_outcome) : list str :=
  match page with
  | inl _ => texts
  | inr extracted =>
      let page_text := strip (match extracted with Some t => t | None => [] end) in
      if is_empty page_text then texts else texts ++ [page_text]
  end.

(** [extract_text_from_pdf]; [reader] is what [PdfReader(file_like)] gives:
    an exception, or the pages. *)
Definition extract_text_from_pdf (reader : exn + list page_outcome) : exn + str :=
  match reader with
  | inl e => inl e
  | inr pages => inr (strip (join [NL; NL] (fold_left page_step pages [])))
  end.

(* ===================================================================== *)
(** * app.py: reading a text file, naming the download                   *)
(* ===================================================================== *)

Definition bytes : Type := list Byte.byte.

Definition map_option (A B : Type) (f : A -> B) (o : option A) : option B :=
  match o with Some a => Some (f a) | None => None end.

(** A continuation byte, [10xxxxxx]. *)
Definition is_cont (b : N) : bool := ((128 <=? b) && (b <=? 191))%N.

(** The strict UTF-8 decoder on byte values: the well-formed sequences of
    one to four bytes; no overlong form, no surrogate, nothing above
    U+10FFFF. [None] stands for [UnicodeDecodeError]. *)
Fixpoint utf8_decode (bs : list N) : option str :=
  match bs with
  | [] => Some []
  | b0 :: r0 =>
      if (b0 <? 128)%N then map_option (cons b0) (utf8_decode r0)
      else if ((194 <=? b0) && (b0 <=? 223))%N then
        match r0 with
        | b1 :: r1 =>
            if is_cont b1
            then map_option (cons ((b0 - 192) * 64 + (b1 - 128))%N) (utf8_decode r1)
            else None
        | _ => None
        end
      else if ((224 <=? b0) && (b0 <=? 239))%N then
        match r0 with
        | b1 :: b2 :: r2 =>
            if ((if (b0 =? 224)%N then 160 else 128) <=? b1)%N
               && (b1 <=? (if (b0 =? 237)%N then 159 else 191))%N
               && is_cont b2
            then map_option
                   (cons (((b0 - 224) * 64 + (b1 - 128)) * 64 + (b2 - 128))%N)
                   (utf8_decode r2)
            else None
        | _ => None
        end
      else if ((240 <=? b0) && (b0 <=? 244))%N then
        match r0 with
        | b1 :: b2 :: b3 :: r3 =>
            if ((if (b0 =? 240)%N then 144 else 128) <=? b1)%N
               && (b1 <=? (if (b0 =? 244)%N then 143 else 191))%N
               && is_cont b2 && is_cont b3
            then map_option
                   (cons ((((b0 - 240) * 64 + (b1 - 128)) * 64 + (b2 - 128)) * 64
                          + (b3 - 128))%N)
                   (utf8_decode r3)
            else None
        | _ => None
        end
      else None
  end.

(** [file_bytes.decode('utf-8')] *)
Definition decode_utf8 (file_bytes : bytes) : option str :=
  utf8_decode (map Byte.to_N file_bytes).

(** The 16-bit units of a byte string in the given byte order; an odd byte
    at the end is an error. *)
Fixpoint utf16_units (little_endian : bool) (bs : list N) : option (list N) :=
  match bs with
  | [] => Some []
  | [_] => None
  | a :: b :: r =>
      map_option (cons (if little_endian then a + 256 * b else 256 * a + b)%N)
                 (utf16_units little_endian r)
  end.

(** The code points of a sequence of units: a high surrogate joins the low
    surrogate after it; a surrogate out of place is an error. *)
Fixpoint utf16_chars (us : list N) : option str :=
  match us with
  | [] => Some []
  | u :: r =>
      if is_high_surrogate u then
        match r with
        | u2 :: r2 =>
            if is_low_surrogate u2
            then map_option (cons (65536 + (u - 55296) * 1024 + (u2 - 56320))%N)
                            (utf16_chars r2)
            else None
        | [] => None
        end
      else if is_low_surrogate u then None
      else map_option (cons u) (utf16_chars r)
  end.

Definition bind_option (A B : Type) (o : option A) (f : A -> option B) : option B :=
  match o with Some a => f a | None => None end.

(** [file_bytes.decode('utf-16')]: a byte-order mark at the start chooses
    the byte order and is dropped; without one the byte order is the
    host's. *)
Definition decode_utf16 (host_little_endian : bool) (file_bytes : bytes) : option str :=
  let bs := map Byte.to_N file_bytes in
  match bs with
  | a :: b :: r =>
      if ((a =? 255) && (b =? 254))%N then bind_option (utf16_units true r) utf16_chars
      else if ((a =? 254) && (b =? 255))%N then bind_option (utf16_units false r) utf16_chars
      else bind_option (utf16_units host_little_endian bs) utf16_chars
  | _ => bind_option (utf16_units host_little_endian bs) utf16_chars
  end.

(** [file_bytes.decode('latin-1')]: every byte is the character of its
    value. *)
Definition decode_latin1 (file_bytes : bytes) : option str :=
  Some (map Byte.to_N file_bytes).

(** The [for enc in ...] loop: the first decoding that does not raise. *)
Fixpoint first_decoding (decoders : list (bytes -> option str)) (file_bytes : bytes)
  : option str :=
  match decoders with
  | [] => None
  | decode :: rest =>
      match decode file_bytes with
      | Some s => Some s
      | None => first_decoding rest file_bytes
      end
  end.

Definition read_txt_file (host_little_endian : bool) (file_bytes : bytes) : str :=
  match decode_utf8 file_bytes with
  | Some s => s
  | None =>
      match first_decoding [decode_utf16 host_little_endian; decode_latin1] file_bytes with
      | Some s => s
      | None => []
      end
  end.

(** The byte of a value below 256. *)
Definition byte_of_N (n : N) : Byte.byte :=
  match Byte.of_N n with Some b => b | None => Byte.x00 end.

(** The UTF-8 form of one code point; a surrogate has none. *)
Definition utf8_encode_char (c : char) : option (list N) :=
  if (c <? 128)%N then Some [c]
  else if (c <? 2048)%N then Some [192 + c / 64; 128 + c mod 64]%N
  else if (c <? 65536)%N then
    if is_high_surrogate c || is_low_surrogate c then None
    else Some [224 + c / 4096; 128 + (c / 64) mod 64; 128 + c mod 64]%N
  else if (c <? 1114112)%N then
    Some [240 + c / 262144; 128 + (c / 4096) mod 64; 128 + (c / 64) mod 64;
          128 + c mod 64]%N
  else None.

(** [s.encode('utf-8')]; [None] stands for [UnicodeEncodeError]. *)
Fixpoint encode_utf8 (s : str) : option bytes :=
  match s with
  | [] => Some []
  | c :: r =>
      match utf8_encode_char c, encode_utf8 r with
      | Some bs, Some rest => Some (map byte_of_N bs ++ rest)
      | _, _ => None
      end
  end.

(** The part of [s] before its last dot, when it has a dot. *)
Fixpoint before_last_dot (s : str) : option str :=
  match s with
  | [] => None
  | c :: r =>
      match before_last_dot r with
      | Some p => Some (c :: p)
      | None => if (c =? 46)%N then Some [] else None
      end
  end.

(** [s.rsplit('.', 1)[0]] *)
Definition rsplit_dot_first (s : str) : str :=
  match before_last_dot s with
  | Some p => p
  | None => s
  end.

(** [file_base = (uploaded_filename or 'summary').rsplit('.', 1)[0]] and
    [download_name = f'{file_base}_summary.txt']. *)
Definition download_name (uploaded_filename : option str) : str :=
  let name := match uploaded_filename with
              | Some (c :: r) => c :: r
              | _ => lit "summary"
              end in
  rsplit_dot_first name ++ lit "_summary.txt".

(* ===================================================================== *)
(** * llm_client.py: the module-level function and its client            *)
(* ===================================================================== *)

Inductive client_exn : Type :=
| RuntimeError (msg : str).

(** [GeminiClient.__init__]: [env_key] is what [os.getenv('GEMINI_API_KEY')]
    finds after [load_dotenv()]; the result is the key handed to
    [genai.configure]. *)
Definition GeminiClient_init (env_key : option str) : client_exn + str :=
  let api_key := strip (match env_key with Some k => k | None => [] end) in
  if is_empty api_key
  then inl (RuntimeError
              (lit "GEMINI_API_KEY not found. Create a .env file and set "
               ++ lit "GEMINI_API_KEY=your_key_here"))
  else inr api_key.

(** The module-level [generate_sections]. The state is [_client_singleton]:
    [None], or the client with the key it configured. The result is the new
    state and either the exception of the constructor or the run of the
    client's method. *)
Definition generate_sections_fn (_client_singleton : option str) (env_key : option str)
    (text model : str) (summary_words : Z) (takeaways_count : option Z)
  : option str * (client_exn + prog llm_request (option str) dict) :=
  match _client_singleton with
  | Some client =>
      (Some client, inr (generate_sections text model summary_words takeaways_count))
  | None =>
      match GeminiClient_init env_key with
      | inl e => (None, inl e)
      | inr client =>
          (Some client, inr (generate_sections text model summary_words takeaways_count))
      end
  end.

(** [summarize_document] with every call of the section generator replaced
    by the run of [generate_sections] on its arguments. *)
Fixpoint link (A : Type) (p : prog gen_call dict A) : prog llm_request (option str) A :=
  match p with
  | Ret a => Ret a
  | Raise e => Raise e
  | Call q k =>
      bind (generate_sections (gc_text q) (gc_model q) (gc_summary_words q)
                              (gc_takeaways_count q))
           (fun d => link (k d))
  end.

(* ===================================================================== *)
(** * Vocabulary of the statements                                       *)
(* ===================================================================== *)

(** A word: non-empty and free of whitespace. *)
Definition word_ok (w : str) : Prop :=
  w <> [] /\ forallb (fun c => negb (is_space c)) w = true.

(** [a] occurs in [b] as a contiguous block. *)
Definition infix_of (A : Type) (a b : list A) : Prop :=
  exists pre post, b = pre ++ a ++ post.

(** [a] ends [b]. *)
Definition suffix_of (A : Type) (a b : list A) : Prop :=
  exists pre, b = pre ++ a.

(** No two neighbours of [l] both satisfy [short]. *)
Definition no_adjacent (A : Type) (short : A -> Prop) (l : list A) : Prop :=
  forall pre a b post, l = pre ++ a :: b :: post -> short a -> ~ short b.

(** Every element of [l] but the last satisfies [P]. *)
Definition all_but_last (A : Type) (P : A -> Prop) (l : list A) : Prop :=
  forall pre a b post, l = pre ++ a :: b :: post -> P a.

Definition clamp (x lo hi : Z) : Z :=
  if x <? lo then lo else if hi <? x then hi else x.

(** The allocator as the specification words it: the cushioned share,
    truncated to an integer and clamped; [final_target] clamped when there
    is no total. *)
Definition budget_spec (total_words chunk_words final_target : Z) : exn + Z :=
  if total_words <=? 0 then inr (clamp final_target 50 2000)
  else
    match int_truediv chunk_words total_words, float_of_int final_target with
    | inl e, _ => inl e
    | inr _, inl e => inl e
    | inr ratio, inr ft =>
        match int_of_float (float_mul (float_mul ft ratio) float_1_2) with
        | inl e => inl e
        | inr alloc => inr (clamp alloc 80 (Z.max 200 final_target))
        end
    end.

(** The reduce input as the specification words it: the non-empty
    mini-summaries, joined by a blank line. *)
Definition combined_nonempty (mini_summaries : list str) : str :=
  join [NL; NL] (filter (fun s => negb (is_empty s)) mini_summaries).

(** The reduce input the orchestrator builds: the mini-summaries that are
    not blank, joined by a blank line. *)
Definition combined_nonblank (mini_summaries : list str) : str :=
  join [NL; NL] (filter (fun s => negb (is_empty (strip s))) mini_summaries).

(** What [rstrip] leaves of the collapsed text. *)
Definition collapsed_shape (s : str) : str :=
  match s with
  | c :: _ =>
      if is_space c
      then match split_ws s with [] => [] | ws => SP :: join [SP] ws end
      else join [SP] (split_ws s)
  | [] => []
  end.

(** The single generator call of the short-circuit branch. *)
Definition short_call (text model : str) (target_words : Z) (takeaways_count : option Z)
  : gen_call :=
  {| gc_text := text; gc_model := model;
     gc_summary_words := Z.min target_words (Z.max 30 (word_count text));
     gc_takeaways_count := takeaways_count |}.

(** The result of the short-circuit branch, given the generator's answer. *)
Definition short_result (text : str) (mini : dict) : dict :=
  [(K_SUMMARY, JString text); (K_TAKEAWAYS, dict_get mini K_TAKEAWAYS (JArray []))].

(** What the loop of [_chunk_by_words] maintains, after the sentences
    [done]. *)
Record chunk_inv (t : Z) (done : list str) (st : chunk_state) : Prop := {
  ci_count : current_words st = len (concat (map split_ws (current st)));
  ci_current : current st <> [] ->
               exists s, In s done /\ current_words st <= t + word_count s;
  ci_chunks : forall c, In c (chunks st) ->
              exists s, In s done /\ word_count c <= t + word_count s;
  ci_whole : forall s, In s done ->
             (exists c, In c (chunks st) /\ infix_of (split_ws s) (split_ws c))
             \/ In s (current st);
  ci_last : forall ss s, done = ss ++ [s] -> exists pre, current st = pre ++ [s]
}.

Definition short_sentence (s : str) : Prop := word_count s < 4.

(** What the loop of the merge maintains, after the parts [done]. *)
Record merge_inv (done : list str) (st : list str * str) : Prop := {
  mi_words : concat (map split_ws (fst st)) ++ split_ws (snd st)
             = concat (map split_ws done);
  mi_buf_short : word_count (snd st) < 4;
  mi_buf_stripped : is_empty (snd st) = is_empty (split_ws (snd st));
  mi_nonempty : Forall (fun m => split_ws m <> []) (fst st);
  mi_adjacent : no_adjacent short_sentence (fst st);
  mi_last_long : forall pre x, fst st = pre ++ [x] -> ~ short_sentence x
}.

(** The generator call of the map step for one chunk. *)
Definition map_call (model : str) (c : str) (budget : Z) : gen_call :=
  {| gc_text := c; gc_model := model; gc_summary_words := budget;
     gc_takeaways_count := Some 0 |}.

(** The generator call of the reduce step. *)
Definition reduce_call (model : str) (target_words : Z) (takeaways_count : option Z)
    (combined : str) : gen_call :=
  {| gc_text := combined; gc_model := model; gc_summary_words := target_words;
     gc_takeaways_count := takeaways_count |}.

(** The budgets of the chunks, when the allocator returns on each. *)
Fixpoint chunk_budgets (total_words target_words : Z) (cs : list str) : option (list Z) :=
  match cs with
  | [] => Some []
  | c :: cs' =>
      match _proportional_words total_words (word_count c) target_words,
            chunk_budgets total_words target_words cs' with
      | inr b, Some bs => Some (b :: bs)
      | _, _ => None
      end
  end.

Fixpoint map_calls (model : str) (cs : list str) (budgets : list Z) : list gen_call :=
  match cs, budgets with
  | c :: cs', b :: bs => map_call model c b :: map_calls model cs' bs
  | _, _ => []
  end.

(** The summaries a generator gives to the requests [calls], the first of
    which is request number [i], when it answers each with a dictionary
    whose summary is a string (an absent summary counts as empty). *)
Fixpoint map_summaries (generator : nat -> gen_call -> exn + dict) (i : nat)
    (calls : list gen_call) : option (list str) :=
  match calls with
  | [] => Some []
  | q :: qs =>
      match generator i q with
      | inr d =>
          match dict_get d K_SUMMARY (JString []), map_summaries generator (S i) qs with
          | JString s, Some ss => Some (s :: ss)
          | _, _ => None
          end
      | inl _ => None
      end
  end.

(** A document of 60 one-letter words, and a generator whose every summary
    is a single space. *)
Definition doc60 : str := join [SP] (repeat (lit "w") 60).

Definition gen_blank (i : nat) (q : gen_call) : exn + dict :=
  inr [(K_SUMMARY, JString [SP]); (K_TAKEAWAYS, JArray [])].

Definition QUOTE : char := 34%N.

(** [s] between double quotes. *)
Definition quoted (s : str) : str := QUOTE :: s ++ [QUOTE].

(** The text [_extract_json] hands to the parser: the response stripped,
    with both fence patterns removed. *)
Definition clean_fences (text : str) : str :=
  strip (sub_fences [] (strip (sub_fences (lit "json") (strip text)))).

(** The model output of the specification's example, with single quotes. *)
Definition single_quoted_response : str :=
  lit "{'summary': 'x', 'key_takeaways': []}".

(** The same object written with double quotes. *)
Definition repaired_response : str :=
  lit "{" ++ quoted (lit "summary") ++ lit ": " ++ quoted (lit "x") ++ lit ", "
  ++ quoted (lit "key_takeaways") ++ lit ": []}".

(** An endpoint that answers every request with the same text. *)
Definition llm_const (response : str) (i : nat) (q : llm_request) : exn + option str :=
  inr (Some response).

(** A response whose [key_takeaways] is a string. *)
Definition response_string_takeaways : str :=
  lit "{" ++ quoted (lit "summary") ++ lit ": " ++ quoted (lit "s") ++ lit ", "
  ++ quoted (lit "key_takeaways") ++ lit ": " ++ quoted (lit "oops") ++ lit "}".

(** The text of a JSON object: from its opening to its closing brace. *)
Definition object_text (body : str) : str := 123%N :: body ++ [125%N].

(** What a successful parse consumed: the rest is a suffix of the text; an
    object starts at an opening brace and ends at a closing one. *)
Definition value_shape (s : str) (v : json) (r : str) : Prop :=
  suffix_of r s
  /\ forall kvs, v = JObject kvs -> exists body, s = 123%N :: body ++ 125%N :: r.

(** The optional sign of an exponent. *)
Definition exp_sign (r : str) : str * str :=
  match r with
  | x :: r0 => if ((x =? 43) || (x =? 45))%N then ([x], r0) else ([], r)
  | [] => ([], r)
  end.

(** A small object text, for the fenced examples. *)
Definition fenced_example : str :=
  lit "{" ++ quoted (lit "a") ++ lit ": 1}".

(** The words of a list of texts, in order. *)
Definition words_of (l : list str) : list str := concat (map split_ws l).

(** [b] starts with the last [n] words of [a]. *)
Definition overlaps (n : nat) (a b : str) : Prop :=
  exists rest, split_ws b = last_n n (split_ws a) ++ rest.

(** Every two neighbours of [l] are related by [R]. *)
Definition chained (A : Type) (R : A -> A -> Prop) (l : list A) : Prop :=
  forall pre a b post, l = pre ++ a :: b :: post -> R a b.

(** Every whitespace character of [s] is a single space with a
    non-whitespace character after it. *)
Fixpoint tidy (s : str) : bool :=
  match s with
  | [] => true
  | c :: r =>
      (if is_space c then (c =? SP)%N && negb (is_space (hd SP r)) else true) && tidy r
  end.

(** [s] ends with one of [. ! ?]. *)
Definition ends_terminal (s : str) : Prop := is_terminal (last s SP) = true.

(** [s] is whitespace-normalised and not empty. *)
Definition normalised (s : str) : Prop :=
  s <> [] /\ _normalize_whitespace (Some s) = s.

(** What [merge_fragments] returns if the loop stops in state [st]. *)
Definition flush (st : list str * str) : list str :=
  if is_empty (snd st) then fst st else fst st ++ [snd st].

(** What the map step collects from the requests [calls], the first of
    which is request number [i], when the generator answers each of them:
    the [summary] entry of every answer, whatever its type (an absent one
    counts as the empty string). *)
Fixpoint map_answers (generator : nat -> gen_call -> exn + dict) (i : nat)
    (calls : list gen_call) : option (list json) :=
  match calls with
  | [] => Some []
  | q :: qs =>
      match generator i q, map_answers generator (S i) qs with
      | inr d, Some vs => Some (dict_get d K_SUMMARY (JString []) :: vs)
      | _, _ => None
      end
  end.

Definition is_json_string (v : json) : bool :=
  match v with JString _ => true | _ => false end.

(** A generator whose every summary is the number 5. *)
Definition gen_number (i : nat) (q : gen_call) : exn + dict :=
  inr [(K_SUMMARY, JInt 5); (K_TAKEAWAYS, JArray [])].

(** The outcome of request number [i] as [_call] sees it: the endpoint's
    answer, parsed and with a null [key_takeaways] replaced. *)
Definition call_outcome (oracle : nat -> llm_request -> exn + option str) (i : nat)
    (rq : llm_request) : exn + json :=
  match oracle i rq with
  | inl e => inl e
  | inr content =>
      match _extract_json content with
      | inl e => inl e
      | inr data => normalize_null_takeaways data
      end
  end.

(** The request [generate_sections] sends for its arguments. *)
Definition request_of (text model : str) (summary_words : Z) (takeaways_count : option Z)
  : llm_request :=
  {| rq_model := model; rq_prompt := build_prompt text summary_words takeaways_count |}.

(** An endpoint that answers the first request with [first] and every later
    one with [second]. *)
Definition llm_two (first second : str) (i : nat) (q : llm_request) : exn + option str :=
  match i with
  | O => inr (Some first)
  | S _ => inr (Some second)
  end.

(** The closing steps of [generate_sections]: both keys are given a
    default. *)
Definition finish (data : json) : exn + dict :=
  match data with
  | JObject d =>
      inr (dict_setdefault (dict_setdefault d K_SUMMARY (JString [])) K_TAKEAWAYS (JArray []))
  | _ => inl AttributeError
  end.

(** The retry of [validate_takeaways]. *)
Definition retry (oracle : nat -> llm_request -> exn + option str) (rq : llm_request)
    (k : Z) : exn + json :=
  match call_outcome oracle 1 rq with
  | inl e => inl e
  | inr (JObject d2) =>
      inr (JObject (dict_set d2 K_TAKEAWAYS (JArray (pad_or_truncate (takeaways_list d2) k))))
  | inr _ => inl AttributeError
  end.

(** The empty object, and two answers with one and with three takeaways. *)
Definition response_empty_object : str := lit "{}".

Definition response_one_takeaway : str :=
  lit "{" ++ quoted (lit "summary") ++ lit ": " ++ quoted (lit "a") ++ lit ", "
  ++ quoted (lit "key_takeaways") ++ lit ": [" ++ quoted (lit "x") ++ lit "]}".

Definition response_three_takeaways : str :=
  lit "{" ++ quoted (lit "summary") ++ lit ": " ++ quoted (lit "b") ++ lit ", "
  ++ quoted (lit "key_takeaways") ++ lit ": [" ++ quoted (lit "p") ++ lit ", "
  ++ quoted (lit "q") ++ lit ", " ++ quoted (lit "r") ++ lit "]}".

(** A refusal in plain words, and a small object between two remarks. *)
Definition response_refusal : str := lit "Sorry, I cannot help.".

Definition response_in_prose : str := lit "Sure: " ++ fenced_example ++ lit " Done.".

(** The texts of the pages that could be read. *)
Definition readable_texts (pages : list page_outcome) : list str :=
  flat_map (fun p => match p with inr (Some t) => [t] | _ => [] end) pages.

(** The page texts that are kept: stripped, and not empty then. *)
Definition page_texts (pages : list page_outcome) : list str :=
  filter (fun t => negb (is_empty t)) (map strip (readable_texts pages)).

(** A Unicode scalar value: a code point up to U+10FFFF that is not a
    surrogate. *)
Definition is_scalar (c : char) : bool :=
  ((c <? 55296) || (57344 <=? c) && (c <? 1114112))%N.

(** The words a chunk adds to the chunk before it: its words after the
    overlap, that is after as many words as the tail of the chunk before
    has. *)
Definition fresh_words (n : nat) (prev c : str) : list str :=
  skipn (length (last_n n (split_ws prev))) (split_ws c).

Fixpoint fresh_after (n : nat) (prev : str) (cs : list str) : list str :=
  match cs with
  | [] => []
  | c :: rest => fresh_words n prev c ++ fresh_after n c rest
  end.

(** The words of a list of chunks with every overlap counted once: the
    words of the first chunk, then what each later chunk adds. *)
Definition unrolled (n : nat) (cs : list str) : list str :=
  match cs with
  | [] => []
  | c :: rest => split_ws c ++ fresh_after n c rest
  end.

(* ===================================================================== *)
(** * Lemmas on strings                                                  *)
(* ===================================================================== *)

Unset Implicit Arguments.

(** Arithmetic on lengths: [str], [list char] and [list N] are one type. *)
Ltac llia := unfold str, char in *; cbn [length] in *; lia.

(** Settles the comparisons of the goal that linear arithmetic decides. *)
Ltac settle_tests :=
  repeat match goal with
         | |- context [(?a <? ?b)%N] =>
             first [ replace (a <? b)%N with true by (symmetry; apply N.ltb_lt; lia)
                   | replace (a <? b)%N with false by (symmetry; apply N.ltb_ge; lia) ]
         | |- context [(?a <=? ?b)%N] =>
             first [ replace (a <=? b)%N with true by (symmetry; apply N.leb_le; lia)
                   | replace (a <=? b)%N with false by (symmetry; apply N.leb_gt; lia) ]
         | |- context [(?a =? ?b)%N] =>
             first [ replace (a =? b)%N with true by (symmetry; apply N.eqb_eq; lia)
                   | replace (a =? b)%N with false by (symmetry; apply N.eqb_neq; lia) ]
         end.

(** Splits on the equality tests that are left. *)
Ltac split_eq_tests :=
  repeat match goal with
         | |- context [(?a =? ?b)%N] => destruct (N.eqb_spec a b)
         end.

Ltac run_tests :=
  settle_tests; cbn [andb orb]; split_eq_tests; cbn [andb orb];
  settle_tests; cbn [andb orb].

Lemma join_cons (sep x : str) (l : list str) :
  join sep (x :: l) = x ++ match l with [] => [] | _ => sep ++ join sep l end.
Proof. destruct l; simpl; [now rewrite app_nil_r | reflexivity]. Qed.

Lemma cons_word_app (w : str) (a b : list str) :
  cons_word w (a ++ b) = cons_word w a ++ b.
Proof. destruct w; reflexivity. Qed.

Lemma split_ws_unfold (s : str) : split_ws s = cons_word (fst (wsplit s)) (snd (wsplit s)).
Proof. unfold split_ws. destruct (wsplit s); reflexivity. Qed.

Lemma wsplit_cons (c : char) (r : str) :
  wsplit (c :: r) =
  if is_space c then ([], split_ws r) else (c :: fst (wsplit r), snd (wsplit r)).
Proof. simpl. rewrite split_ws_unfold. destruct (wsplit r); reflexivity. Qed.

Lemma split_ws_cons_space (c : char) (r : str) :
  is_space c = true -> split_ws (c :: r) = split_ws r.
Proof. intros H. rewrite (split_ws_unfold (c :: r)), wsplit_cons, H. reflexivity. Qed.

Lemma split_ws_cons_word (c : char) (r : str) :
  is_space c = false ->
  split_ws (c :: r) = (c :: fst (wsplit r)) :: snd (wsplit r).
Proof. intros H. rewrite (split_ws_unfold (c :: r)), wsplit_cons, H. reflexivity. Qed.

Lemma wsplit_app_space (a b : str) (c : char) :
  is_space c = true ->
  wsplit (a ++ c :: b) = (fst (wsplit a), snd (wsplit a) ++ split_ws b).
Proof.
  intros Hc. induction a as [|x a IH].
  - simpl app. rewrite wsplit_cons, Hc. reflexivity.
  - rewrite <- app_comm_cons, !wsplit_cons, (split_ws_unfold (a ++ c :: b)), IH.
    destruct (is_space x); simpl fst; simpl snd.
    + now rewrite cons_word_app, (split_ws_unfold a).
    + reflexivity.
Qed.

Lemma split_ws_app_space (a b : str) (c : char) :
  is_space c = true -> split_ws (a ++ c :: b) = split_ws a ++ split_ws b.
Proof.
  intros Hc. rewrite (split_ws_unfold (a ++ c :: b)), (wsplit_app_space a b c Hc).
  simpl fst; simpl snd. now rewrite cons_word_app, <- (split_ws_unfold a).
Qed.

Lemma is_space_SP : is_space SP = true.
Proof. reflexivity. Qed.

Lemma split_ws_join (l : list str) :
  split_ws (join [SP] l) = concat (map split_ws l).
Proof.
  induction l as [|x l IH]; [reflexivity|].
  rewrite join_cons. destruct l as [|y l].
  - simpl. now rewrite !app_nil_r.
  - change ([SP] ++ join [SP] (y :: l)) with (SP :: join [SP] (y :: l)).
    rewrite (split_ws_app_space x _ SP is_space_SP), IH. reflexivity.
Qed.

Lemma wsplit_words_ok (s : str) :
  forallb (fun c => negb (is_space c)) (fst (wsplit s)) = true
  /\ Forall word_ok (snd (wsplit s)).
Proof.
  induction s as [|c r [IHw IHws]]; [now split|].
  rewrite wsplit_cons. destruct (is_space c) eqn:Hc; simpl fst; simpl snd.
  - split; [reflexivity|]. rewrite split_ws_unfold.
    destruct (fst (wsplit r)) eqn:Hw; simpl; [assumption|].
    constructor; [|assumption]. split; [discriminate | assumption].
  - split; [|assumption]. simpl. now rewrite Hc.
Qed.

Lemma split_ws_words_ok (s : str) : Forall word_ok (split_ws s).
Proof.
  destruct (wsplit_words_ok s) as [Hw Hws]. rewrite split_ws_unfold.
  destruct (fst (wsplit s)) eqn:E; simpl; [assumption|].
  constructor; [|assumption]. split; [discriminate | assumption].
Qed.

Lemma wsplit_nospace (w : str) :
  forallb (fun c => negb (is_space c)) w = true -> wsplit w = (w, []).
Proof.
  induction w as [|c r IH]; [reflexivity|]. simpl forallb.
  intros H. apply andb_prop in H. destruct H as [Hc Hr].
  apply negb_true_iff in Hc. rewrite wsplit_cons, Hc, (IH Hr). reflexivity.
Qed.

Lemma split_ws_word (w : str) : word_ok w -> split_ws w = [w].
Proof.
  intros [Hne Hw]. rewrite split_ws_unfold, (wsplit_nospace w Hw). simpl.
  destruct w; [contradiction | reflexivity].
Qed.

Lemma concat_map_split_words (ws : list str) :
  Forall word_ok ws -> concat (map split_ws ws) = ws.
Proof.
  induction 1 as [|w ws Hw _ IH]; [reflexivity|].
  simpl. now rewrite (split_ws_word w Hw), IH.
Qed.

Lemma split_ws_join_words (ws : list str) :
  Forall word_ok ws -> split_ws (join [SP] ws) = ws.
Proof. intros H. rewrite split_ws_join. now apply concat_map_split_words. Qed.

Lemma split_ws_lstrip (s : str) : split_ws (lstrip s) = split_ws s.
Proof.
  induction s as [|c r IH]; [reflexivity|]. simpl lstrip.
  destruct (is_space c) eqn:Hc; [|reflexivity].
  now rewrite (split_ws_cons_space c r Hc).
Qed.

Lemma rstrip_cons_nospace (c : char) (r : str) :
  is_space c = false -> rstrip (c :: r) = c :: rstrip r.
Proof. intros H. simpl. rewrite H. destruct (rstrip r); reflexivity. Qed.

Lemma wsplit_rstrip (s : str) : wsplit (rstrip s) = wsplit s.
Proof.
  induction s as [|c r IH]; [reflexivity|].
  destruct (is_space c) eqn:Hc.
  - simpl rstrip. rewrite Hc. destruct (rstrip r) as [|x r'] eqn:E.
    + rewrite wsplit_cons, Hc, split_ws_unfold, <- IH. reflexivity.
    + rewrite (wsplit_cons c (x :: r')), (wsplit_cons c r), Hc.
      now rewrite (split_ws_unfold (x :: r')), (split_ws_unfold r), IH.
  - rewrite (rstrip_cons_nospace c r Hc), !wsplit_cons, Hc, IH. reflexivity.
Qed.

Lemma split_ws_strip (s : str) : split_ws (strip s) = split_ws s.
Proof.
  unfold strip. rewrite split_ws_lstrip, !split_ws_unfold, wsplit_rstrip. reflexivity.
Qed.

Lemma lstrip_head (s : str) :
  lstrip s = [] \/ exists c r, lstrip s = c :: r /\ is_space c = false.
Proof.
  induction s as [|c r IH]; [now left|]. simpl.
  destruct (is_space c) eqn:Hc; [assumption|]. right. now exists c, r.
Qed.

Lemma strip_empty_iff (s : str) : strip s = [] <-> split_ws s = [].
Proof.
  split; intros H.
  - rewrite <- split_ws_strip, H. reflexivity.
  - destruct (lstrip_head (rstrip s)) as [E|(c & r & E & Hc)]; [exact E|].
    exfalso. rewrite <- split_ws_strip in H. unfold strip in H.
    rewrite E, (split_ws_cons_word c r Hc) in H. discriminate.
Qed.

Lemma is_empty_strip (s : str) : is_empty (strip s) = is_empty (split_ws s).
Proof.
  destruct (strip s) eqn:E1, (split_ws s) eqn:E2; try reflexivity; exfalso.
  - apply strip_empty_iff in E1. congruence.
  - apply strip_empty_iff in E2. congruence.
Qed.

Lemma lstrip_join_words (ws : list str) :
  Forall word_ok ws -> lstrip (join [SP] ws) = join [SP] ws.
Proof.
  intros H. destruct H as [|w ws [Hne Hw] _]; [reflexivity|].
  rewrite join_cons. destruct w as [|c w]; [contradiction|].
  simpl in Hw. apply andb_prop in Hw. destruct Hw as [Hc _].
  apply negb_true_iff in Hc. simpl. now rewrite Hc.
Qed.

Lemma collapsed_shape_tail (r : str) :
  collapsed_shape r =
  fst (wsplit r) ++ match snd (wsplit r) with [] => [] | ws => SP :: join [SP] ws end.
Proof.
  destruct r as [|c r]; [reflexivity|]. unfold collapsed_shape.
  destruct (is_space c) eqn:Hc.
  - rewrite (split_ws_cons_space c r Hc), wsplit_cons, Hc. reflexivity.
  - rewrite (split_ws_cons_word c r Hc), wsplit_cons, Hc, join_cons.
    simpl fst; simpl snd. destruct (snd (wsplit r)); reflexivity.
Qed.

Lemma rstrip_collapse (s : str) : rstrip (collapse_ws s) = collapsed_shape s.
Proof.
  induction s as [|c r IH]; [reflexivity|].
  destruct (is_space c) eqn:Hc.
  - simpl collapse_ws. rewrite Hc. unfold collapsed_shape at 1. rewrite Hc.
    rewrite (split_ws_cons_space c r Hc).
    destruct r as [|c' r']; [reflexivity|].
    destruct (is_space c') eqn:Hc'.
    + rewrite IH. unfold collapsed_shape. rewrite Hc'. reflexivity.
    + change (rstrip (SP :: collapse_ws (c' :: r')))
        with (match rstrip (collapse_ws (c' :: r')) with
              | [] => if is_space SP then [] else [SP]
              | x => SP :: x end).
      rewrite IH. unfold collapsed_shape. rewrite Hc'.
      rewrite (split_ws_cons_word c' r' Hc'). cbv beta iota.
      rewrite !join_cons. cbn [app]. reflexivity.
  - simpl collapse_ws. rewrite Hc, (rstrip_cons_nospace c _ Hc), IH.
    unfold collapsed_shape at 2. rewrite Hc, (split_ws_cons_word c r Hc), join_cons.
    rewrite collapsed_shape_tail. destruct (snd (wsplit r)); reflexivity.
Qed.

Lemma normalize_join (s : str) :
  _normalize_whitespace (Some s) = join [SP] (split_ws s).
Proof.
  unfold _normalize_whitespace, strip. rewrite rstrip_collapse.
  pose proof (split_ws_words_ok s) as Hok.
  destruct s as [|c r]; [reflexivity|]. unfold collapsed_shape.
  destruct (is_space c) eqn:Hc.
  - destruct (split_ws (c :: r)) as [|w ws] eqn:E; [reflexivity|].
    change (lstrip (SP :: join [SP] (w :: ws))) with (lstrip (join [SP] (w :: ws))).
    now apply lstrip_join_words.
  - now apply lstrip_join_words.
Qed.

Lemma split_ws_normalize (s : str) :
  split_ws (_normalize_whitespace (Some s)) = split_ws s.
Proof. rewrite normalize_join. apply split_ws_join_words, split_ws_words_ok. Qed.

Lemma normalize_idempotent (s : str) :
  _normalize_whitespace (Some (_normalize_whitespace (Some s))) = _normalize_whitespace (Some s).
Proof. rewrite (normalize_join (_normalize_whitespace _)), split_ws_normalize, <- normalize_join. reflexivity. Qed.

Lemma is_empty_normalize (s : str) :
  is_empty (_normalize_whitespace (Some s)) = is_empty (split_ws s).
Proof.
  rewrite normalize_join. pose proof (split_ws_words_ok s) as H.
  destruct H as [|w ws [Hne _] _]; [reflexivity|].
  rewrite join_cons. destruct w; [contradiction | reflexivity].
Qed.

Lemma len_app (A : Type) (a b : list A) : len (a ++ b) = len a + len b.
Proof. unfold len. rewrite length_app. lia. Qed.

Lemma len_nonneg (A : Type) (l : list A) : 0 <= len l.
Proof. unfold len. lia. Qed.

Lemma wsplit_all_space (s : str) :
  forallb is_space s = true -> wsplit s = ([], []).
Proof.
  induction s as [|c r IH]; [reflexivity|]. simpl forallb. intros H.
  apply andb_prop in H. destruct H as [Hc Hr].
  rewrite wsplit_cons, Hc, split_ws_unfold, (IH Hr). reflexivity.
Qed.

Lemma normalize_blank (raw : option str) :
  match raw with None => True | Some t => forallb is_space t = true end ->
  _normalize_whitespace raw = [].
Proof.
  destruct raw as [t|]; [|reflexivity]. intros H.
  rewrite normalize_join, split_ws_unfold, (wsplit_all_space t H). reflexivity.
Qed.

(* ===================================================================== *)
(** * The orchestrator on short input                                    *)
(* ===================================================================== *)

(** C2. When the normalised input has fewer than 60 words,
    [summarize_document] is exactly one generator call, on the normalised
    text with the requested takeaway count, followed by a return whose
    summary is the normalised text itself, whatever [target_words] is, and
    whose takeaways are those of that call; replayed against any generator
    it sends that one request and no other. *)
Theorem short_input_identity (raw_text : option str) (model : str) (target_words : Z)
    (takeaways_count : option Z) :
  word_count (_normalize_whitespace raw_text) < 60 ->
  let text := _normalize_whitespace raw_text in
  summarize_document raw_text model target_words takeaways_count
  = Call (short_call text model target_words takeaways_count)
         (fun mini => Ret (short_result text mini))
  /\ gc_text (short_call text model target_words takeaways_count) = text
  /\ gc_takeaways_count (short_call text model target_words takeaways_count) = takeaways_count
  /\ (forall mini, dict_lookup (short_result text mini) K_SUMMARY = Some (JString text))
  /\ (forall mini, dict_lookup (short_result text mini) K_TAKEAWAYS
                   = Some (dict_get mini K_TAKEAWAYS (JArray [])))
  /\ forall (generator : nat -> gen_call -> exn + dict) (i : nat),
       run generator i (summarize_document raw_text model target_words takeaways_count)
       = ([short_call text model target_words takeaways_count],
          match generator i (short_call text model target_words takeaways_count) with
          | inl e => inl e
          | inr mini => inr (short_result text mini)
          end).
Proof.
  intros Hshort text.
  assert (E : summarize_document raw_text model target_words takeaways_count
              = Call (short_call text model target_words takeaways_count)
                     (fun mini => Ret (short_result text mini))).
  { unfold summarize_document. fold text.
    change (len (split_ws text)) with (word_count text).
    destruct (Z.ltb_spec (word_count text) 60) as [_|Hge]; [reflexivity|].
    unfold text in Hge. lia. }
  repeat split; try reflexivity; try exact E.
  intros generator i. rewrite E. simpl.
  destruct (generator i _); reflexivity.
Qed.

Lemma short_input_identity_witness :
  fst (run (fun _ _ => inr [(K_TAKEAWAYS, JArray [JString (lit "hi")])]) 0
           (summarize_document (Some (lit "  hello   world ")) (lit "m") 5 (Some 1)))
  = [short_call (lit "hello world") (lit "m") 5 (Some 1)].
Proof.
  destruct (short_input_identity (Some (lit "  hello   world ")) (lit "m") 5 (Some 1))
    as (_ & _ & _ & _ & _ & Hrun).
  - vm_compute. reflexivity.
  - rewrite Hrun. reflexivity.
Defined.

(** C10. Empty, whitespace-only or missing input is not refused by the
    orchestrator: it normalises to the empty string, the first thing
    [summarize_document] does is the single short-circuit generator call,
    with empty text, and the summary returned is the empty string. The
    refusal is the guard of the user interface, which warns on the same
    input without calling the orchestrator. *)
Theorem blank_input_reaches_generator (raw_text : option str) (model : str)
    (target_words : Z) (takeaways_count : option Z) :
  match raw_text with None => True | Some t => forallb is_space t = true end ->
  _normalize_whitespace raw_text = []
  /\ summarize_document raw_text model target_words takeaways_count
     = Call {| gc_text := []; gc_model := model;
               gc_summary_words := Z.min target_words 30;
               gc_takeaways_count := takeaways_count |}
            (fun mini => Ret [(K_SUMMARY, JString []);
                              (K_TAKEAWAYS, dict_get mini K_TAKEAWAYS (JArray []))])
  /\ (forall (generator : nat -> gen_call -> exn + dict) (i : nat) (mini : dict),
        generator i {| gc_text := []; gc_model := model;
                       gc_summary_words := Z.min target_words 30;
                       gc_takeaways_count := takeaways_count |} = inr mini ->
        run generator i (summarize_document raw_text model target_words takeaways_count)
        = ([{| gc_text := []; gc_model := model;
               gc_summary_words := Z.min target_words 30;
               gc_takeaways_count := takeaways_count |}],
           inr [(K_SUMMARY, JString []);
                (K_TAKEAWAYS, dict_get mini K_TAKEAWAYS (JArray []))]))
  /\ forall k, on_summarize raw_text model target_words k = Warned.
Proof.
  intros Hblank. pose proof (normalize_blank raw_text Hblank) as Hn.
  assert (E : summarize_document raw_text model target_words takeaways_count
     = Call {| gc_text := []; gc_model := model;
               gc_summary_words := Z.min target_words 30;
               gc_takeaways_count := takeaways_count |}
            (fun mini => Ret [(K_SUMMARY, JString []);
                              (K_TAKEAWAYS, dict_get mini K_TAKEAWAYS (JArray []))])).
  { unfold summarize_document. rewrite Hn. reflexivity. }
  split; [exact Hn|]. split; [exact E|]. split.
  - intros generator i mini Hg. rewrite E. simpl. rewrite Hg. reflexivity.
  - intros k. destruct raw_text as [t|]; [|reflexivity]. unfold on_summarize.
    rewrite is_empty_strip, split_ws_unfold, (wsplit_all_space t Hblank).
    simpl. now rewrite orb_true_r.
Qed.

Lemma blank_input_reaches_generator_witness :
  summarize_document (Some [SP; NL; 9%N]) (lit "m") 200 (Some 3)
  = Call {| gc_text := []; gc_model := lit "m"; gc_summary_words := Z.min 200 30;
            gc_takeaways_count := Some 3 |}
         (fun mini => Ret [(K_SUMMARY, JString []);
                           (K_TAKEAWAYS, dict_get mini K_TAKEAWAYS (JArray []))])
  /\ on_summarize (Some [SP; NL; 9%N]) (lit "m") 200 3 = Warned.
Proof.
  destruct (blank_input_reaches_generator (Some [SP; NL; 9%N]) (lit "m") 200 (Some 3))
    as (_ & E & _ & Hui).
  - reflexivity.
  - split; [exact E | apply Hui].
Defined.

(* ===================================================================== *)
(** * The budget allocator                                               *)
(* ===================================================================== *)

Lemma clamp_max_min (x lo hi : Z) :
  lo <= hi -> Z.max lo (Z.min x hi) = clamp x lo hi.
Proof.
  intros H. unfold clamp.
  destruct (Z.ltb_spec x lo), (Z.ltb_spec hi x); lia.
Qed.

(** C3. [_proportional_words] is the allocator of the specification: with
    a positive total it is [int(final_target * (chunk_words / total_words)
    * 1.2)] clamped to [[80, max(200, final_target)]], in binary64
    arithmetic; without one it is [final_target] clamped to [[50, 2000]].
    What it returns lies in the interval of its case. It returns 120 for
    1000, 500, 200 and 200 for a zero total with target 200. *)
Theorem budget_allocator (total_words chunk_words final_target : Z) :
  _proportional_words total_words chunk_words final_target
  = budget_spec total_words chunk_words final_target
  /\ match _proportional_words total_words chunk_words final_target with
     | inr b => if total_words <=? 0 then 50 <= b <= 2000
                else 80 <= b <= Z.max 200 final_target
     | inl _ => 0 < total_words
     end
  /\ _proportional_words 1000 500 200 = inr 120
  /\ _proportional_words 0 chunk_words 200 = inr 200.
Proof.
  split; [|split; [|split; reflexivity]].
  - unfold _proportional_words, budget_spec.
    destruct (total_words <=? 0).
    + f_equal. apply clamp_max_min. lia.
    + destruct (int_truediv chunk_words total_words) as [e|ratio]; [reflexivity|].
      destruct (float_of_int final_target) as [e|ft]; [reflexivity|].
      destruct (int_of_float _) as [e|alloc]; [reflexivity|].
      f_equal. apply clamp_max_min. lia.
  - unfold _proportional_words.
    destruct (Z.leb_spec total_words 0) as [Hle|Hgt]; [lia|].
    destruct (int_truediv chunk_words total_words) as [e|ratio]; [exact Hgt|].
    destruct (float_of_int final_target) as [e|ft]; [exact Hgt|].
    destruct (int_of_float _) as [e|alloc]; [exact Hgt | lia].
Qed.

(* ===================================================================== *)
(** * The sentence segmenter on punctuation-sparse text                  *)
(* ===================================================================== *)

Lemma all_but_last_cons (A : Type) (P : A -> Prop) (a : A) (l : list A) :
  (l <> [] -> P a) -> all_but_last P l -> all_but_last P (a :: l).
Proof.
  intros Ha Hl pre x y post E. destruct pre as [|p pre]; simpl in E.
  - injection E as -> E. apply Ha. rewrite E. discriminate.
  - injection E as _ E. exact (Hl pre x y post E).
Qed.

Lemma Forall_skipn (A : Type) (P : A -> Prop) (n : nat) (l : list A) :
  Forall P l -> Forall P (skipn n l).
Proof.
  intros H. rewrite <- (firstn_skipn n l) in H. now apply Forall_app in H.
Qed.

Lemma Forall_firstn (A : Type) (P : A -> Prop) (n : nat) (l : list A) :
  Forall P l -> Forall P (firstn n l).
Proof.
  intros H. rewrite <- (firstn_skipn n l) in H. now apply Forall_app in H.
Qed.

Lemma range_from_nonempty (fuel start stop step : nat) :
  range_from fuel start stop step <> [] -> (start < stop)%nat.
Proof.
  destruct fuel as [|f]; simpl; [congruence|].
  destruct (Nat.ltb_spec start stop); [trivial | congruence].
Qed.

Lemma pseudo_groups (ws : list str) (n : nat) :
  (0 < n)%nat -> Forall word_ok ws ->
  forall (fuel k : nat), (length ws - k <= fuel)%nat ->
  let out := map (fun i => join [SP] (slice i (i + n) ws))
                 (range_from fuel k (length ws) n) in
  concat (map split_ws out) = skipn k ws
  /\ all_but_last (fun s => word_count s = Z.of_nat n) out
  /\ Forall (fun s => 1 <= word_count s <= Z.of_nat n /\ s = join [SP] (split_ws s)) out.
Proof.
  intros Hn Hok fuel. induction fuel as [|f IH]; intros k Hk; simpl.
  - split; [|split].
    + symmetry. apply skipn_all2. lia.
    + intros [|? ?] ? ? ? E; discriminate.
    + constructor.
  - destruct (Nat.ltb_spec k (length ws)) as [Hlt|Hge].
    + destruct (IH (k + n)%nat ltac:(lia)) as (Hcat & Hfull & Hall).
      simpl map. simpl concat.
      change (slice k (k + n) ws) with (firstn (k + n - k) (skipn k ws)).
      replace (k + n - k)%nat with n by lia.
      set (g := firstn n (skipn k ws)).
      assert (Hg : split_ws (join [SP] g) = g).
      { apply split_ws_join_words, Forall_firstn, Forall_skipn, Hok. }
      assert (Hlen : length g = Nat.min n (length ws - k)).
      { unfold g. now rewrite length_firstn, length_skipn. }
      split; [|split].
      * rewrite Hg, Hcat. unfold g.
        rewrite <- (firstn_skipn n (skipn k ws)) at 2.
        rewrite skipn_skipn. do 2 f_equal. lia.
      * apply all_but_last_cons; [|exact Hfull].
        intros Hne. unfold word_count. rewrite Hg. unfold len. rewrite Hlen.
        assert (k + n < length ws)%nat; [|lia].
        apply (range_from_nonempty f (k + n) (length ws) n).
        intros E. apply Hne. rewrite E. reflexivity.
      * constructor; [|exact Hall]. unfold word_count. rewrite Hg. unfold len.
        rewrite Hlen. split; [lia | reflexivity].
    + split; [|split].
      * symmetry. apply skipn_all2. lia.
      * intros [|? ?] ? ? ? E; discriminate.
      * constructor.
Qed.

(** C7. When the normalised text has fewer terminal marks than
    [max(1, len // 1000)], the segmenter returns the whitespace-separated
    words of the text in groups of 30: the words of the pseudo-sentences,
    in order, are the words of the text; every pseudo-sentence but the last
    has exactly 30 words; each has between 1 and 30 words, joined by single
    spaces. On the empty text it returns the empty list. *)
Theorem pseudo_sentence_mode (text : str) :
  count_terminal (_normalize_whitespace (Some text))
  < Z.max 1 (len (_normalize_whitespace (Some text)) / 1000) ->
  let out := _split_into_sentences text in
  out = pseudo_sentences (_normalize_whitespace (Some text))
  /\ concat (map split_ws out) = split_ws (_normalize_whitespace (Some text))
  /\ all_but_last (fun s => word_count s = 30) out
  /\ Forall (fun s => 1 <= word_count s <= 30 /\ s = join [SP] (split_ws s)) out
  /\ _split_into_sentences [] = [].
Proof.
  intros Hlow out.
  assert (E : out = pseudo_sentences (_normalize_whitespace (Some text))).
  { unfold out, _split_into_sentences, low_punctuation.
    destruct (Z.ltb_spec (count_terminal (_normalize_whitespace (Some text)))
                (Z.max 1 (len (_normalize_whitespace (Some text)) / 1000)));
      [reflexivity | lia]. }
  split; [exact E|]. rewrite E. unfold pseudo_sentences, py_range.
  set (ws := split_ws (_normalize_whitespace (Some text))).
  destruct (pseudo_groups ws 30 ltac:(lia) (split_ws_words_ok _) (length ws) 0 ltac:(lia))
    as (Hcat & Hfull & Hall).
  repeat split; assumption.
Qed.

Lemma pseudo_sentence_mode_witness :
  map word_count
      (_split_into_sentences (join [SP] (repeat (lit "w") 61))) = [30; 30; 1]
  /\ all_but_last (fun s => word_count s = 30)
                  (_split_into_sentences (join [SP] (repeat (lit "w") 61))).
Proof.
  split; [vm_compute; reflexivity|].
  destruct (pseudo_sentence_mode (join [SP] (repeat (lit "w") 61))) as (_ & _ & H & _).
  - vm_compute. reflexivity.
  - exact H.
Defined.

(* ===================================================================== *)
(** * The chunk builder                                                  *)
(* ===================================================================== *)

Lemma fold_left_invariant (A B : Type) (f : A -> B -> A) (Inv : list B -> A -> Prop)
    (a0 : A) :
  Inv [] a0 ->
  (forall done a b, Inv done a -> Inv (done ++ [b]) (f a b)) ->
  forall l, Inv l (fold_left f l a0).
Proof.
  intros H0 Hstep l. induction l as [|b l IH] using rev_ind; [exact H0|].
  rewrite fold_left_app. simpl. now apply Hstep.
Qed.

Lemma infix_of_concat (A B : Type) (f : A -> list B) (x : A) (l : list A) :
  In x l -> infix_of (f x) (concat (map f l)).
Proof.
  intros H. apply in_split in H. destruct H as (l1 & l2 & ->).
  exists (concat (map f l1)), (concat (map f l2)).
  rewrite map_app, concat_app. reflexivity.
Qed.

Lemma length_last_n (A : Type) (n : nat) (l : list A) : (length (last_n n l) <= n)%nat.
Proof. unfold last_n. rewrite length_skipn. lia. Qed.

Lemma word_count_join (l : list str) :
  word_count (join [SP] l) = len (concat (map split_ws l)).
Proof. unfold word_count. now rewrite split_ws_join. Qed.

Lemma is_empty_false (A : Type) (l : list A) : is_empty l = false <-> l <> [].
Proof. destruct l; simpl; split; congruence. Qed.

Lemma is_empty_true (A : Type) (l : list A) : is_empty l = true <-> l = [].
Proof. destruct l; simpl; split; congruence. Qed.

Lemma chunk_inv_init (t : Z) :
  chunk_inv t [] {| chunks := []; current := []; current_words := 0 |}.
Proof.
  constructor; simpl.
  - reflexivity.
  - congruence.
  - contradiction.
  - contradiction.
  - intros [|? ?] ? E; discriminate.
Qed.

Lemma chunk_inv_step (t o : Z) (done : list str) (st : chunk_state) (sent : str) :
  0 <= o < t ->
  chunk_inv t done st -> chunk_inv t (done ++ [sent]) (chunk_step t o st sent).
Proof.
  intros Hto [Hcount Hcur Hchunks Hwhole Hlast].
  assert (Hw : 0 <= sentence_len sent) by apply len_nonneg.
  assert (Hsent : In sent (done ++ [sent])) by (apply in_or_app; right; now left).
  assert (Hmono : forall s, In s done -> In s (done ++ [sent]))
    by (intros; apply in_or_app; now left).
  unfold chunk_step.
  destruct ((current_words st + sentence_len sent >? t) && negb (is_empty (current st)))
    eqn:Hover.
  - (* the running chunk is closed *)
    apply andb_prop in Hover. destruct Hover as [Hgt Hne].
    apply negb_true_iff, is_empty_false in Hne.
    assert (Hclosed : forall c, In c (chunks st ++ [join [SP] (current st)]) ->
                      exists s, In s (done ++ [sent]) /\ word_count c <= t + word_count s).
    { intros c Hc. apply in_app_or in Hc. destruct Hc as [Hc|[<-|[]]].
      - destruct (Hchunks c Hc) as (s & Hs & Hle). exists s. auto.
      - destruct (Hcur Hne) as (s & Hs & Hle). exists s. split; [auto|].
        rewrite word_count_join, <- Hcount. exact Hle. }
    assert (Hkept : forall s, In s done ->
                    exists c, In c (chunks st ++ [join [SP] (current st)])
                              /\ infix_of (split_ws s) (split_ws c)).
    { intros s Hs. destruct (Hwhole s Hs) as [(c & Hc & Hin)|Hin].
      - exists c. split; [apply in_or_app; now left | exact Hin].
      - exists (join [SP] (current st)). split; [apply in_or_app; right; now left|].
        rewrite split_ws_join. now apply infix_of_concat. }
    destruct (o >? 0) eqn:Ho.
    + set (tail := join [SP] (last_n (Z.to_nat o) (split_ws (join [SP] (current st))))).
      assert (Htail : split_ws tail = last_n (Z.to_nat o) (split_ws (join [SP] (current st)))).
      { apply split_ws_join_words. unfold last_n. apply Forall_skipn, split_ws_words_ok. }
      constructor; simpl.
      * rewrite app_nil_r, len_app. reflexivity.
      * intros _. exists sent. split; [exact Hsent|].
        rewrite Htail. unfold len, word_count, sentence_len in *.
        pose proof (length_last_n _ (Z.to_nat o) (split_ws (join [SP] (current st)))).
        lia.
      * exact Hclosed.
      * intros s Hs. apply in_app_or in Hs. destruct Hs as [Hs|[<-|[]]].
        -- left. now apply Hkept.
        -- right. right. now left.
      * intros ss s E. apply app_inj_tail in E. destruct E as [_ <-].
        exists [tail]. reflexivity.
    + constructor; simpl.
      * rewrite app_nil_r. reflexivity.
      * intros _. exists sent. split; [exact Hsent|].
        unfold word_count, sentence_len in *. lia.
      * exact Hclosed.
      * intros s Hs. apply in_app_or in Hs. destruct Hs as [Hs|[<-|[]]].
        -- left. now apply Hkept.
        -- right. now left.
      * intros ss s E. apply app_inj_tail in E. destruct E as [_ <-].
        exists []. reflexivity.
  - (* the sentence joins the running chunk *)
    constructor; simpl.
    + rewrite map_app, concat_app, len_app, Hcount. simpl. rewrite app_nil_r. reflexivity.
    + intros _. apply andb_false_iff in Hover. destruct Hover as [Hle|He].
      * exists sent. split; [exact Hsent|].
        unfold word_count, sentence_len in *. lia.
      * apply negb_false_iff, is_empty_true in He.
        exists sent. split; [exact Hsent|].
        rewrite Hcount, He. simpl. unfold word_count, sentence_len, len in *. simpl. lia.
    + intros c Hc. destruct (Hchunks c Hc) as (s & Hs & Hle). exists s. auto.
    + intros s Hs. apply in_app_or in Hs. destruct Hs as [Hs|[<-|[]]].
      * destruct (Hwhole s Hs) as [H|H]; [now left|].
        right. apply in_or_app. now left.
      * right. apply in_or_app. right. now left.
    + intros ss s E. apply app_inj_tail in E. destruct E as [_ <-].
      exists (current st). reflexivity.
Qed.

Lemma chunk_loop_inv (t o : Z) (sentences : list str) :
  0 <= o < t -> chunk_inv t sentences (chunk_loop t o sentences).
Proof.
  intros Hto. unfold chunk_loop. apply fold_left_invariant.
  - apply chunk_inv_init.
  - intros done a b. now apply chunk_inv_step.
Qed.

Lemma in_chunk_output (c : str) (raw : list str) :
  In c (map (fun c => _normalize_whitespace (Some c))
            (filter (fun c => negb (is_empty (_normalize_whitespace (Some c)))) raw))
  <-> exists c', In c' raw /\ split_ws c' <> [] /\ c = _normalize_whitespace (Some c').
Proof.
  rewrite in_map_iff. split.
  - intros (c' & <- & H). apply filter_In in H. destruct H as [Hin Hne].
    exists c'. repeat split; [exact Hin|].
    rewrite is_empty_normalize in Hne. now apply negb_true_iff, is_empty_false in Hne.
  - intros (c' & Hin & Hne & ->). exists c'. split; [reflexivity|].
    apply filter_In. split; [exact Hin|].
    rewrite is_empty_normalize. now apply negb_true_iff, is_empty_false.
Qed.

Lemma in_raw_chunks (t o : Z) (sentences : list str) (c : str) :
  In c (raw_chunks t o sentences) <->
  In c (chunks (chunk_loop t o sentences))
  \/ (current (chunk_loop t o sentences) <> []
      /\ c = join [SP] (current (chunk_loop t o sentences))).
Proof.
  unfold raw_chunks. destruct (current (chunk_loop t o sentences)) as [|x l] eqn:E; simpl.
  - split; [now left | intros [H|[H _]]; [exact H | congruence]].
  - rewrite in_app_iff. simpl. split.
    + intros [H|[<-|[]]]; [now left | right; split; [discriminate | reflexivity]].
    + intros [H|[_ ->]]; [now left | right; now left].
Qed.

Lemma infix_of_nonempty (A : Type) (a b : list A) : infix_of a b -> a <> [] -> b <> [].
Proof.
  intros (pre & post & ->) Ha E. apply app_eq_nil in E. destruct E as [_ E].
  apply app_eq_nil in E. destruct E as [E _]. contradiction.
Qed.

(** C4. With [0 <= overlap_words < target_chunk_words]: every chunk has at
    most [target_chunk_words] words more than the word count of one input
    sentence; every input sentence that has a word lies whole, as a
    contiguous run of words, inside one chunk; the chunk that holds the last
    sentence is the last chunk returned, whatever its size; and every chunk
    returned has a word and is whitespace-normalised. *)
Theorem chunk_builder_properties (sentences : list str)
    (target_chunk_words overlap_words : Z) :
  0 <= overlap_words < target_chunk_words ->
  let out := _chunk_by_words sentences target_chunk_words overlap_words in
  (forall c, In c out ->
     exists s, In s sentences /\ word_count c <= target_chunk_words + word_count s)
  /\ (forall s, In s sentences -> split_ws s <> [] ->
        exists c, In c out /\ infix_of (split_ws s) (split_ws c))
  /\ (forall ss s, sentences = ss ++ [s] -> split_ws s <> [] ->
        exists cs c, out = cs ++ [c] /\ suffix_of (split_ws s) (split_ws c))
  /\ (forall c, In c out -> split_ws c <> [] /\ _normalize_whitespace (Some c) = c).
Proof.
  intros Hto out.
  pose proof (chunk_loop_inv target_chunk_words overlap_words sentences Hto)
    as [Hcount Hcur Hchunks Hwhole Hlast].
  set (st := chunk_loop target_chunk_words overlap_words sentences) in *.
  split; [|split; [|split]].
  - intros c Hc. apply in_chunk_output in Hc. destruct Hc as (c' & Hraw & _ & ->).
    unfold word_count at 1. rewrite split_ws_normalize.
    apply in_raw_chunks in Hraw. fold st in Hraw. destruct Hraw as [Hin|[Hne ->]].
    + exact (Hchunks c' Hin).
    + destruct (Hcur Hne) as (s & Hs & Hle). exists s. split; [exact Hs|].
      fold (word_count (join [SP] (current st))). rewrite word_count_join, <- Hcount.
      exact Hle.
  - intros s Hs Hwords.
    assert (Hraw : exists c', In c' (raw_chunks target_chunk_words overlap_words sentences)
                              /\ infix_of (split_ws s) (split_ws c')).
    { destruct (Hwhole s Hs) as [(c' & Hin & Hinf)|Hin].
      - exists c'. split; [|exact Hinf]. apply in_raw_chunks. now left.
      - exists (join [SP] (current st)). split.
        + apply in_raw_chunks. right. fold st. split; [|reflexivity].
          intros E. rewrite E in Hin. contradiction.
        + rewrite split_ws_join. now apply infix_of_concat. }
    destruct Hraw as (c' & Hin & Hinf).
    exists (_normalize_whitespace (Some c')). split.
    + apply in_chunk_output. exists c'. repeat split; [exact Hin|].
      exact (infix_of_nonempty _ _ _ Hinf Hwords).
    + now rewrite split_ws_normalize.
  - intros ss s E Hwords. destruct (Hlast ss s E) as (pre & Hpre).
    assert (Hsplit : split_ws (join [SP] (current st))
                     = concat (map split_ws pre) ++ split_ws s).
    { rewrite split_ws_join, Hpre, map_app, concat_app. simpl. now rewrite app_nil_r. }
    exists (map (fun c => _normalize_whitespace (Some c))
                (filter (fun c => negb (is_empty (_normalize_whitespace (Some c))))
                        (chunks st))),
           (_normalize_whitespace (Some (join [SP] (current st)))).
    split.
    + assert (Hraw : raw_chunks target_chunk_words overlap_words sentences
                     = chunks st ++ [join [SP] (current st)]).
      { unfold raw_chunks. fold st. rewrite Hpre. destruct pre; reflexivity. }
      assert (Hkeep : negb (is_empty (_normalize_whitespace
                                        (Some (join [SP] (current st))))) = true).
      { rewrite is_empty_normalize, Hsplit. apply negb_true_iff, is_empty_false.
        intros E0. apply app_eq_nil in E0. destruct E0 as [_ E0]. contradiction. }
      unfold out, _chunk_by_words. rewrite Hraw, filter_app, map_app.
      simpl filter. rewrite Hkeep. reflexivity.
    + rewrite split_ws_normalize, Hsplit. now exists (concat (map split_ws pre)).
  - intros c Hc. apply in_chunk_output in Hc. destruct Hc as (c' & _ & Hne & ->).
    split; [now rewrite split_ws_normalize | apply normalize_idempotent].
Qed.

Lemma chunk_builder_properties_witness :
  0 <= 1 < 4
  /\ exists s, In s (map lit ["a b c d e"; "f g"; "h i j k"]%string)
               /\ word_count (lit "e f g") <= 4 + word_count s.
Proof.
  split; [lia|].
  destruct (chunk_builder_properties (map lit ["a b c d e"; "f g"; "h i j k"]%string) 4 1)
    as (H & _); [lia|].
  apply (H (lit "e f g")). vm_compute. right. left. reflexivity.
Defined.

(* ===================================================================== *)
(** * The sentence segmenter on punctuated text                          *)
(* ===================================================================== *)

Lemma re_split_scan_words (s : str) :
  forall st,
    match st with
    | InSep =>
        split_ws s = split_ws (fst (re_split_scan st s))
                     ++ concat (map split_ws (snd (re_split_scan st s)))
    | _ =>
        fst (wsplit s) = fst (wsplit (fst (re_split_scan st s)))
        /\ snd (wsplit s) = snd (wsplit (fst (re_split_scan st s)))
                            ++ concat (map split_ws (snd (re_split_scan st s)))
    end.
Proof.
  induction s as [|c r IH]; intros st.
  - destruct st; simpl; auto.
  - simpl re_split_scan. destruct (is_space c) eqn:Hc.
    + destruct st.
      * specialize (IH InSep). rewrite (split_ws_cons_space c r Hc). exact IH.
      * specialize (IH InSep). simpl in IH.
        destruct (re_split_scan InSep r) as [p ps]. cbn [fst snd] in *.
        rewrite wsplit_cons, Hc. simpl. split; [reflexivity | exact IH].
      * specialize (IH Elsewhere). simpl in IH.
        destruct (re_split_scan Elsewhere r) as [p ps]. cbn [fst snd] in *.
        destruct IH as [IH1 IH2]. rewrite !wsplit_cons, Hc. cbn [fst snd].
        split; [reflexivity|].
        rewrite (split_ws_unfold r), (split_ws_unfold p), IH1, IH2.
        apply cons_word_app.
    + set (st' := if is_terminal c then AfterTerminal else Elsewhere).
      assert (IH' : fst (wsplit r) = fst (wsplit (fst (re_split_scan st' r)))
                    /\ snd (wsplit r) = snd (wsplit (fst (re_split_scan st' r)))
                                        ++ concat (map split_ws (snd (re_split_scan st' r)))).
      { specialize (IH st'). unfold st' in *. destruct (is_terminal c); exact IH. }
      destruct (re_split_scan st' r) as [p ps]. cbn [fst snd] in *.
      destruct IH' as [IH1 IH2].
      destruct st.
      * rewrite (split_ws_cons_word c r Hc), (split_ws_cons_word c p Hc), IH1, IH2.
        reflexivity.
      * rewrite !wsplit_cons, Hc. simpl. now rewrite IH1, IH2.
      * rewrite !wsplit_cons, Hc. simpl. now rewrite IH1, IH2.
Qed.

Lemma re_split_sentences_words (s : str) :
  concat (map split_ws (re_split_sentences s)) = split_ws s.
Proof.
  unfold re_split_sentences. pose proof (re_split_scan_words s Elsewhere) as H.
  simpl in H. destruct (re_split_scan Elsewhere s) as [p ps].
  cbn [fst snd] in *. destruct H as [H1 H2].
  simpl. rewrite (split_ws_unfold s), (split_ws_unfold p), H1, H2.
  symmetry. apply cons_word_app.
Qed.

Lemma no_adjacent_nil (A : Type) (P : A -> Prop) : no_adjacent P [].
Proof. intros [|? ?] ? ? ? E; discriminate. Qed.

Lemma snoc_eq_cons2 (A : Type) (l pre post : list A) (y a b : A) :
  l ++ [y] = pre ++ a :: b :: post ->
  (post = [] /\ b = y /\ l = pre ++ [a])
  \/ exists post', post = post' ++ [y] /\ l = pre ++ a :: b :: post'.
Proof.
  intros E. destruct post as [|z post] using rev_ind.
  - left. change (pre ++ [a; b]) with (pre ++ [a] ++ [b]) in E.
    rewrite app_assoc in E. apply app_inj_tail in E. destruct E as [-> ->]. auto.
  - right. exists post. clear IHpost.
    change (pre ++ a :: b :: post ++ [z]) with (pre ++ (a :: b :: post) ++ [z]) in E.
    rewrite app_assoc in E. apply app_inj_tail in E. destruct E as [-> ->]. auto.
Qed.

(** Appending after a list whose last element does not satisfy [P]. *)
Lemma no_adjacent_snoc_any (A : Type) (P : A -> Prop) (l : list A) (y : A) :
  no_adjacent P l -> (forall pre x, l = pre ++ [x] -> ~ P x) ->
  no_adjacent P (l ++ [y]).
Proof.
  intros Hl Hlast pre a b post E Ha.
  apply snoc_eq_cons2 in E. destruct E as [(_ & _ & E)|(post' & _ & E)].
  - exfalso. exact (Hlast pre a E Ha).
  - exact (Hl pre a b post' E Ha).
Qed.

(** Appending an element that does not satisfy [P]. *)
Lemma no_adjacent_snoc_long (A : Type) (P : A -> Prop) (l : list A) (y : A) :
  no_adjacent P l -> ~ P y -> no_adjacent P (l ++ [y]).
Proof.
  intros Hl Hy pre a b post E Ha.
  apply snoc_eq_cons2 in E. destruct E as [(_ & -> & _)|(post' & _ & E)].
  - exact Hy.
  - exact (Hl pre a b post' E Ha).
Qed.

Lemma merge_inv_init : merge_inv [] ([], []).
Proof.
  constructor; simpl.
  - reflexivity.
  - reflexivity.
  - reflexivity.
  - constructor.
  - apply no_adjacent_nil.
  - intros [|? ?] ? E; discriminate.
Qed.

Lemma Forall_snoc (A : Type) (P : A -> Prop) (l : list A) (x : A) :
  Forall P l -> P x -> Forall P (l ++ [x]).
Proof. intros Hl Hx. apply Forall_app. split; [exact Hl | now constructor]. Qed.

Lemma word_count_nonempty (s : str) : 4 <= word_count s -> split_ws s <> [].
Proof.
  unfold word_count. destruct (split_ws s); [|discriminate].
  intros H. exfalso. unfold len in H. simpl in H. lia.
Qed.

Lemma merge_inv_step (done : list str) (st : list str * str) (p : str) :
  merge_inv done st -> merge_inv (done ++ [p]) (merge_step st p).
Proof.
  destruct st as [merged buf]. intros [Hwords Hshort Hstrip Hne Hadj Hlast].
  cbn [fst snd] in *. unfold merge_step.
  assert (Hdone : concat (map split_ws (done ++ [p]))
                  = concat (map split_ws done) ++ split_ws p).
  { rewrite map_app, concat_app. simpl. now rewrite app_nil_r. }
  destruct (Z.ltb_spec (word_count p) 4) as [Hp|Hp].
  - (* a short fragment goes to the buffer *)
    set (buf' := strip (buf ++ [SP] ++ p)).
    assert (Hbuf' : split_ws buf' = split_ws buf ++ split_ws p).
    { unfold buf'. rewrite split_ws_strip. apply split_ws_app_space. reflexivity. }
    destruct (Z.geb_spec (word_count buf') 4) as [Hb|Hb].
    + constructor; cbn [fst snd].
      * rewrite Hdone, map_app, concat_app, <- Hwords. simpl.
        rewrite !app_nil_r, Hbuf'. now rewrite app_assoc.
      * reflexivity.
      * reflexivity.
      * apply Forall_snoc; [exact Hne | now apply word_count_nonempty].
      * apply no_adjacent_snoc_long; [exact Hadj | unfold short_sentence; lia].
      * intros pre x E. apply app_inj_tail in E. destruct E as [_ <-].
        unfold short_sentence. lia.
    + constructor; cbn [fst snd].
      * rewrite Hdone, <- Hwords, Hbuf'. now rewrite app_assoc.
      * lia.
      * unfold buf'. now rewrite is_empty_strip, split_ws_strip.
      * exact Hne.
      * exact Hadj.
      * exact Hlast.
  - (* a full fragment flushes the buffer and stands alone *)
    assert (Hlong : ~ short_sentence (strip p)).
    { unfold short_sentence, word_count. rewrite split_ws_strip.
      fold (word_count p). lia. }
    destruct buf as [|b buf].
    + simpl is_empty. cbv iota. simpl in Hwords. rewrite app_nil_r in Hwords.
      constructor; cbn [fst snd].
      * rewrite Hdone, map_app, concat_app, <- Hwords. simpl.
        now rewrite !app_nil_r, split_ws_strip.
      * reflexivity.
      * reflexivity.
      * apply Forall_snoc; [exact Hne|]. rewrite split_ws_strip.
        now apply word_count_nonempty.
      * now apply no_adjacent_snoc_long.
      * intros pre x E. apply app_inj_tail in E. destruct E as [_ <-]. exact Hlong.
    + simpl is_empty. cbv iota.
      assert (Hb : split_ws (b :: buf) <> []).
      { apply is_empty_false. rewrite <- Hstrip. reflexivity. }
      constructor; cbn [fst snd].
      * rewrite Hdone, !map_app, !concat_app, <- Hwords. simpl.
        now rewrite !app_nil_r, split_ws_strip.
      * reflexivity.
      * reflexivity.
      * apply Forall_snoc; [apply Forall_snoc; assumption|].
        rewrite split_ws_strip. now apply word_count_nonempty.
      * apply no_adjacent_snoc_long; [|exact Hlong].
        now apply no_adjacent_snoc_any.
      * intros pre x E. apply app_inj_tail in E. destruct E as [_ <-]. exact Hlong.
Qed.

Lemma filter_all (A : Type) (f : A -> bool) (l : list A) :
  Forall (fun x => f x = true) l -> filter f l = l.
Proof.
  induction 1 as [|x l Hx _ IH]; [reflexivity|]. simpl. now rewrite Hx, IH.
Qed.

Lemma merge_fragments_spec (parts : list str) :
  no_adjacent short_sentence (merge_fragments parts)
  /\ Forall (fun s => split_ws s <> []) (merge_fragments parts)
  /\ concat (map split_ws (merge_fragments parts)) = concat (map split_ws parts).
Proof.
  unfold merge_fragments.
  pose proof (fold_left_invariant _ _ merge_step merge_inv ([], []) merge_inv_init
                                  merge_inv_step parts) as Hinv.
  destruct (fold_left merge_step parts ([], [])) as [merged buf].
  destruct Hinv as [Hwords Hshort Hstrip Hne Hadj Hlast].
  cbn [fst snd] in *.
  set (merged' := if is_empty buf then merged else merged ++ [buf]).
  assert (H : no_adjacent short_sentence merged'
              /\ Forall (fun s => split_ws s <> []) merged'
              /\ concat (map split_ws merged') = concat (map split_ws parts)).
  { unfold merged'. destruct buf as [|b buf]; simpl is_empty; cbv iota.
    - simpl in Hwords. rewrite app_nil_r in Hwords. auto.
    - split; [|split].
      + now apply no_adjacent_snoc_any.
      + apply Forall_snoc; [exact Hne|]. apply is_empty_false.
        rewrite <- Hstrip. reflexivity.
      + rewrite map_app, concat_app. simpl. now rewrite app_nil_r. }
  rewrite filter_all; [exact H|].
  destruct H as (_ & H & _). eapply Forall_impl; [|exact H].
  intros s Hs. simpl. apply negb_true_iff, is_empty_false.
  intros ->. now apply Hs.
Qed.

(** C5, as the code has it. In the regular split, no two consecutive
    sentences both have fewer than 4 words: a sentence shorter than 4 words
    is the last one or is followed by one of at least 4 words. Every
    sentence is non-empty, and the words of the sentences, in order, are the
    words of the input. *)
Theorem regular_split_mode (text : str) :
  Z.max 1 (len (_normalize_whitespace (Some text)) / 1000)
  <= count_terminal (_normalize_whitespace (Some text)) ->
  let out := _split_into_sentences text in
  no_adjacent (fun s => word_count s < 4) out
  /\ Forall (fun s => s <> [] /\ split_ws s <> []) out
  /\ concat (map split_ws out) = split_ws text.
Proof.
  intros Hreg out.
  assert (E : out = merge_fragments
                      (re_split_sentences (_normalize_whitespace (Some text)))).
  { unfold out, _split_into_sentences, low_punctuation.
    destruct (Z.ltb_spec (count_terminal (_normalize_whitespace (Some text)))
                (Z.max 1 (len (_normalize_whitespace (Some text)) / 1000)));
      [lia | reflexivity]. }
  destruct (merge_fragments_spec (re_split_sentences (_normalize_whitespace (Some text))))
    as (Hadj & Hne & Hwords).
  rewrite E. split; [exact Hadj | split].
  - eapply Forall_impl; [|exact Hne]. intros s Hs. split; [|exact Hs].
    intros ->. now apply Hs.
  - now rewrite Hwords, re_split_sentences_words, split_ws_normalize.
Qed.

Lemma regular_split_mode_witness :
  Z.max 1 (len (lit "Hi. Yo! Go on now. Then what a nice day. Bye.") / 1000)
  <= count_terminal (lit "Hi. Yo! Go on now. Then what a nice day. Bye.")
  /\ no_adjacent (fun s => word_count s < 4)
                 (_split_into_sentences (lit "Hi. Yo! Go on now. Then what a nice day. Bye.")).
Proof.
  split; [vm_compute; discriminate|].
  destruct (regular_split_mode (lit "Hi. Yo! Go on now. Then what a nice day. Bye."))
    as (H & _).
  - vm_compute. discriminate.
  - exact H.
Defined.

(** C5 as stated fails: on a normalised, punctuated text the first sentence
    returned has one word and is not the last. *)
Lemma regular_split_short_not_last :
  let text := lit "Hi. This is a long sentence here." in
  _normalize_whitespace (Some text) = text
  /\ low_punctuation text = false
  /\ _split_into_sentences text = [lit "Hi."; lit "This is a long sentence here."]
  /\ ~ all_but_last (fun s => 4 <= word_count s) (_split_into_sentences text).
Proof.
  split; [reflexivity|]. split; [reflexivity|]. split; [reflexivity|].
  intros H.
  specialize (H [] (lit "Hi.") (lit "This is a long sentence here.") [] eq_refl).
  vm_compute in H. now apply H.
Qed.

(* ===================================================================== *)
(** * The orchestrator on long input: map and reduce                     *)
(* ===================================================================== *)

Lemma chunk_budgets_length (n tw : Z) (cs : list str) :
  forall budgets, chunk_budgets n tw cs = Some budgets -> length budgets = length cs.
Proof.
  induction cs as [|c cs IH]; simpl; intros budgets H.
  - injection H as <-. reflexivity.
  - destruct (_proportional_words n (word_count c) tw) as [e|b]; [discriminate|].
    destruct (chunk_budgets n tw cs) as [bs|]; [|discriminate].
    injection H as <-. simpl. now rewrite (IH bs eq_refl).
Qed.

Lemma map_calls_fields (n tw : Z) (model : str) (cs : list str) :
  forall budgets, chunk_budgets n tw cs = Some budgets ->
  Forall2 (fun c q => gc_text q = c /\ gc_model q = model
                      /\ gc_takeaways_count q = Some 0
                      /\ _proportional_words n (word_count c) tw = inr (gc_summary_words q))
          cs (map_calls model cs budgets).
Proof.
  induction cs as [|c cs IH]; simpl; intros budgets H.
  - injection H as <-. constructor.
  - destruct (_proportional_words n (word_count c) tw) as [e|b] eqn:Eb; [discriminate|].
    destruct (chunk_budgets n tw cs) as [bs|]; [|discriminate].
    injection H as <-. constructor; [simpl; auto | now apply IH].
Qed.

Lemma run_map_step (generator : nat -> gen_call -> exn + dict) (n tw : Z) (model : str)
    (cont : list json -> prog gen_call dict dict) (cs : list str) :
  forall budgets minis i acc,
    chunk_budgets n tw cs = Some budgets ->
    map_summaries generator i (map_calls model cs budgets) = Some minis ->
    run generator i (map_step n tw model cs acc cont)
    = (map_calls model cs budgets
         ++ fst (run generator (i + length cs) (cont (acc ++ map JString minis))),
       snd (run generator (i + length cs) (cont (acc ++ map JString minis)))).
Proof.
  induction cs as [|c cs IH]; intros budgets minis i acc Hb Hm.
  - simpl in Hb. injection Hb as <-. simpl in Hm. injection Hm as <-.
    simpl. rewrite Nat.add_0_r, app_nil_r. now destruct (run generator i (cont acc)).
  - simpl in Hb. change (len (split_ws c)) with (word_count c) in *.
    simpl map_step. change (len (split_ws c)) with (word_count c).
    destruct (_proportional_words n (word_count c) tw) as [e|b]; [discriminate|].
    destruct (chunk_budgets n tw cs) as [bs|] eqn:Ebs; [|discriminate].
    injection Hb as <-. simpl in Hm. simpl run.
    fold (map_call model c b).
    destruct (generator i (map_call model c b)) as [e|d]; [discriminate|].
    destruct (dict_get d K_SUMMARY (JString [])) eqn:Ed; try discriminate.
    destruct (map_summaries generator (S i) (map_calls model cs bs)) as [ss|] eqn:Ess;
      [|discriminate].
    injection Hm as <-.
    rewrite (IH bs ss (S i) (acc ++ [JString s]) eq_refl Ess).
    simpl map. rewrite <- app_assoc. simpl app.
    cbn [Nat.add length]. rewrite ?Nat.add_succ_r. reflexivity.
Qed.

Lemma keep_nonblank_strings (minis : list str) :
  keep_nonblank (map JString minis)
  = inr (filter (fun s => negb (is_empty (strip s))) minis).
Proof.
  induction minis as [|s minis IH]; [reflexivity|].
  simpl. rewrite IH. destruct (is_empty (strip s)); reflexivity.
Qed.

(** C6, as the code has it. On an input of at least 60 words, when the
    allocator returns a budget for every chunk and the generator answers
    every map request with a summary string, [summarize_document] sends one
    request per chunk, in chunk order, each with the chunk as text, 0
    takeaways and the chunk's budget; then exactly one more request, whose
    text joins by a blank line, in chunk order, the summaries that are not
    blank (a summary of whitespace only is dropped like an empty one), with
    the caller's [target_words] and [takeaways_count]; and its outcome is
    the outcome of that last request, unchanged. *)
Theorem map_reduce_calls (raw_text : option str) (model : str) (target_words : Z)
    (takeaways_count : option Z) (generator : nat -> gen_call -> exn + dict)
    (budgets : list Z) (minis : list str) :
  60 <= word_count (_normalize_whitespace raw_text) ->
  chunk_budgets (word_count (_normalize_whitespace raw_text)) target_words
    (_chunk_by_words (_split_into_sentences (_normalize_whitespace raw_text)) 2400 200)
  = Some budgets ->
  map_summaries generator 0
    (map_calls model
       (_chunk_by_words (_split_into_sentences (_normalize_whitespace raw_text)) 2400 200)
       budgets)
  = Some minis ->
  let n := word_count (_normalize_whitespace raw_text) in
  let cs := _chunk_by_words (_split_into_sentences (_normalize_whitespace raw_text))
                            2400 200 in
  let final := reduce_call model target_words takeaways_count (combined_nonblank minis) in
  run generator 0 (summarize_document raw_text model target_words takeaways_count)
  = (map_calls model cs budgets ++ [final], generator (length cs) final)
  /\ Forall2 (fun c q => gc_text q = c /\ gc_model q = model
                         /\ gc_takeaways_count q = Some 0
                         /\ _proportional_words n (word_count c) target_words
                            = inr (gc_summary_words q))
             cs (map_calls model cs budgets).
Proof.
  intros Hlong Hb Hm n cs final. split; [|now apply map_calls_fields].
  unfold summarize_document.
  change (len (split_ws (_normalize_whitespace raw_text))) with n.
  destruct (Z.ltb_spec n 60) as [Hlt|_]; [unfold n in Hlt; lia|].
  fold cs. rewrite (run_map_step generator n target_words model _ cs budgets minis 0 []
                      Hb Hm).
  simpl app. simpl Nat.add. unfold reduce_step. rewrite keep_nonblank_strings.
  fold (combined_nonblank minis).
  fold (reduce_call model target_words takeaways_count (combined_nonblank minis)).
  fold final. simpl run. destruct (generator (length cs) final); reflexivity.
Qed.

Lemma map_reduce_calls_witness :
  run gen_blank 0 (summarize_document (Some doc60) (lit "m") 200 (Some 3))
  = ([map_call (lit "m") doc60 200; reduce_call (lit "m") 200 (Some 3) []],
     gen_blank 1%nat (reduce_call (lit "m") 200 (Some 3) [])).
Proof.
  destruct (map_reduce_calls (Some doc60) (lit "m") 200 (Some 3) gen_blank [200] [[SP]])
    as [H _].
  - vm_compute. discriminate.
  - vm_compute. reflexivity.
  - vm_compute. reflexivity.
  - rewrite H. vm_compute. reflexivity.
Defined.

(** C6 as stated fails: the only mini-summary, a single space, is not
    empty, yet the text of the reduce request is empty instead of that
    summary. *)
Lemma reduce_input_drops_blank_summary :
  fst (run gen_blank 0 (summarize_document (Some doc60) (lit "m") 200 (Some 3)))
  = [map_call (lit "m") doc60 200; reduce_call (lit "m") 200 (Some 3) []]
  /\ map_summaries gen_blank 0 [map_call (lit "m") doc60 200] = Some [[SP]]
  /\ combined_nonempty [[SP]] = [SP]
  /\ fst (run gen_blank 0 (summarize_document (Some doc60) (lit "m") 200 (Some 3)))
     <> [map_call (lit "m") doc60 200;
         reduce_call (lit "m") 200 (Some 3) (combined_nonempty [[SP]])].
Proof.
  split; [vm_compute; reflexivity|]. split; [reflexivity|]. split; [reflexivity|].
  vm_compute. discriminate.
Qed.

(* ===================================================================== *)
(** * JSON extraction: the fallback chain                                *)
(* ===================================================================== *)

(** C9. On the single-quoted example [_extract_json] returns the dictionary
    with summary [x] and no takeaways, through the fallback chain: the
    direct parse fails, the brace-delimited block is the whole text, its
    parse fails, the quote repair gives the double-quoted text, and that
    parses. On any response the function returns only what one of the three
    stages parsed; when all three fail it raises: [JSONDecodeError] from the
    last parse, or [ValueError] when there is no brace-delimited block. *)
Theorem single_quote_repair (text : str) :
  _extract_json (Some single_quoted_response)
  = inr (JObject [(K_SUMMARY, JString (lit "x")); (K_TAKEAWAYS, JArray [])])
  /\ clean_fences single_quoted_response = single_quoted_response
  /\ json_loads single_quoted_response = None
  /\ search_braces single_quoted_response = Some single_quoted_response
  /\ repair_quotes single_quoted_response = repaired_response
  /\ json_loads repaired_response
     = Some (JObject [(K_SUMMARY, JString (lit "x")); (K_TAKEAWAYS, JArray [])])
  /\ match _extract_json (Some text) with
     | inr v =>
         json_loads (clean_fences text) = Some v
         \/ exists candidate,
              search_braces (clean_fences text) = Some candidate
              /\ json_loads (clean_fences text) = None
              /\ (json_loads candidate = Some v
                  \/ json_loads candidate = None
                     /\ json_loads (repair_quotes candidate) = Some v)
     | inl e =>
         json_loads (clean_fences text) = None
         /\ match search_braces (clean_fences text) with
            | Some candidate =>
                json_loads candidate = None
                /\ json_loads (repair_quotes candidate) = None
                /\ e = JSONDecodeError
            | None => e = ValueError (lit "Could not parse JSON from model output.")
            end
     end.
Proof.
  repeat (split; [vm_compute; reflexivity|]).
  unfold _extract_json. fold (clean_fences text).
  destruct (json_loads (clean_fences text)) as [v|] eqn:E1; [now left|].
  destruct (search_braces (clean_fences text)) as [candidate|] eqn:E2; [|auto].
  destruct (json_loads candidate) as [v|] eqn:E3.
  - right. exists candidate. auto.
  - unfold loads_or_raise.
    destruct (json_loads (repair_quotes candidate)) as [v|] eqn:E4.
    + right. exists candidate. auto.
    + auto.
Qed.

(* ===================================================================== *)
(** * The section generator: takeaway count                              *)
(* ===================================================================== *)

(** C1 at a failing input. With 0 takeaways requested and a first response
    whose [key_takeaways] is a string, [generate_sections] sends one request
    only, and the [key_takeaways] it returns is that string: not a list of
    length 0. With 2 takeaways requested the same response is retried once
    and repaired to a list of length 2. *)
Theorem takeaways_string_kept_when_zero :
  run (llm_const response_string_takeaways) 0
      (generate_sections (lit "t") (lit "m") 100 (Some 0))
  = ([{| rq_model := lit "m"; rq_prompt := build_prompt (lit "t") 100 (Some 0) |}],
     inr [(K_SUMMARY, JString (lit "s")); (K_TAKEAWAYS, JString (lit "oops"))])
  /\ run (llm_const response_string_takeaways) 0
         (generate_sections (lit "t") (lit "m") 100 (Some 2))
     = ([{| rq_model := lit "m"; rq_prompt := build_prompt (lit "t") 100 (Some 2) |};
         {| rq_model := lit "m"; rq_prompt := build_prompt (lit "t") 100 (Some 2) |}],
        inr [(K_SUMMARY, JString (lit "s"));
             (K_TAKEAWAYS, JArray [JString []; JString []])]).
Proof. split; vm_compute; reflexivity. Qed.

(* ===================================================================== *)
(** * Fence stripping                                                    *)
(* ===================================================================== *)

Lemma lstrip_app_space (w x : str) :
  forallb is_space w = true -> lstrip (w ++ x) = lstrip x.
Proof.
  induction w as [|c w IH]; [reflexivity|]. simpl. intros H.
  apply andb_prop in H. destruct H as [Hc Hw]. rewrite Hc. now apply IH.
Qed.

Lemma rstrip_all_space (w : str) : forallb is_space w = true -> rstrip w = [].
Proof.
  induction w as [|c w IH]; [reflexivity|]. simpl. intros H.
  apply andb_prop in H. destruct H as [Hc Hw]. now rewrite (IH Hw), Hc.
Qed.

Lemma rstrip_app_nospace (y w : str) (d : char) :
  is_space d = false -> forallb is_space w = true -> rstrip (y ++ d :: w) = y ++ [d].
Proof.
  intros Hd Hw. induction y as [|c y IH].
  - simpl. now rewrite (rstrip_all_space w Hw), Hd.
  - simpl. rewrite IH. destruct y; reflexivity.
Qed.

Lemma last_app_nonempty (A : Type) (w x : list A) (d : A) :
  x <> [] -> last (w ++ x) d = last x d.
Proof.
  intros Hx. induction w as [|c w IH]; [reflexivity|].
  simpl app. simpl last. rewrite IH. destruct (w ++ x) eqn:E; [|reflexivity].
  apply app_eq_nil in E. destruct E as [_ E]. contradiction.
Qed.

Lemma rstrip_cons (c : char) (r : str) :
  rstrip (c :: r)
  = match rstrip r with
    | [] => if is_space c then [] else [c]
    | r' => c :: r'
    end.
Proof. reflexivity. Qed.

Lemma rstrip_last_nospace (x w : str) :
  is_space (last x SP) = false -> forallb is_space w = true -> rstrip (x ++ w) = x.
Proof.
  intros Hx Hw. induction x as [|c x IH]; [discriminate|].
  destruct x as [|c' x].
  - simpl in *. now rewrite (rstrip_all_space w Hw), Hx.
  - change ((c :: c' :: x) ++ w) with (c :: (c' :: x) ++ w).
    rewrite rstrip_cons, (IH Hx). reflexivity.
Qed.

(** Stripping a text whose first and last characters are not whitespace,
    with whitespace around it. *)
Lemma strip_padded (w1 x w2 : str) :
  is_space (hd SP x) = false -> is_space (last x SP) = false ->
  forallb is_space w1 = true -> forallb is_space w2 = true ->
  strip (w1 ++ x ++ w2) = x.
Proof.
  intros Hh Hl H1 H2. unfold strip.
  assert (Hx : x <> []) by (intros ->; discriminate).
  rewrite app_assoc, rstrip_last_nospace; [|now rewrite last_app_nonempty | exact H2].
  rewrite (lstrip_app_space w1 x H1). destruct x as [|c x]; [contradiction|].
  simpl in Hh. simpl. now rewrite Hh.
Qed.

Lemma strip_unpadded (x : str) :
  is_space (hd SP x) = false -> is_space (last x SP) = false -> strip x = x.
Proof.
  intros Hh Hl. pose proof (strip_padded [] x [] Hh Hl eq_refl eq_refl) as H.
  simpl in H. now rewrite app_nil_r in H.
Qed.

Lemma strip_prefix_app (p s rest : str) : strip_prefix p s = Some rest -> s = p ++ rest.
Proof.
  revert s. induction p as [|x p IH]; intros s H.
  - simpl in H. now injection H as ->.
  - destruct s as [|c s]; simpl in H; [discriminate|].
    destruct (N.eqb_spec x c) as [->|]; [|discriminate].
    simpl. f_equal. now apply IH.
Qed.

Lemma strip_prefix_self (p x : str) : strip_prefix p (p ++ x) = Some x.
Proof. induction p as [|c p IH]; [reflexivity|]. simpl. now rewrite N.eqb_refl. Qed.

Lemma lstrip_decompose (s : str) :
  exists p, forallb is_space p = true /\ s = p ++ lstrip s.
Proof.
  induction s as [|c s (p & Hp & E)]; [now exists []|]. simpl.
  destruct (is_space c) eqn:Hc.
  - exists (c :: p). simpl. rewrite Hc, Hp. split; [reflexivity | now f_equal].
  - now exists [].
Qed.

Lemma match_close_fence_shape (s rest : str) :
  match_close_fence s = Some rest ->
  exists p, forallb is_space p = true /\ s = p ++ BACKTICKS ++ rest
            /\ (rest = [] \/ rest = [NL]).
Proof.
  unfold match_close_fence. intros H.
  destruct (strip_prefix BACKTICKS (lstrip s)) as [r|] eqn:E; [|discriminate].
  apply strip_prefix_app in E.
  destruct (lstrip_decompose s) as (p & Hp & Es).
  exists p. split; [exact Hp|].
  destruct (is_empty r || str_eqb r [NL]) eqn:Hr; [|discriminate].
  injection H as <-. split; [now rewrite <- E|].
  apply orb_prop in Hr. destruct Hr as [Hr|Hr].
  - left. now apply is_empty_true.
  - right. unfold str_eqb in Hr. now destruct (list_eq_dec N.eq_dec r [NL]).
Qed.

Lemma match_close_fence_brace (s : str) : In 125%N s -> match_close_fence s = None.
Proof.
  intros Hin. destruct (match_close_fence s) as [rest|] eqn:E; [|reflexivity].
  exfalso. apply match_close_fence_shape in E.
  destruct E as (p & Hp & -> & Hrest).
  apply in_app_or in Hin. destruct Hin as [Hin|Hin].
  - rewrite forallb_forall in Hp. specialize (Hp _ Hin). discriminate.
  - apply in_app_or in Hin. destruct Hin as [Hin|Hin].
    + simpl in Hin. repeat destruct Hin as [Hin|Hin]; try discriminate; contradiction.
    + destruct Hrest as [->| ->]; simpl in Hin.
      * contradiction.
      * destruct Hin as [Hin|[]]. discriminate.
Qed.

Lemma sub_close_fence_eq (s : str) :
  sub_close_fence s
  = match match_close_fence s with
    | Some rest => rest
    | None => match s with [] => [] | c :: r => c :: sub_close_fence r end
    end.
Proof. destruct s; reflexivity. Qed.

Lemma sub_close_fence_brace (y tail : str) :
  sub_close_fence (y ++ 125%N :: tail) = y ++ 125%N :: sub_close_fence tail.
Proof.
  induction y as [|c y IH].
  - simpl app. rewrite (sub_close_fence_eq (125%N :: tail)).
    rewrite match_close_fence_brace; [reflexivity | now left].
  - simpl app. rewrite (sub_close_fence_eq (c :: y ++ 125%N :: tail)).
    rewrite match_close_fence_brace; [now rewrite IH|].
    right. apply in_or_app. right. now left.
Qed.

Lemma sub_close_fence_closing (ws : str) :
  forallb is_space ws = true -> sub_close_fence (ws ++ BACKTICKS) = [].
Proof.
  intros Hws.
  assert (E : match_close_fence (ws ++ BACKTICKS) = Some []).
  { unfold match_close_fence. rewrite (lstrip_app_space ws BACKTICKS Hws). reflexivity. }
  now rewrite sub_close_fence_eq, E.
Qed.

Lemma object_text_hd (body : str) : is_space (hd SP (object_text body)) = false.
Proof. reflexivity. Qed.

Lemma object_text_last (body : str) : is_space (last (object_text body) SP) = false.
Proof.
  unfold object_text. rewrite app_comm_cons, last_last. reflexivity.
Qed.

Lemma strip_prefix_ci_self (p x : str) : strip_prefix_ci p (p ++ x) = Some x.
Proof.
  induction p as [|c p IH]; [reflexivity|]. simpl.
  unfold ci_match at 1. now rewrite N.eqb_refl.
Qed.

Lemma ci_match_j_space (c : char) : is_space c = true -> ci_match 106%N c = false.
Proof.
  intros Hc. unfold ci_match.
  destruct (N.eqb_spec c 106%N) as [->|_]; [discriminate|].
  destruct (N.eqb_spec (c + 32)%N 106%N) as [E|_].
  - assert (c = 74%N) by lia. subst. discriminate.
  - now rewrite andb_false_r.
Qed.

Lemma sub_close_fence_object (body : str) :
  sub_close_fence (object_text body) = object_text body.
Proof.
  unfold object_text. rewrite app_comm_cons, sub_close_fence_brace. reflexivity.
Qed.

Lemma sub_fences_object (tag body : str) :
  sub_fences tag (object_text body) = object_text body.
Proof.
  unfold sub_fences, match_open_fence. simpl strip_prefix_ci.
  apply sub_close_fence_object.
Qed.

Lemma sub_close_fence_fenced (pre body ws : str) :
  forallb is_space ws = true ->
  sub_close_fence (pre ++ object_text body ++ ws ++ BACKTICKS) = pre ++ object_text body.
Proof.
  intros Hws.
  assert (E : pre ++ object_text body ++ ws ++ BACKTICKS
              = (pre ++ 123%N :: body) ++ 125%N :: ws ++ BACKTICKS).
  { unfold object_text. rewrite <- !app_assoc. simpl. now rewrite <- app_assoc. }
  rewrite E, sub_close_fence_brace, (sub_close_fence_closing ws Hws).
  unfold object_text. rewrite <- app_assoc. reflexivity.
Qed.

Lemma clean_fences_object (w1 w2 body : str) :
  forallb is_space w1 = true -> forallb is_space w2 = true ->
  clean_fences (w1 ++ object_text body ++ w2) = object_text body.
Proof.
  intros H1 H2. unfold clean_fences.
  rewrite (strip_padded w1 _ w2 (object_text_hd body) (object_text_last body) H1 H2).
  rewrite sub_fences_object, (strip_unpadded _ (object_text_hd body) (object_text_last body)).
  rewrite sub_fences_object.
  apply (strip_unpadded _ (object_text_hd body) (object_text_last body)).
Qed.

Lemma last_backticks (x : str) : last (x ++ BACKTICKS) SP = 96%N.
Proof. rewrite last_app_nonempty; [reflexivity | discriminate]. Qed.

Lemma clean_fences_json_fence (w1 w2 w3 w4 body : str) :
  forallb is_space w1 = true -> forallb is_space w2 = true ->
  forallb is_space w3 = true -> forallb is_space w4 = true ->
  clean_fences (w1 ++ ((BACKTICKS ++ lit "json") ++ w2 ++ object_text body ++ w3 ++ BACKTICKS)
                   ++ w4)
  = object_text body.
Proof.
  intros H1 H2 H3 H4. unfold clean_fences.
  rewrite (strip_padded w1 _ w4); [|reflexivity| |exact H1|exact H4].
  2:{ rewrite !app_assoc. now rewrite last_backticks. }
  unfold sub_fences at 2, match_open_fence.
  rewrite strip_prefix_ci_self, (lstrip_app_space w2 _ H2).
  change (lstrip (object_text body ++ w3 ++ BACKTICKS))
    with (object_text body ++ w3 ++ BACKTICKS).
  assert (E : sub_close_fence (object_text body ++ w3 ++ BACKTICKS) = object_text body)
    by exact (sub_close_fence_fenced [] body w3 H3).
  rewrite E.
  rewrite (strip_unpadded _ (object_text_hd body) (object_text_last body)).
  rewrite sub_fences_object.
  apply (strip_unpadded _ (object_text_hd body) (object_text_last body)).
Qed.

Lemma clean_fences_bare_fence (w1 w2 w3 w4 body : str) :
  forallb is_space w1 = true -> forallb is_space w2 = true ->
  forallb is_space w3 = true -> forallb is_space w4 = true ->
  clean_fences (w1 ++ (BACKTICKS ++ w2 ++ object_text body ++ w3 ++ BACKTICKS) ++ w4)
  = object_text body.
Proof.
  intros H1 H2 H3 H4. unfold clean_fences.
  rewrite (strip_padded w1 _ w4); [|reflexivity| |exact H1|exact H4].
  2:{ rewrite !app_assoc. now rewrite last_backticks. }
  assert (E1 : sub_fences (lit "json")
                 (BACKTICKS ++ w2 ++ object_text body ++ w3 ++ BACKTICKS)
               = BACKTICKS ++ w2 ++ object_text body).
  { unfold sub_fences, match_open_fence.
    change (strip_prefix_ci (BACKTICKS ++ lit "json")
              (BACKTICKS ++ w2 ++ object_text body ++ w3 ++ BACKTICKS))
      with (strip_prefix_ci (lit "json") (w2 ++ object_text body ++ w3 ++ BACKTICKS)).
    assert (E : strip_prefix_ci (lit "json") (w2 ++ object_text body ++ w3 ++ BACKTICKS)
                = None).
    { destruct w2 as [|c w2]; [reflexivity|].
      simpl in H2. apply andb_prop in H2. destruct H2 as [Hc _].
      change (lit "json") with (106%N :: lit "son"). simpl.
      now rewrite (ci_match_j_space c Hc). }
    rewrite E.
    rewrite (app_assoc BACKTICKS w2), (sub_close_fence_fenced (BACKTICKS ++ w2) body w3 H3).
    now rewrite <- app_assoc. }
  rewrite E1.
  assert (E2 : strip (BACKTICKS ++ w2 ++ object_text body)
               = BACKTICKS ++ w2 ++ object_text body).
  { apply strip_unpadded; [reflexivity|].
    rewrite app_assoc, last_app_nonempty; [apply object_text_last | discriminate]. }
  rewrite E2. unfold sub_fences, match_open_fence.
  change (strip_prefix_ci (BACKTICKS ++ []) (BACKTICKS ++ w2 ++ object_text body))
    with (Some (w2 ++ object_text body)).
  cbv beta iota. rewrite (lstrip_app_space w2 _ H2).
  change (lstrip (object_text body)) with (object_text body).
  rewrite sub_close_fence_object.
  apply (strip_unpadded _ (object_text_hd body) (object_text_last body)).
Qed.

Lemma extract_json_clean (x y : str) :
  clean_fences x = clean_fences y -> _extract_json (Some x) = _extract_json (Some y).
Proof.
  intros E. unfold _extract_json. fold (clean_fences x). fold (clean_fences y).
  now rewrite E.
Qed.

(* ===================================================================== *)
(** * What the JSON decoder accepts as an object                         *)
(* ===================================================================== *)

Lemma suffix_of_refl (A : Type) (s : list A) : suffix_of s s.
Proof. now exists []. Qed.

Lemma suffix_of_trans (A : Type) (a b c : list A) :
  suffix_of a b -> suffix_of b c -> suffix_of a c.
Proof. intros (p & ->) (q & ->). exists (q ++ p). now rewrite app_assoc. Qed.

Lemma suffix_of_cons (A : Type) (a s : list A) (c : A) :
  suffix_of a s -> suffix_of a (c :: s).
Proof. intros (p & ->). now exists (c :: p). Qed.

Lemma skip_ws_decompose (s : str) :
  exists p, forallb is_json_ws p = true /\ s = p ++ skip_ws s.
Proof.
  induction s as [|c s (p & Hp & E)]; [now exists []|]. simpl.
  destruct (is_json_ws c) eqn:Hc.
  - exists (c :: p). simpl. rewrite Hc, Hp. split; [reflexivity | now f_equal].
  - now exists [].
Qed.

Lemma skip_ws_suffix (s : str) : suffix_of (skip_ws s) s.
Proof. destruct (skip_ws_decompose s) as (p & _ & E). now exists p. Qed.

Lemma skip_ws_nil (s : str) : skip_ws s = [] -> forallb is_json_ws s = true.
Proof.
  intros H. destruct (skip_ws_decompose s) as (p & Hp & E).
  rewrite H, app_nil_r in E. now subst.
Qed.

Lemma json_ws_is_space (c : char) : is_json_ws c = true -> is_space c = true.
Proof.
  unfold is_json_ws. intros H.
  repeat (apply orb_prop in H; destruct H as [H|H]);
    apply N.eqb_eq in H; subst; reflexivity.
Qed.

Lemma json_ws_all_space (s : str) :
  forallb is_json_ws s = true -> forallb is_space s = true.
Proof.
  induction s as [|c s IH]; [reflexivity|]. simpl. intros H.
  apply andb_prop in H. destruct H as [Hc Hs].
  now rewrite (json_ws_is_space c Hc), (IH Hs).
Qed.

Lemma hex4_suffix (s r : str) (u : N) : hex4 s = Some (u, r) -> suffix_of r s.
Proof.
  unfold hex4. destruct s as [|a [|b [|c [|d s]]]]; try discriminate.
  destruct (hex_value a), (hex_value b), (hex_value c), (hex_value d); try discriminate.
  intros H. injection H as _ ->. now exists [a; b; c; d].
Qed.

Lemma scan_unicode_escape_suffix (s r : str) (u : char) :
  scan_unicode_escape s = Some (u, r) -> suffix_of r s.
Proof.
  unfold scan_unicode_escape. destruct (hex4 s) as [[u1 r1]|] eqn:E1; [|discriminate].
  apply hex4_suffix in E1. intros H.
  assert (Hdirect : Some (u1, r1) = Some (u, r) -> suffix_of r s).
  { intros E. injection E as _ <-. exact E1. }
  destruct (is_high_surrogate u1); [|now apply Hdirect].
  destruct r1 as [|b [|l r2]]; try now apply Hdirect.
  destruct ((b =? 92) && (l =? 117))%N; [|now apply Hdirect].
  destruct (hex4 r2) as [[u2 r3]|] eqn:E2; [|now apply Hdirect].
  destruct (is_low_surrogate u2); [|now apply Hdirect].
  injection H as _ <-. apply hex4_suffix in E2.
  eapply suffix_of_trans; [|exact E1]. now do 2 apply suffix_of_cons.
Qed.

Lemma scan_string_suffix (fuel : nat) :
  forall s x r, scan_string fuel s = Some (x, r) -> suffix_of r s.
Proof.
  induction fuel as [|f IH]; intros s x r H; [discriminate|].
  simpl in H. destruct s as [|c s]; [discriminate|].
  destruct (c =? 34)%N.
  { injection H as _ <-. apply suffix_of_cons, suffix_of_refl. }
  destruct (c =? 92)%N.
  - destruct s as [|e s]; [discriminate|].
    destruct (e =? 117)%N.
    + destruct (scan_unicode_escape s) as [[u r2]|] eqn:Eu; [|discriminate].
      destruct (scan_string f r2) as [[x' rest]|] eqn:Es; [|discriminate].
      injection H as _ <-. do 2 apply suffix_of_cons.
      eapply suffix_of_trans; [exact (IH _ _ _ Es)|].
      exact (scan_unicode_escape_suffix _ _ _ Eu).
    + destruct (simple_escape e); [|discriminate].
      destruct (scan_string f s) as [[x' rest]|] eqn:Es; [|discriminate].
      injection H as _ <-. do 2 apply suffix_of_cons. exact (IH _ _ _ Es).
  - destruct (c <? 32)%N; [discriminate|].
    destruct (scan_string f s) as [[x' rest]|] eqn:Es; [|discriminate].
    injection H as _ <-. apply suffix_of_cons. exact (IH _ _ _ Es).
Qed.

Lemma span_digits_app (s : str) : s = fst (span_digits s) ++ snd (span_digits s).
Proof.
  induction s as [|c s IH]; [reflexivity|]. simpl.
  destruct (is_digit c); [|reflexivity].
  destruct (span_digits s) as [ds rest]. simpl in *. now f_equal.
Qed.

Lemma span_digits_suffix (s : str) : suffix_of (snd (span_digits s)) s.
Proof. exists (fst (span_digits s)). apply span_digits_app. Qed.

Lemma scan_sign_suffix (s : str) : suffix_of (snd (scan_sign s)) s.
Proof.
  unfold scan_sign. destruct s as [|c r]; [apply suffix_of_refl|].
  destruct (c =? 45)%N; [apply suffix_of_cons|]; apply suffix_of_refl.
Qed.

Lemma scan_int_part_suffix (s ipart rest : str) :
  scan_int_part s = Some (ipart, rest) -> suffix_of rest s.
Proof.
  unfold scan_int_part. pose proof (span_digits_app s) as E.
  destruct (span_digits s) as [ds s2]. simpl in E.
  destruct ds as [|d ds']; [discriminate|]. intros H. injection H as H.
  rewrite E. destruct (d =? 48)%N; injection H as _ <-.
  - now exists [d].
  - now exists (d :: ds').
Qed.

Lemma scan_frac_suffix (s : str) : suffix_of (snd (scan_frac s)) s.
Proof.
  unfold scan_frac. destruct s as [|c r]; [apply suffix_of_refl|].
  destruct (c =? 46)%N; [|apply suffix_of_refl].
  pose proof (span_digits_suffix r) as Hs.
  destruct (span_digits r) as [fs r']. simpl in Hs.
  destruct (is_empty fs); [apply suffix_of_refl | now apply suffix_of_cons].
Qed.

Lemma scan_exp_suffix (s : str) : suffix_of (snd (scan_exp s)) s.
Proof.
  unfold scan_exp. destruct s as [|e r]; [apply suffix_of_refl|].
  destruct ((e =? 101) || (e =? 69))%N; [|apply suffix_of_refl].
  assert (Hsg : suffix_of
                  (snd (match r with
                        | x :: r0 => if ((x =? 43) || (x =? 45))%N then ([x], r0) else ([], r)
                        | [] => ([], r)
                        end)) r).
  { destruct r as [|x r0]; [apply suffix_of_refl|].
    destruct ((x =? 43) || (x =? 45))%N; [apply suffix_of_cons|]; apply suffix_of_refl. }
  destruct (match r with [] => _ | _ => _ end) as [sg r1]. simpl in Hsg.
  pose proof (span_digits_suffix r1) as Hs.
  destruct (span_digits r1) as [es r2]. simpl in Hs.
  destruct (is_empty es); [apply suffix_of_refl|].
  apply suffix_of_cons. eapply suffix_of_trans; eassumption.
Qed.

Lemma scan_number_result (s r : str) (v : json) :
  scan_number s = Some (v, r) ->
  suffix_of r s /\ forall kvs, v <> JObject kvs.
Proof.
  unfold scan_number. pose proof (scan_sign_suffix s) as H1.
  destruct (scan_sign s) as [sign s1]. simpl in H1.
  destruct (scan_int_part s1) as [[ipart s2]|] eqn:E2; [|discriminate].
  apply scan_int_part_suffix in E2.
  pose proof (scan_frac_suffix s2) as H3. destruct (scan_frac s2) as [frac s3].
  pose proof (scan_exp_suffix s3) as H4. destruct (scan_exp s3) as [expo s4].
  simpl in H3, H4.
  assert (Hall : suffix_of s4 s).
  { eapply suffix_of_trans; [exact H4|]. eapply suffix_of_trans; [exact H3|].
    eapply suffix_of_trans; [exact E2 | exact H1]. }
  intros H. destruct (is_empty frac && is_empty expo);
    injection H as <- <-; (split; [exact Hall | discriminate]).
Qed.

Lemma scan_literal_result (word : string) (v0 v : json) (s r : str) :
  scan_literal word v0 s = Some (v, r) -> suffix_of r s /\ v = v0.
Proof.
  unfold scan_literal. destruct (strip_prefix (lit word) s) as [rest|] eqn:E; [|discriminate].
  intros H. injection H as <- <-. split; [|reflexivity].
  exists (lit word). revert E. generalize (lit word). intros p. revert s.
  induction p as [|x p IH]; intros s H.
  - simpl in H. now injection H as ->.
  - destruct s as [|c s]; simpl in H; [discriminate|].
    destruct (N.eqb_spec x c) as [->|]; [|discriminate].
    simpl. f_equal. now apply IH.
Qed.

Lemma parser_shape (fuel : nat) :
  (forall s v r, parse_value fuel s = Some (v, r) -> value_shape s v r)
  /\ (forall s acc v r, parse_members fuel s acc = Some (v, r) ->
        exists pre, s = pre ++ 125%N :: r)
  /\ (forall s acc v r, parse_elements fuel s acc = Some (v, r) ->
        suffix_of r s /\ exists items, v = JArray items).
Proof.
  induction fuel as [|f (IHv & IHm & IHe)].
  { repeat split; intros; discriminate. }
  split; [|split].
  - (* parse_value *)
    intros s v r H. cbn [parse_value] in H.
    destruct s as [|c s]; [discriminate|].
    destruct (c =? 34)%N.
    { destruct (scan_string f s) as [[x rest]|] eqn:Es; [|discriminate].
      injection H as <- <-. split; [|discriminate].
      apply suffix_of_cons. exact (scan_string_suffix _ _ _ _ Es). }
    destruct (N.eqb_spec c 123) as [->|_].
    { destruct (skip_ws_decompose s) as (p & _ & Ep).
      destruct (skip_ws s) as [|c' rest] eqn:Ews.
      - apply IHm in H. destruct H as (pre & Hpre). destruct pre; discriminate.
      - destruct (N.eqb_spec c' 125) as [->|_].
        + injection H as <- <-. split.
          * apply suffix_of_cons. exists (p ++ [125%N]).
            rewrite Ep, <- app_assoc. reflexivity.
          * intros _ _. exists p. now rewrite Ep.
        + apply IHm in H. destruct H as (pre & Hpre). split.
          * apply suffix_of_cons. exists (p ++ pre ++ [125%N]).
            rewrite Ep, Hpre, <- !app_assoc. reflexivity.
          * intros _ _. exists (p ++ pre). rewrite Ep, Hpre, <- app_assoc. reflexivity. }
    destruct (c =? 91)%N.
    { assert (Hws : suffix_of (skip_ws s) s) by apply skip_ws_suffix.
      destruct (skip_ws s) as [|c' rest] eqn:Ews.
      - apply IHe in H. destruct H as [Hs (items & ->)]. split; [|discriminate].
        apply suffix_of_cons. eapply suffix_of_trans; eassumption.
      - destruct (c' =? 93)%N.
        + injection H as <- <-. split; [|discriminate].
          apply suffix_of_cons. eapply suffix_of_trans; [|exact Hws].
          apply suffix_of_cons, suffix_of_refl.
        + apply IHe in H. destruct H as [Hs (items & ->)]. split; [|discriminate].
          apply suffix_of_cons. eapply suffix_of_trans; eassumption. }
    assert (Hlit : forall word v0, (forall kvs, v0 <> JObject kvs) ->
                   scan_literal word v0 (c :: s) = Some (v, r) ->
                   value_shape (c :: s) v r).
    { intros word v0 Hv0 E. apply scan_literal_result in E. destruct E as [E ->].
      split; [exact E|]. intros kvs Hk. exfalso. exact (Hv0 kvs Hk). }
    destruct (c =? 110)%N; [eapply Hlit; [|exact H]; discriminate|].
    destruct (c =? 116)%N; [eapply Hlit; [|exact H]; discriminate|].
    destruct (c =? 102)%N; [eapply Hlit; [|exact H]; discriminate|].
    destruct (c =? 78)%N; [eapply Hlit; [|exact H]; discriminate|].
    destruct (c =? 73)%N; [eapply Hlit; [|exact H]; discriminate|].
    destruct (scan_literal "-Infinity" _ (c :: s)) as [res|] eqn:El.
    + injection H as ->. eapply Hlit; [|exact El]; discriminate.
    + apply scan_number_result in H. destruct H as [Hs Hv]. split; [exact Hs|].
      intros kvs Hk. exfalso. exact (Hv kvs Hk).
  - (* parse_members *)
    intros s acc v r H. cbn [parse_members] in H.
    destruct s as [|q s]; [discriminate|].
    destruct (q =? 34)%N; [|discriminate].
    destruct (scan_string f s) as [[key r1]|] eqn:Es; [|discriminate].
    apply scan_string_suffix in Es. destruct Es as (p1 & ->).
    destruct (skip_ws_decompose r1) as (w1 & _ & E1).
    destruct (skip_ws r1) as [|colon r2]; [discriminate|].
    destruct (colon =? 58)%N; [|discriminate].
    destruct (skip_ws_decompose r2) as (w2 & _ & E2).
    destruct (parse_value f (skip_ws r2)) as [[v' r3]|] eqn:Ev; [|discriminate].
    apply IHv in Ev. destruct Ev as [(p3 & Ev) _].
    destruct (skip_ws_decompose r3) as (w3 & _ & E3).
    destruct (skip_ws r3) as [|d r4]; [discriminate|].
    assert (Es : q :: p1 ++ r1 = (q :: p1 ++ w1 ++ colon :: w2 ++ p3 ++ w3) ++ d :: r4).
    { rewrite E1, E2, Ev, E3. simpl. f_equal. rewrite <- !app_assoc. simpl.
      do 2 f_equal. rewrite <- !app_assoc. reflexivity. }
    destruct (N.eqb_spec d 125) as [->|_].
    + injection H as _ <-. eexists. exact Es.
    + destruct (d =? 44)%N; [|discriminate].
      apply IHm in H. destruct H as (pre & Hpre).
      destruct (skip_ws_decompose r4) as (w4 & _ & E4).
      exists ((q :: p1 ++ w1 ++ colon :: w2 ++ p3 ++ w3) ++ d :: w4 ++ pre).
      rewrite Es, E4, Hpre, <- !app_assoc. simpl. rewrite <- !app_assoc. reflexivity.
  - (* parse_elements *)
    intros s acc v r H. cbn [parse_elements] in H.
    destruct (parse_value f s) as [[v' r1]|] eqn:Ev; [|discriminate].
    apply IHv in Ev. destruct Ev as [Hs1 _].
    assert (Hws : suffix_of (skip_ws r1) r1) by apply skip_ws_suffix.
    destruct (skip_ws r1) as [|d r2]; [discriminate|].
    assert (Hr2 : suffix_of r2 s).
    { eapply suffix_of_trans; [|exact Hs1]. eapply suffix_of_trans; [|exact Hws].
      apply suffix_of_cons, suffix_of_refl. }
    destruct (d =? 93)%N.
    + injection H as <- <-. split; [exact Hr2 | eauto].
    + destruct (d =? 44)%N; [|discriminate].
      apply IHe in H. destruct H as [Hs Hv]. split; [|exact Hv].
      eapply suffix_of_trans; [exact Hs|]. eapply suffix_of_trans; [|exact Hr2].
      apply skip_ws_suffix.
Qed.

(* ===================================================================== *)
(** * The JSON decoder on a truncated text                               *)
(* ===================================================================== *)

Lemma suffix_of_length (A : Type) (a b : list A) :
  suffix_of a b -> (length a <= length b)%nat.
Proof. intros (p & ->). rewrite length_app. lia. Qed.

Lemma app_tail_self (A : Type) (p t : list A) : t = p ++ t -> p = [].
Proof.
  intros E. destruct p as [|x p]; [reflexivity|]. exfalso.
  apply (f_equal (@length A)) in E. rewrite length_app in E. simpl in E. lia.
Qed.

(** A text between [r ++ t] and [s ++ t] in the suffix order ends with
    [t]. *)
Lemma suffix_sandwich (A : Type) (r s t y : list A) :
  suffix_of (r ++ t) y -> suffix_of y (s ++ t) ->
  exists x, y = x ++ t /\ suffix_of r x /\ suffix_of x s.
Proof.
  intros (p & ->) (q & E). exists (p ++ r). split; [now rewrite app_assoc|].
  split; [now exists p|]. exists q.
  rewrite !app_assoc in E. apply app_inv_tail in E. now rewrite <- app_assoc in E.
Qed.

Lemma strip_prefix_truncate (p s t r : str) :
  strip_prefix p (s ++ t) = Some (r ++ t) -> strip_prefix p s = Some r.
Proof.
  revert s. induction p as [|x p IH]; intros s H.
  - simpl in *. injection H as H. apply app_inv_tail in H. now subst.
  - destruct s as [|c s].
    + exfalso. simpl app in H. apply strip_prefix_app in H.
      rewrite app_assoc in H. apply app_tail_self in H. discriminate.
    + simpl in *. destruct (x =? c)%N; [now apply IH | discriminate].
Qed.

Lemma span_digits_truncate (s t ds r : str) :
  span_digits (s ++ t) = (ds, r ++ t) -> span_digits s = (ds, r).
Proof.
  revert ds. induction s as [|c s IH]; intros ds H.
  - simpl app in H. pose proof (span_digits_app t) as E. rewrite H in E. simpl in E.
    rewrite app_assoc in E. apply app_tail_self in E.
    apply app_eq_nil in E. destruct E as [-> ->]. reflexivity.
  - simpl in *. destruct (is_digit c).
    + destruct (span_digits (s ++ t)) as [ds' rest]. injection H as <- ->.
      now rewrite (IH ds' eq_refl).
    + injection H as <- H. change (c :: s ++ t) with ((c :: s) ++ t) in H.
      apply app_inv_tail in H. now subst.
Qed.

Lemma span_digits_none (s t : str) :
  fst (span_digits (s ++ t)) = [] -> fst (span_digits s) = [].
Proof.
  destruct s as [|c s]; [reflexivity|]. simpl.
  destruct (is_digit c); [|reflexivity].
  destruct (span_digits (s ++ t)), (span_digits s). discriminate.
Qed.

Lemma span_digits_head (c : char) (s : str) :
  is_digit c = true ->
  span_digits (c :: s) = (c :: fst (span_digits s), snd (span_digits s)).
Proof. intros H. simpl. rewrite H. now destruct (span_digits s). Qed.

Lemma scan_sign_truncate (s t sg r : str) :
  scan_sign (s ++ t) = (sg, r ++ t) -> scan_sign s = (sg, r).
Proof.
  destruct s as [|c s]; intros H.
  - simpl app in H. unfold scan_sign in H. destruct t as [|c t].
    + injection H as <- H. symmetry in H. apply app_eq_nil in H.
      destruct H as [-> _]. reflexivity.
    + destruct (c =? 45)%N; injection H as <- H.
      * exfalso. assert (L : length t = length (r ++ c :: t)) by now rewrite <- H.
        rewrite length_app in L. simpl in L. lia.
      * apply app_tail_self in H. now subst.
  - simpl in *. destruct (c =? 45)%N; injection H as <- H.
    + apply app_inv_tail in H. now subst.
    + change (c :: s ++ t) with ((c :: s) ++ t) in H. apply app_inv_tail in H. now subst.
Qed.

Lemma suffix_self_app (A : Type) (r t : list A) : suffix_of (r ++ t) t -> r = [].
Proof.
  intros (p & E). rewrite app_assoc in E. apply app_tail_self in E.
  apply app_eq_nil in E. tauto.
Qed.

Lemma is_digit_zero (d : char) : (d =? 48)%N = true -> is_digit d = true.
Proof. intros H. apply N.eqb_eq in H. now subst. Qed.

Lemma span_digits_first (s ds rest : str) (d : char) :
  span_digits s = (d :: ds, rest) -> is_digit d = true.
Proof.
  destruct s as [|c s]; [discriminate|]. simpl.
  destruct (is_digit c) eqn:E; [|discriminate].
  destruct (span_digits s). intros H. now injection H as <- _ _.
Qed.

Lemma scan_int_part_truncate (s t ip r : str) :
  scan_int_part (s ++ t) = Some (ip, r ++ t) -> scan_int_part s = Some (ip, r).
Proof.
  unfold scan_int_part. pose proof (span_digits_app (s ++ t)) as E.
  destruct (span_digits (s ++ t)) as [ds rest0] eqn:Es. simpl in E.
  destruct ds as [|d ds']; [discriminate|].
  pose proof (span_digits_first _ _ _ _ Es) as Hd.
  destruct (d =? 48)%N eqn:Hz; intros H; injection H as <- H.
  - change ((d :: ds') ++ rest0) with (d :: ds' ++ rest0) in E.
    rewrite H in E. change (d :: r ++ t) with ((d :: r) ++ t) in E.
    apply app_inv_tail in E. subst s.
    rewrite (span_digits_head d r Hd), Hz. do 2 f_equal. symmetry. apply span_digits_app.
  - subst rest0. rewrite (span_digits_truncate s t _ r Es), Hz. reflexivity.
Qed.

Lemma scan_int_part_strict (s ip rest : str) :
  scan_int_part s = Some (ip, rest) -> (length rest < length s)%nat.
Proof.
  unfold scan_int_part. pose proof (span_digits_app s) as E.
  destruct (span_digits s) as [ds s2]. simpl in E.
  destruct ds as [|d ds']; [discriminate|]. intros H. injection H as H.
  rewrite E. destruct (d =? 48)%N; injection H as _ <-;
    simpl; rewrite ?length_app; lia.
Qed.

Lemma scan_frac_app (s : str) : s = fst (scan_frac s) ++ snd (scan_frac s).
Proof.
  unfold scan_frac. destruct s as [|c r]; [reflexivity|].
  destruct (c =? 46)%N; [|reflexivity].
  pose proof (span_digits_app r) as E. destruct (span_digits r) as [fs rest].
  simpl in E. destruct (is_empty fs); [reflexivity|]. simpl. now f_equal.
Qed.

Lemma scan_frac_truncate (s t fr r : str) :
  scan_frac (s ++ t) = (fr, r ++ t) -> scan_frac s = (fr, r).
Proof.
  intros H. destruct s as [|c s].
  - pose proof (scan_frac_app t) as E. simpl app in H. rewrite H in E. simpl in E.
    rewrite app_assoc in E. apply app_tail_self in E.
    apply app_eq_nil in E. destruct E as [-> ->]. reflexivity.
  - simpl app in H. unfold scan_frac in *. destruct (c =? 46)%N.
    + destruct (span_digits (s ++ t)) as [fs rest] eqn:Es.
      destruct (is_empty fs) eqn:Ef.
      * injection H as <- H. change (c :: s ++ t) with ((c :: s) ++ t) in H.
        apply app_inv_tail in H. subst r.
        pose proof (span_digits_none s t) as Hn. rewrite Es in Hn. simpl in Hn.
        apply is_empty_true in Ef. specialize (Hn Ef).
        destruct (span_digits s) as [fs2 rest2]. simpl in Hn. subst fs2. reflexivity.
      * injection H as <- ->. rewrite (span_digits_truncate s t fs r Es), Ef. reflexivity.
    + injection H as <- H. change (c :: s ++ t) with ((c :: s) ++ t) in H.
      apply app_inv_tail in H. now subst.
Qed.

Lemma scan_exp_unfold (s : str) :
  scan_exp s
  = match s with
    | e :: r =>
        if ((e =? 101) || (e =? 69))%N then
          if is_empty (fst (span_digits (snd (exp_sign r)))) then ([], s)
          else (e :: fst (exp_sign r) ++ fst (span_digits (snd (exp_sign r))),
                snd (span_digits (snd (exp_sign r))))
        else ([], s)
    | [] => ([], s)
    end.
Proof.
  unfold scan_exp, exp_sign. destruct s as [|e r]; [reflexivity|].
  destruct ((e =? 101) || (e =? 69))%N; [|reflexivity].
  destruct r as [|x r0].
  - reflexivity.
  - destruct ((x =? 43) || (x =? 45))%N; cbn [fst snd].
    + destruct (span_digits r0). reflexivity.
    + destruct (span_digits (x :: r0)). reflexivity.
Qed.

Lemma exp_sign_app (r : str) : r = fst (exp_sign r) ++ snd (exp_sign r).
Proof.
  unfold exp_sign. destruct r as [|x r0]; [reflexivity|].
  destruct ((x =? 43) || (x =? 45))%N; reflexivity.
Qed.

Lemma scan_exp_app (s : str) : s = fst (scan_exp s) ++ snd (scan_exp s).
Proof.
  rewrite scan_exp_unfold. destruct s as [|e r]; [reflexivity|].
  destruct ((e =? 101) || (e =? 69))%N; [|reflexivity].
  destruct (is_empty _); [reflexivity|]. simpl. f_equal.
  rewrite <- app_assoc, <- span_digits_app. apply exp_sign_app.
Qed.

Lemma scan_exp_truncate (s t ex r : str) :
  scan_exp (s ++ t) = (ex, r ++ t) -> scan_exp s = (ex, r).
Proof.
  intros H. destruct s as [|e s].
  - pose proof (scan_exp_app t) as E. simpl app in H. rewrite H in E. simpl in E.
    rewrite app_assoc in E. apply app_tail_self in E.
    apply app_eq_nil in E. destruct E as [-> ->]. reflexivity.
  - simpl app in H. rewrite scan_exp_unfold in *.
    destruct ((e =? 101) || (e =? 69))%N.
    2:{ injection H as <- H. change (e :: s ++ t) with ((e :: s) ++ t) in H.
        apply app_inv_tail in H. now subst. }
    destruct (is_empty (fst (span_digits (snd (exp_sign (s ++ t)))))) eqn:Ef.
    + (* no digits: nothing is consumed *)
      injection H as <- H. change (e :: s ++ t) with ((e :: s) ++ t) in H.
      apply app_inv_tail in H. subst r. apply is_empty_true in Ef.
      assert (Ef' : fst (span_digits (snd (exp_sign s))) = []).
      { destruct s as [|x s0]; [reflexivity|]. unfold exp_sign in *. simpl app in Ef.
        cbv beta iota in Ef. revert Ef. destruct ((x =? 43) || (x =? 45))%N; cbn [snd]; intros Ef.
        - exact (span_digits_none s0 t Ef).
        - exact (span_digits_none (x :: s0) t Ef). }
      now rewrite Ef'.
    + (* sign and digits are consumed: they lie in [s] *)
      injection H as <- H.
      destruct (span_digits (snd (exp_sign (s ++ t)))) as [es rest] eqn:Es.
      simpl in Ef, H. subst rest. simpl fst.
      destruct s as [|x s0].
      * exfalso. simpl app in Es.
        pose proof (exp_sign_app t) as E1.
        pose proof (span_digits_app (snd (exp_sign t))) as E2.
        rewrite Es in E2. simpl in E2. rewrite E2 in E1.
        rewrite !app_assoc in E1. apply app_tail_self in E1.
        apply app_eq_nil in E1. destruct E1 as [E1 _].
        apply app_eq_nil in E1. destruct E1 as [_ ->]. discriminate.
      * unfold exp_sign in *. simpl app in *. cbv beta iota in *. revert Es.
        destruct ((x =? 43) || (x =? 45))%N; cbn [fst snd]; intros Es.
        -- rewrite (span_digits_truncate s0 t es r Es). cbn [fst snd].
           rewrite Ef. reflexivity.
        -- rewrite (span_digits_truncate (x :: s0) t es r Es). cbn [fst snd].
           rewrite Ef. reflexivity.
Qed.

Lemma scan_number_truncate (s t r : str) (v : json) :
  scan_number (s ++ t) = Some (v, r ++ t) -> scan_number s = Some (v, r).
Proof.
  unfold scan_number. intros H.
  pose proof (scan_sign_suffix (s ++ t)) as S1.
  destruct (scan_sign (s ++ t)) as [sg s1] eqn:E1. simpl in S1.
  destruct (scan_int_part s1) as [[ip s2]|] eqn:E2; [|discriminate].
  pose proof (scan_int_part_suffix _ _ _ E2) as S2.
  pose proof (scan_frac_suffix s2) as S3.
  destruct (scan_frac s2) as [fr s3] eqn:E3. simpl in S3.
  pose proof (scan_exp_suffix s3) as S4.
  destruct (scan_exp s3) as [ex s4] eqn:E4. simpl in S4.
  assert (E : s4 = r ++ t) by (destruct (is_empty fr && is_empty ex); now injection H).
  subst s4.
  assert (T2 : suffix_of s2 (s ++ t)) by (eapply suffix_of_trans; [exact S2 | exact S1]).
  assert (T3 : suffix_of s3 (s ++ t)) by (eapply suffix_of_trans; [exact S3 | exact T2]).
  destruct (suffix_sandwich _ r s t s3 S4 T3) as (x3 & Ex3 & _). subst s3.
  destruct (suffix_sandwich _ x3 s t s2 S3 T2) as (x2 & Ex2 & _). subst s2.
  destruct (suffix_sandwich _ x2 s t s1 S2 S1) as (x1 & Ex1 & _). subst s1.
  rewrite (scan_sign_truncate s t sg x1 E1), (scan_int_part_truncate x1 t ip x2 E2).
  rewrite (scan_frac_truncate x2 t fr x3 E3), (scan_exp_truncate x3 t ex r E4).
  destruct (is_empty fr && is_empty ex); injection H as <-; reflexivity.
Qed.

Lemma scan_number_strict (s r : str) (v : json) :
  scan_number s = Some (v, r) -> (length r < length s)%nat.
Proof.
  unfold scan_number. intros H.
  pose proof (scan_sign_suffix s) as S1.
  destruct (scan_sign s) as [sg s1]. simpl in S1.
  destruct (scan_int_part s1) as [[ip s2]|] eqn:E2; [|discriminate].
  pose proof (scan_int_part_strict _ _ _ E2) as S2.
  pose proof (scan_frac_suffix s2) as S3. destruct (scan_frac s2) as [fr s3]. simpl in S3.
  pose proof (scan_exp_suffix s3) as S4. destruct (scan_exp s3) as [ex s4]. simpl in S4.
  assert (E : s4 = r) by (destruct (is_empty fr && is_empty ex); now injection H).
  subst s4. apply suffix_of_length in S1, S3, S4. lia.
Qed.

Lemma scan_literal_truncate (word : string) (v0 v : json) (s t r : str) :
  scan_literal word v0 (s ++ t) = Some (v, r ++ t) ->
  scan_literal word v0 s = Some (v, r).
Proof.
  unfold scan_literal.
  destruct (strip_prefix (lit word) (s ++ t)) as [rest|] eqn:E; [|discriminate].
  intros H. injection H as <- ->.
  now rewrite (strip_prefix_truncate _ _ _ _ E).
Qed.

Lemma hex4_shape (s r : str) (u : N) :
  hex4 s = Some (u, r) -> exists a b c d, s = a :: b :: c :: d :: r.
Proof.
  unfold hex4. destruct s as [|a [|b [|c [|d s]]]]; try discriminate.
  destruct (hex_value a), (hex_value b), (hex_value c), (hex_value d); try discriminate.
  intros H. injection H as _ ->. now exists a, b, c, d.
Qed.

Lemma hex4_extend (s t r : str) (u : N) :
  hex4 s = Some (u, r) -> hex4 (s ++ t) = Some (u, r ++ t).
Proof.
  intros H. destruct (hex4_shape _ _ _ H) as (a & b & c & d & ->).
  simpl in *. destruct (hex_value a), (hex_value b), (hex_value c), (hex_value d);
    try discriminate.
  now injection H as <-.
Qed.

Lemma hex4_truncate (s t r : str) (u : N) :
  hex4 (s ++ t) = Some (u, r ++ t) -> hex4 s = Some (u, r).
Proof.
  intros H. destruct (hex4_shape _ _ _ H) as (a & b & c & d & E).
  change (a :: b :: c :: d :: r ++ t) with ((a :: b :: c :: d :: r) ++ t) in E.
  apply app_inv_tail in E. subst s. simpl in *.
  destruct (hex_value a), (hex_value b), (hex_value c), (hex_value d); try discriminate.
  now injection H as <-.
Qed.

Lemma scan_unicode_escape_truncate (s t r : str) (u : char) :
  scan_unicode_escape (s ++ t) = Some (u, r ++ t) ->
  scan_unicode_escape s = Some (u, r).
Proof.
  unfold scan_unicode_escape. intros H.
  destruct (hex4 (s ++ t)) as [[u1 r1]|] eqn:E1; [|discriminate].
  assert (S1 : suffix_of r1 (s ++ t)) by exact (hex4_suffix _ _ _ E1).
  assert (S2 : suffix_of (r ++ t) r1).
  { assert (Hd : Some (u1, r1) = Some (u, r ++ t) -> suffix_of (r ++ t) r1)
      by (intros E; injection E as _ <-; apply suffix_of_refl).
    destruct (is_high_surrogate u1); [|now apply Hd].
    destruct r1 as [|b [|l r2]]; try now apply Hd.
    destruct ((b =? 92) && (l =? 117))%N; [|now apply Hd].
    destruct (hex4 r2) as [[u2 r3]|] eqn:E2; [|now apply Hd].
    destruct (is_low_surrogate u2); [|now apply Hd].
    injection H as _ <-. apply hex4_suffix in E2. now do 2 apply suffix_of_cons. }
  destruct (suffix_sandwich _ r s t r1 S2 S1) as (x1 & Ex1 & _). subst r1.
  rewrite (hex4_truncate s t x1 u1 E1).
  destruct (is_high_surrogate u1); [|injection H as <- E; apply app_inv_tail in E; now subst].
  destruct x1 as [|b [|l y]].
  - (* nothing left before [t] *)
    assert (E : Some (u1, [] ++ t) = Some (u, r ++ t)).
    { simpl app in *. destruct t as [|b [|l r2]]; try exact H.
      destruct ((b =? 92) && (l =? 117))%N; [|exact H].
      destruct (hex4 r2) as [[u2 r3]|] eqn:E2; [|exact H].
      destruct (is_low_surrogate u2); [|exact H].
      exfalso. injection H as _ H. apply hex4_suffix in E2.
      apply suffix_of_length in E2. rewrite H, length_app in E2. simpl in E2. lia. }
    injection E as <- E. apply app_tail_self in E. now subst.
  - (* one character left before [t] *)
    assert (E : Some (u1, [b] ++ t) = Some (u, r ++ t)).
    { simpl app in *. destruct t as [|l r2]; [exact H|].
      destruct ((b =? 92) && (l =? 117))%N; [|exact H].
      destruct (hex4 r2) as [[u2 r3]|] eqn:E2; [|exact H].
      destruct (is_low_surrogate u2); [|exact H].
      exfalso. injection H as _ H. apply hex4_suffix in E2.
      apply suffix_of_length in E2. rewrite H, length_app in E2. simpl in E2. lia. }
    injection E as <- E. change (b :: t) with ([b] ++ t) in E.
    apply app_inv_tail in E. now subst.
  - simpl app in H. cbv beta iota in H. destruct ((b =? 92) && (l =? 117))%N;
      [|injection H as <- E; change (b :: l :: y ++ t) with ((b :: l :: y) ++ t) in E;
        apply app_inv_tail in E; now subst].
    destruct (hex4 (y ++ t)) as [[u2 r3]|] eqn:E2.
    + destruct (hex4 y) as [[u2' r3']|] eqn:E2'.
      * pose proof (hex4_extend y t r3' u2' E2') as E2x. rewrite E2 in E2x.
        injection E2x as <- ->.
        destruct (is_low_surrogate u2).
        -- injection H as <- E. apply app_inv_tail in E. now subst.
        -- injection H as <- E. change (b :: l :: y ++ t) with ((b :: l :: y) ++ t) in E.
           apply app_inv_tail in E. now subst.
      * destruct (is_low_surrogate u2) eqn:Hl.
        -- exfalso. injection H as _ H. subst r3.
           rewrite (hex4_truncate y t r u2 E2) in E2'. discriminate.
        -- injection H as <- E. change (b :: l :: y ++ t) with ((b :: l :: y) ++ t) in E.
           apply app_inv_tail in E. now subst.
    + destruct (hex4 y) as [[u2' r3']|] eqn:E2'.
      * pose proof (hex4_extend y t r3' u2' E2') as E2x. rewrite E2 in E2x. discriminate.
      * injection H as <- E. change (b :: l :: y ++ t) with ((b :: l :: y) ++ t) in E.
        apply app_inv_tail in E. now subst.
Qed.

Lemma scan_string_strict (fuel : nat) (s x r : str) :
  scan_string fuel s = Some (x, r) -> (length r < length s)%nat.
Proof.
  destruct fuel as [|f]; [discriminate|]. simpl.
  destruct s as [|c s]; [discriminate|].
  destruct (c =? 34)%N; [intros H; injection H as _ <-; simpl; lia|].
  destruct (c =? 92)%N.
  - destruct s as [|e s]; [discriminate|]. destruct (e =? 117)%N.
    + destruct (scan_unicode_escape s) as [[u r2]|] eqn:Eu; [|discriminate].
      destruct (scan_string f r2) as [[x' rest]|] eqn:Es; [|discriminate].
      intros H. injection H as _ <-.
      apply scan_unicode_escape_suffix, suffix_of_length in Eu.
      apply scan_string_suffix, suffix_of_length in Es. simpl. lia.
    + destruct (simple_escape e); [|discriminate].
      destruct (scan_string f s) as [[x' rest]|] eqn:Es; [|discriminate].
      intros H. injection H as _ <-.
      apply scan_string_suffix, suffix_of_length in Es. simpl. lia.
  - destruct (c <? 32)%N; [discriminate|].
    destruct (scan_string f s) as [[x' rest]|] eqn:Es; [|discriminate].
    intros H. injection H as _ <-.
    apply scan_string_suffix, suffix_of_length in Es. simpl. lia.
Qed.

(** A string literal read from [s ++ t] that leaves [t] untouched is read
    the same from [s] alone, with any fuel that covers what is consumed. *)
Lemma scan_string_truncate (fuel : nat) :
  forall s t x r fuel',
    scan_string fuel (s ++ t) = Some (x, r ++ t) ->
    (length s - length r <= fuel')%nat ->
    scan_string fuel' s = Some (x, r).
Proof.
  induction fuel as [|f IH]; intros s t x r fuel' H Hf; [discriminate|].
  assert (Hstrict : (length r < length s)%nat).
  { apply scan_string_strict in H. rewrite !length_app in H. lia. }
  destruct s as [|c s]; [cbn [length] in Hstrict; lia|].
  cbn [length] in Hf, Hstrict.
  destruct fuel' as [|f']; [lia|].
  simpl app in H. simpl in H. simpl.
  destruct (c =? 34)%N.
  { injection H as <- E. apply app_inv_tail in E. now subst. }
  destruct (c =? 92)%N.
  - destruct s as [|e s].
    + (* the escape would reach into [t] *)
      exfalso. simpl app in H. destruct t as [|e t]; [discriminate|].
      assert (S : suffix_of (r ++ e :: t) t).
      { destruct (e =? 117)%N.
        - destruct (scan_unicode_escape t) as [[u r2]|] eqn:Eu; [|discriminate].
          destruct (scan_string f r2) as [[x' rest]|] eqn:Es; [|discriminate].
          injection H as _ <-. eapply suffix_of_trans.
          + exact (scan_string_suffix _ _ _ _ Es).
          + exact (scan_unicode_escape_suffix _ _ _ Eu).
        - destruct (simple_escape e); [|discriminate].
          destruct (scan_string f t) as [[x' rest]|] eqn:Es; [|discriminate].
          injection H as _ <-. exact (scan_string_suffix _ _ _ _ Es). }
      apply suffix_of_length in S. rewrite length_app in S. simpl in S. lia.
    + simpl app in H. cbv beta iota in H. destruct (e =? 117)%N.
      * destruct (scan_unicode_escape (s ++ t)) as [[u r2]|] eqn:Eu; [|discriminate].
        destruct (scan_string f r2) as [[x' rest]|] eqn:Es; [|discriminate].
        injection H as <- ->.
        destruct (suffix_sandwich _ r s t r2 (scan_string_suffix _ _ _ _ Es)
                    (scan_unicode_escape_suffix _ _ _ Eu)) as (x2 & Ex2 & Hr & Hx).
        subst r2. rewrite (scan_unicode_escape_truncate s t x2 u Eu).
        apply suffix_of_length in Hx. cbn [length] in Hf.
        rewrite (IH x2 t x' r f' Es); [reflexivity | lia].
      * destruct (simple_escape e); [|discriminate].
        destruct (scan_string f (s ++ t)) as [[x' rest]|] eqn:Es; [|discriminate].
        injection H as <- ->. cbn [length] in Hf.
        rewrite (IH s t x' r f' Es); [reflexivity | lia].
  - destruct (c <? 32)%N; [discriminate|].
    destruct (scan_string f (s ++ t)) as [[x' rest]|] eqn:Es; [|discriminate].
    injection H as <- ->.
    rewrite (IH s t x' r f' Es); [reflexivity | lia].
Qed.

Lemma skip_ws_truncate (x t y : str) : skip_ws (x ++ t) = y ++ t -> skip_ws x = y.
Proof.
  revert y. induction x as [|c x IH]; intros y H.
  - simpl in *. pose proof (skip_ws_suffix t) as S. rewrite H in S.
    apply suffix_self_app in S. now subst.
  - simpl in *. destruct (is_json_ws c); [now apply IH|].
    change (c :: x ++ t) with ((c :: x) ++ t) in H. apply app_inv_tail in H. now subst.
Qed.

Lemma parse_members_suffix (f : nat) (s r : str) (acc : dict) (v : json) :
  parse_members f s acc = Some (v, r) ->
  suffix_of r s /\ (length r < length s)%nat.
Proof.
  intros H. apply (proj1 (proj2 (parser_shape f))) in H. destruct H as (pre & ->).
  split.
  - exists (pre ++ [125%N]). now rewrite <- app_assoc.
  - rewrite length_app. llia.
Qed.

Lemma parse_elements_suffix (f : nat) (s r : str) (acc : list json) (v : json) :
  parse_elements f s acc = Some (v, r) -> suffix_of r s.
Proof.
  intros H. apply (proj2 (proj2 (parser_shape f))) in H. destruct H as [H _]. exact H.
Qed.

Lemma parse_value_suffix (f : nat) (s r : str) (v : json) :
  parse_value f s = Some (v, r) -> suffix_of r s.
Proof.
  intros H. apply (proj1 (parser_shape f)) in H. destruct H as [H _]. exact H.
Qed.

Lemma parse_elements_strict (f : nat) (s r : str) (acc : list json) (v : json) :
  parse_elements f s acc = Some (v, r) -> (length r < length s)%nat.
Proof.
  destruct f as [|f]; [discriminate|]. cbn [parse_elements].
  destruct (parse_value f s) as [[v' r1]|] eqn:Ev; [|discriminate].
  apply parse_value_suffix, suffix_of_length in Ev.
  pose proof (suffix_of_length _ _ _ (skip_ws_suffix r1)) as Hw.
  destruct (skip_ws r1) as [|d r2]; [discriminate|].
  destruct (d =? 93)%N.
  - intros H. injection H as _ <-. llia.
  - destruct (d =? 44)%N; [|discriminate]. intros H.
    apply parse_elements_suffix, suffix_of_length in H.
    pose proof (suffix_of_length _ _ _ (skip_ws_suffix r2)). llia.
Qed.

Lemma scan_literal_strict (word : string) (v0 v : json) (s r : str) :
  lit word <> [] -> scan_literal word v0 s = Some (v, r) ->
  (length r < length s)%nat.
Proof.
  unfold scan_literal. intros Hw.
  destruct (strip_prefix (lit word) s) as [rest|] eqn:E; [|discriminate].
  intros H. injection H as _ <-. apply strip_prefix_app in E. subst s.
  rewrite length_app. destruct (lit word); [contradiction | llia].
Qed.

Lemma parse_value_strict (f : nat) (s r : str) (v : json) :
  parse_value f s = Some (v, r) -> (length r < length s)%nat.
Proof.
  destruct f as [|f]; [discriminate|]. cbn [parse_value].
  destruct s as [|c s]; [discriminate|].
  destruct (c =? 34)%N.
  { destruct (scan_string f s) as [[x rest]|] eqn:Es; [|discriminate].
    intros H. injection H as _ <-.
    apply scan_string_suffix, suffix_of_length in Es. llia. }
  pose proof (suffix_of_length _ _ _ (skip_ws_suffix s)) as Hw.
  destruct (c =? 123)%N.
  { destruct (skip_ws s) as [|c' rest].
    - intros H. apply parse_members_suffix in H. llia.
    - destruct (c' =? 125)%N.
      + intros H. injection H as _ <-. llia.
      + intros H. apply parse_members_suffix in H. llia. }
  destruct (c =? 91)%N.
  { destruct (skip_ws s) as [|c' rest].
    - intros H. apply parse_elements_strict in H. llia.
    - destruct (c' =? 93)%N.
      + intros H. injection H as _ <-. llia.
      + intros H. apply parse_elements_strict in H. llia. }
  destruct (c =? 110)%N; [apply scan_literal_strict; discriminate|].
  destruct (c =? 116)%N; [apply scan_literal_strict; discriminate|].
  destruct (c =? 102)%N; [apply scan_literal_strict; discriminate|].
  destruct (c =? 78)%N; [apply scan_literal_strict; discriminate|].
  destruct (c =? 73)%N; [apply scan_literal_strict; discriminate|].
  destruct (scan_literal "-Infinity" _ (c :: s)) as [res|] eqn:El.
  - intros H. injection H as ->. revert El. apply scan_literal_strict. discriminate.
  - apply scan_number_strict.
Qed.

Lemma suffix_of_app_tail (A : Type) (x t : list A) : suffix_of t (x ++ t).
Proof. now exists x. Qed.

(** Truncation. A parse of [s ++ t] that leaves [t] untouched is the same
    parse of [s] alone, with any fuel that covers what is consumed. *)
Lemma parser_truncate (fuel : nat) :
  (forall s t v r fuel',
      parse_value fuel (s ++ t) = Some (v, r ++ t) ->
      (length s - length r <= fuel')%nat ->
      parse_value fuel' s = Some (v, r))
  /\ (forall s t acc v r fuel',
        parse_members fuel (s ++ t) acc = Some (v, r ++ t) ->
        (length s - length r <= fuel')%nat ->
        parse_members fuel' s acc = Some (v, r))
  /\ (forall s t acc v r fuel',
        parse_elements fuel (s ++ t) acc = Some (v, r ++ t) ->
        (length s - length r <= fuel')%nat ->
        parse_elements fuel' s acc = Some (v, r)).
Proof.
  induction fuel as [|f (IHv & IHm & IHe)].
  { repeat split; intros; discriminate. }
  split; [|split].
  - (* parse_value *)
    intros s t v r fuel' H Hf.
    assert (Hstrict : (length r < length s)%nat).
    { pose proof (parse_value_strict _ _ _ _ H) as L. rewrite !length_app in L. llia. }
    destruct s as [|c s]; [llia|].
    destruct fuel' as [|f']; [llia|].
    assert (Hf' : forall x y : str, suffix_of x s -> suffix_of r y ->
                  (length x - length y <= f')%nat).
    { intros x y Hx Hy. apply suffix_of_length in Hx, Hy. llia. }
    change ((c :: s) ++ t) with (c :: s ++ t) in H.
    cbn [parse_value] in H. cbn [parse_value].
    destruct (c =? 34)%N.
    { destruct (scan_string f (s ++ t)) as [[x rest]|] eqn:Es; [|discriminate].
      injection H as <- ->.
      rewrite (scan_string_truncate f s t x r f' Es); [reflexivity|].
      apply Hf'; apply suffix_of_refl. }
    destruct (c =? 123)%N.
    { pose proof (skip_ws_suffix (s ++ t)) as Sw.
      destruct (skip_ws (s ++ t)) as [|c' rest] eqn:Ew.
      - cbn in H. destruct f; discriminate.
      - assert (Sr : suffix_of (r ++ t) (c' :: rest)).
        { destruct (c' =? 125)%N.
          - injection H as _ <-. apply suffix_of_cons, suffix_of_refl.
          - now apply parse_members_suffix in H. }
        destruct (suffix_sandwich _ r s t (c' :: rest) Sr Sw) as (y & Ey & Hry & Hys).
        rewrite Ey in Ew. rewrite (skip_ws_truncate s t y Ew).
        destruct y as [|c'' y].
        + exfalso. simpl in Ey. subst t. apply suffix_self_app in Sr. subst r.
          destruct (c' =? 125)%N.
          * injection H as _ H. apply (f_equal (@length char)) in H. simpl in H. lia.
          * apply parse_members_suffix in H. simpl in H. lia.
        + injection Ey as <- ->. destruct (c' =? 125)%N.
          * injection H as <- H. apply app_inv_tail in H. now subst.
          * apply (IHm (c' :: y) t [] v r f' H).
            apply Hf'; [exact Hys | apply suffix_of_refl]. }
    destruct (c =? 91)%N.
    { pose proof (skip_ws_suffix (s ++ t)) as Sw.
      destruct (skip_ws (s ++ t)) as [|c' rest] eqn:Ew.
      - cbn in H. destruct f as [|[|f0]]; discriminate.
      - assert (Sr : suffix_of (r ++ t) (c' :: rest)).
        { destruct (c' =? 93)%N.
          - injection H as _ <-. apply suffix_of_cons, suffix_of_refl.
          - now apply parse_elements_suffix in H. }
        destruct (suffix_sandwich _ r s t (c' :: rest) Sr Sw) as (y & Ey & Hry & Hys).
        rewrite Ey in Ew. rewrite (skip_ws_truncate s t y Ew).
        destruct y as [|c'' y].
        + exfalso. simpl in Ey. subst t. apply suffix_self_app in Sr. subst r.
          destruct (c' =? 93)%N.
          * injection H as _ H. apply (f_equal (@length char)) in H. simpl in H. lia.
          * apply parse_elements_strict in H. simpl in H. lia.
        + injection Ey as <- ->. destruct (c' =? 93)%N.
          * injection H as <- H. apply app_inv_tail in H. now subst.
          * apply (IHe (c' :: y) t [] v r f' H).
            apply Hf'; [exact Hys | apply suffix_of_refl]. }
    change (c :: s ++ t) with ((c :: s) ++ t) in H.
    destruct (c =? 110)%N; [exact (scan_literal_truncate _ _ _ _ _ _ H)|].
    destruct (c =? 116)%N; [exact (scan_literal_truncate _ _ _ _ _ _ H)|].
    destruct (c =? 102)%N; [exact (scan_literal_truncate _ _ _ _ _ _ H)|].
    destruct (c =? 78)%N; [exact (scan_literal_truncate _ _ _ _ _ _ H)|].
    destruct (c =? 73)%N; [exact (scan_literal_truncate _ _ _ _ _ _ H)|].
    destruct (scan_literal "-Infinity" _ ((c :: s) ++ t)) as [res|] eqn:El.
    + injection H as ->. now rewrite (scan_literal_truncate _ _ _ _ _ _ El).
    + destruct (scan_literal "-Infinity" _ (c :: s)) as [[v2 r2]|] eqn:El2.
      * exfalso. unfold scan_literal in El, El2.
        destruct (strip_prefix (lit "-Infinity") (c :: s)) as [rest|] eqn:Ep; [|discriminate].
        apply strip_prefix_app in Ep. rewrite Ep, <- app_assoc, strip_prefix_self in El.
        discriminate.
      * exact (scan_number_truncate _ _ _ _ H).
  - (* parse_members *)
    intros s t acc v r fuel' H Hf.
    assert (Hstrict : (length r < length s)%nat).
    { pose proof (proj2 (parse_members_suffix _ _ _ _ _ H)) as L.
      rewrite !length_app in L. llia. }
    destruct s as [|q s]; [llia|].
    destruct fuel' as [|f']; [llia|].
    assert (Hf' : forall x y : str, suffix_of x s -> suffix_of r y ->
                  (length x - length y <= f')%nat).
    { intros x y Hx Hy. apply suffix_of_length in Hx, Hy. llia. }
    change ((q :: s) ++ t) with (q :: s ++ t) in H.
    cbn [parse_members] in H. cbn [parse_members].
    destruct (q =? 34)%N; [|discriminate].
    destruct (scan_string f (s ++ t)) as [[key r1]|] eqn:Es; [|discriminate].
    pose proof (scan_string_suffix _ _ _ _ Es) as S1.
    pose proof (skip_ws_suffix r1) as W1.
    destruct (skip_ws r1) as [|colon r2] eqn:Ew1; [discriminate|].
    destruct (colon =? 58)%N eqn:Hcolon; [|discriminate].
    pose proof (skip_ws_suffix r2) as W2.
    destruct (parse_value f (skip_ws r2)) as [[v' r3]|] eqn:Ev; [|discriminate].
    pose proof (parse_value_suffix _ _ _ _ Ev) as S3.
    pose proof (skip_ws_suffix r3) as W3.
    destruct (skip_ws r3) as [|d r4] eqn:Ew3; [discriminate|].
    assert (S4 : suffix_of (r ++ t) r4).
    { destruct (d =? 125)%N.
      - injection H as _ <-. apply suffix_of_refl.
      - destruct (d =? 44)%N; [|discriminate].
        apply parse_members_suffix in H. destruct H as [H _].
        eapply suffix_of_trans; [exact H | apply skip_ws_suffix]. }
    (* every intermediate rest ends with [t] *)
    assert (T4 : suffix_of r4 (d :: r4)) by apply suffix_of_cons, suffix_of_refl.
    assert (U3 : suffix_of (d :: r4) (s ++ t)).
    { eapply suffix_of_trans; [exact W3|]. eapply suffix_of_trans; [exact S3|].
      eapply suffix_of_trans; [exact W2|].
      eapply suffix_of_trans; [apply suffix_of_cons, suffix_of_refl|].
      eapply suffix_of_trans; [exact W1 | exact S1]. }
    destruct (suffix_sandwich _ r s t r4 S4 (suffix_of_trans _ _ _ _ T4 U3))
      as (x4 & E4 & Hr4 & Hx4). subst r4.
    assert (L3 : suffix_of (x4 ++ t) r3)
      by (eapply suffix_of_trans; [exact T4 | exact W3]).
    assert (U2 : suffix_of r3 (s ++ t)).
    { eapply suffix_of_trans; [exact S3|]. eapply suffix_of_trans; [exact W2|].
      eapply suffix_of_trans; [apply suffix_of_cons, suffix_of_refl|].
      eapply suffix_of_trans; [exact W1 | exact S1]. }
    destruct (suffix_sandwich _ x4 s t r3 L3 U2) as (x3 & E3 & Hr3 & Hx3). subst r3.
    assert (Lw : suffix_of (x3 ++ t) (skip_ws r2)) by exact S3.
    assert (Uw : suffix_of (skip_ws r2) (s ++ t)).
    { eapply suffix_of_trans; [exact W2|].
      eapply suffix_of_trans; [apply suffix_of_cons, suffix_of_refl|].
      eapply suffix_of_trans; [exact W1 | exact S1]. }
    destruct (suffix_sandwich _ x3 s t (skip_ws r2) Lw Uw) as (y2 & Ey2 & Hry2 & Hy2).
    assert (L2 : suffix_of (y2 ++ t) r2) by (rewrite <- Ey2; exact W2).
    assert (U1 : suffix_of r2 (s ++ t)).
    { eapply suffix_of_trans; [apply suffix_of_cons, suffix_of_refl|].
      eapply suffix_of_trans; [exact W1 | exact S1]. }
    destruct (suffix_sandwich _ y2 s t r2 L2 U1) as (x2 & E2 & Hr2 & Hx2). subst r2.
    assert (L1 : suffix_of ((colon :: x2) ++ t) r1) by exact W1.
    destruct (suffix_sandwich _ (colon :: x2) s t r1 L1 S1) as (x1 & E1 & Hr1 & Hx1).
    subst r1.
    (* the same steps on [s] alone *)
    rewrite (scan_string_truncate f s t key x1 f' Es).
    2:{ apply Hf'; [apply suffix_of_refl|].
        eapply suffix_of_trans; [exact Hr4|]. eapply suffix_of_trans; [exact Hr3|].
        eapply suffix_of_trans; [exact Hry2|]. eapply suffix_of_trans; [exact Hr2|].
        eapply suffix_of_trans; [|exact Hr1]. apply suffix_of_cons, suffix_of_refl. }
    rewrite (skip_ws_truncate x1 t (colon :: x2) Ew1), Hcolon.
    rewrite (skip_ws_truncate x2 t y2 Ey2).
    rewrite Ey2 in Ev.
    rewrite (IHv y2 t v' x3 f' Ev).
    2:{ apply Hf'.
        - eapply suffix_of_trans; [exact Hy2|]. apply suffix_of_refl.
        - eapply suffix_of_trans; [exact Hr4 | exact Hr3]. }
    rewrite (skip_ws_truncate x3 t (d :: x4) Ew3).
    destruct (d =? 125)%N.
    + injection H as <- H. apply app_inv_tail in H. now subst.
    + destruct (d =? 44)%N; [|discriminate].
      pose proof (proj1 (parse_members_suffix _ _ _ _ _ H)) as Sm.
      destruct (suffix_sandwich _ r s t (skip_ws (x4 ++ t)) Sm
                  (suffix_of_trans _ _ _ _ (skip_ws_suffix _)
                     (suffix_of_trans _ _ _ _ T4 U3)))
        as (z & Ez & Hrz & Hz).
      rewrite (skip_ws_truncate x4 t z Ez). rewrite Ez in H.
      apply (IHm z t _ v r f' H). apply Hf'; [exact Hz | apply suffix_of_refl].
  - (* parse_elements *)
    intros s t acc v r fuel' H Hf.
    cbn [parse_elements] in H.
    destruct (parse_value f (s ++ t)) as [[v' r1]|] eqn:Ev; [|discriminate].
    pose proof (parse_value_suffix _ _ _ _ Ev) as S1.
    pose proof (skip_ws_suffix r1) as W1.
    destruct (skip_ws r1) as [|d r2] eqn:Ew1; [discriminate|].
    assert (S2 : suffix_of (r ++ t) r2).
    { destruct (d =? 93)%N.
      - injection H as _ <-. apply suffix_of_refl.
      - destruct (d =? 44)%N; [|discriminate].
        apply parse_elements_suffix in H.
        eapply suffix_of_trans; [exact H | apply skip_ws_suffix]. }
    assert (T2 : suffix_of r2 (d :: r2)) by apply suffix_of_cons, suffix_of_refl.
    assert (U1 : suffix_of (d :: r2) (s ++ t))
      by (eapply suffix_of_trans; [exact W1 | exact S1]).
    destruct (suffix_sandwich _ r s t r2 S2 (suffix_of_trans _ _ _ _ T2 U1))
      as (x2 & E2 & Hr2 & Hx2). subst r2.
    assert (L1 : suffix_of ((d :: x2) ++ t) r1) by exact W1.
    destruct (suffix_sandwich _ (d :: x2) s t r1 L1 S1) as (x1 & E1 & Hr1 & Hx1).
    subst r1.
    assert (Hlen : (length r < length x1 <= length s)%nat).
    { apply suffix_of_length in Hr2, Hr1, Hx1. llia. }
    destruct fuel' as [|f']; [llia|].
    cbn [parse_elements].
    rewrite (IHv s t v' x1 f' Ev); [|llia].
    rewrite (skip_ws_truncate x1 t (d :: x2) Ew1).
    destruct (d =? 93)%N.
    + injection H as <- H. apply app_inv_tail in H. now subst.
    + destruct (d =? 44)%N; [|discriminate].
      pose proof (parse_elements_suffix _ _ _ _ _ H) as Se.
      destruct (suffix_sandwich _ r x2 t (skip_ws (x2 ++ t)) Se (skip_ws_suffix _))
        as (z & Ez & Hrz & Hz).
      rewrite (skip_ws_truncate x2 t z Ez). rewrite Ez in H.
      apply (IHe z t _ v r f' H).
      apply suffix_of_length in Hz, Hr1, Hx1. llia.
Qed.

(** A text that [json.loads] reads as an object is the text of that object
    between whitespace, and the object text alone is read as the same
    object. *)
Lemma json_loads_object_core (t : str) (kvs : dict) :
  json_loads t = Some (JObject kvs) ->
  exists a body b,
    t = a ++ object_text body ++ b
    /\ forallb is_space a = true /\ forallb is_space b = true
    /\ json_loads (object_text body) = Some (JObject kvs).
Proof.
  unfold json_loads at 1.
  destruct (match t with c :: _ => (c =? 65279)%N | [] => false end); [discriminate|].
  destruct (parse_value _ (skip_ws t)) as [[v rest]|] eqn:Ev; [|discriminate].
  destruct (is_empty (skip_ws rest)) eqn:Er; [|discriminate].
  intros H. injection H as ->.
  apply is_empty_true in Er. apply skip_ws_nil, json_ws_all_space in Er.
  destruct (skip_ws_decompose t) as (a & Ha & Et). apply json_ws_all_space in Ha.
  destruct (proj1 (parser_shape _) _ _ _ Ev) as [_ Hobj].
  destruct (Hobj kvs eq_refl) as (body & Hbody).
  exists a, body, rest. split; [|split; [exact Ha | split; [exact Er|]]].
  - rewrite Et at 1. rewrite Hbody. unfold object_text. simpl.
    rewrite <- app_assoc. reflexivity.
  - assert (E : skip_ws t = object_text body ++ [] ++ rest).
    { rewrite Hbody. unfold object_text. simpl. rewrite <- app_assoc. reflexivity. }
    rewrite E in Ev. change ([] ++ rest) with rest in Ev.
    change rest with ([] ++ rest) in Ev at 2.
    unfold json_loads. unfold object_text at 1. cbv beta iota.
    change (123 =? 65279)%N with false. cbv beta iota.
    change (skip_ws (object_text body)) with (object_text body).
    rewrite (proj1 (parser_truncate _) (object_text body) rest (JObject kvs) []
               (2 * length (object_text body) + 2)%nat Ev); [reflexivity|].
    simpl. lia.
Qed.

(* ===================================================================== *)
(** * JSON extraction: fenced responses                                  *)
(* ===================================================================== *)

Lemma forallb_app_true (A : Type) (f : A -> bool) (a b : list A) :
  forallb f a = true -> forallb f b = true -> forallb f (a ++ b) = true.
Proof. intros Ha Hb. rewrite forallb_app, Ha, Hb. reflexivity. Qed.

Lemma extract_json_direct (x : str) (v : json) :
  json_loads (clean_fences x) = Some v -> _extract_json (Some x) = inr v.
Proof. intros E. unfold _extract_json. fold (clean_fences x). now rewrite E. Qed.

(** C8. For a text [t] that [json.loads] reads as an object, wrapping [t]
    in an opening fence, with or without the [json] tag, and a closing
    fence, with any whitespace around the fences and around [t], does not
    change what [_extract_json] returns: fence stripping gives the parser
    the same text, the object from its opening to its closing brace, and
    what is returned, wrapped or not, is the dictionary [json.loads] reads
    from [t]. *)
Theorem fence_round_trip (t w1 w2 w3 w4 : str) (kvs : dict) :
  json_loads t = Some (JObject kvs) ->
  forallb is_space w1 = true -> forallb is_space w2 = true ->
  forallb is_space w3 = true -> forallb is_space w4 = true ->
  _extract_json (Some (w1 ++ BACKTICKS ++ lit "json" ++ w2 ++ t ++ w3 ++ BACKTICKS ++ w4))
  = _extract_json (Some t)
  /\ _extract_json (Some (w1 ++ BACKTICKS ++ w2 ++ t ++ w3 ++ BACKTICKS ++ w4))
     = _extract_json (Some t)
  /\ _extract_json (Some t) = inr (JObject kvs)
  /\ clean_fences (w1 ++ BACKTICKS ++ lit "json" ++ w2 ++ t ++ w3 ++ BACKTICKS ++ w4)
     = clean_fences t
  /\ clean_fences (w1 ++ BACKTICKS ++ w2 ++ t ++ w3 ++ BACKTICKS ++ w4) = clean_fences t.
Proof.
  intros Ht H1 H2 H3 H4.
  destruct (json_loads_object_core t kvs Ht) as (a & body & b & -> & Ha & Hb & Hcore).
  assert (Ec : clean_fences (a ++ object_text body ++ b) = object_text body)
    by now apply clean_fences_object.
  assert (E1 : clean_fences (w1 ++ BACKTICKS ++ lit "json" ++ w2
                               ++ (a ++ object_text body ++ b)
                               ++ w3 ++ BACKTICKS ++ w4)
               = object_text body).
  { etransitivity;
      [|apply (clean_fences_json_fence w1 (w2 ++ a) (b ++ w3) w4 body);
        auto using forallb_app_true].
    f_equal. rewrite <- !app_assoc. reflexivity. }
  assert (E2 : clean_fences (w1 ++ BACKTICKS ++ w2
                               ++ (a ++ object_text body ++ b)
                               ++ w3 ++ BACKTICKS ++ w4)
               = object_text body).
  { etransitivity;
      [|apply (clean_fences_bare_fence w1 (w2 ++ a) (b ++ w3) w4 body);
        auto using forallb_app_true].
    f_equal. rewrite <- !app_assoc. reflexivity. }
  repeat split.
  - apply extract_json_clean. etransitivity; [exact E1 | symmetry; exact Ec].
  - apply extract_json_clean. etransitivity; [exact E2 | symmetry; exact Ec].
  - apply extract_json_direct. rewrite Ec. exact Hcore.
  - etransitivity; [exact E1 | symmetry; exact Ec].
  - etransitivity; [exact E2 | symmetry; exact Ec].
Qed.

Lemma fence_round_trip_witness :
  json_loads fenced_example = Some (JObject [(lit "a", JInt 1)])
  /\ _extract_json (Some ([NL] ++ BACKTICKS ++ lit "json" ++ [NL] ++ fenced_example
                            ++ [NL] ++ BACKTICKS ++ [SP]))
     = _extract_json (Some fenced_example).
Proof.
  split; [reflexivity|].
  exact (proj1 (fence_round_trip fenced_example [NL] [NL] [NL] [SP] [(lit "a", JInt 1)]
                  eq_refl eq_refl eq_refl eq_refl eq_refl)).
Defined.

(* ===================================================================== *)
(** * The section generator: what is returned                            *)
(* ===================================================================== *)

Lemma run_bind (Q R A B : Type) (oracle : nat -> Q -> exn + R) (m : prog Q R A)
    (f : A -> prog Q R B) :
  forall i,
    run oracle i (bind m f)
    = match run oracle i m with
      | (tr, inl e) => (tr, inl e)
      | (tr, inr a) =>
          (tr ++ fst (run oracle (i + length tr) (f a)),
           snd (run oracle (i + length tr) (f a)))
      end.
Proof.
  induction m as [a|e|q k IH]; intros i; simpl.
  - rewrite Nat.add_0_r. now destruct (run oracle i (f a)).
  - reflexivity.
  - destruct (oracle i q) as [e|r]; [reflexivity|].
    rewrite IH. destruct (run oracle (S i) (k r)) as [tr [e|a]]; [reflexivity|].
    simpl. now rewrite Nat.add_succ_r.
Qed.

Lemma str_eqb_refl (a : str) : str_eqb a a = true.
Proof. unfold str_eqb. destruct (list_eq_dec N.eq_dec a a); congruence. Qed.

Lemma str_eqb_eq (a b : str) : str_eqb a b = true -> a = b.
Proof. unfold str_eqb. destruct (list_eq_dec N.eq_dec a b); congruence. Qed.

Lemma dict_lookup_set (d : dict) (k k' : str) (v : json) :
  dict_lookup (dict_set d k v) k' = if str_eqb k k' then Some v else dict_lookup d k'.
Proof.
  induction d as [|[k0 v0] d IH]; simpl.
  - reflexivity.
  - destruct (str_eqb k0 k) eqn:E0; simpl.
    + apply str_eqb_eq in E0. rewrite E0. destruct (str_eqb k k'); reflexivity.
    + rewrite IH. destruct (str_eqb k0 k') eqn:E1; [|reflexivity].
      destruct (str_eqb k k') eqn:E2; [|reflexivity].
      apply str_eqb_eq in E1. apply str_eqb_eq in E2.
      rewrite E1, E2, str_eqb_refl in E0. discriminate.
Qed.

Lemma dict_lookup_setdefault (d : dict) (k k' : str) (v : json) :
  dict_lookup (dict_setdefault d k v) k'
  = match dict_lookup d k' with
    | Some x => Some x
    | None => if str_eqb k k' then Some v else None
    end.
Proof.
  unfold dict_setdefault. destruct (dict_lookup d k) as [x|] eqn:E.
  - destruct (dict_lookup d k') eqn:E'; [reflexivity|].
    destruct (str_eqb k k') eqn:Ek; [|reflexivity].
    apply str_eqb_eq in Ek. congruence.
  - rewrite dict_lookup_set. destruct (str_eqb k k') eqn:Ek.
    + apply str_eqb_eq in Ek. subst. now rewrite E.
    + now destruct (dict_lookup d k').
Qed.

Lemma len_pad_or_truncate (kt : list json) (k : Z) :
  0 <= k -> len (pad_or_truncate kt k) = k.
Proof.
  intros Hk. unfold pad_or_truncate, len.
  destruct (Z.ltb_spec (Z.of_nat (length kt)) k).
  - rewrite length_app, repeat_length. lia.
  - destruct (Z.gtb_spec (Z.of_nat (length kt)) k).
    + rewrite length_firstn. lia.
    + lia.
Qed.

Lemma run_call (oracle : nat -> llm_request -> exn + option str) (i : nat)
    (model prompt : str) :
  run oracle i (_call model prompt)
  = ([{| rq_model := model; rq_prompt := prompt |}],
     match oracle i {| rq_model := model; rq_prompt := prompt |} with
     | inl e => inl e
     | inr content =>
         match _extract_json content with
         | inl e => inl e
         | inr data => normalize_null_takeaways data
         end
     end).
Proof.
  unfold _call. cbn [run].
  destruct (oracle i _) as [e|content]; [reflexivity|].
  destruct (_extract_json content) as [e|data]; [reflexivity|].
  destruct (normalize_null_takeaways data); reflexivity.
Qed.

(** What [generate_sections] returns for a requested count [k >= 0]: a
    [key_takeaways] list of length [k], except when [k = 0] and the first
    answer carries a [key_takeaways] that is not a list, which is returned
    as it came, after a single request. *)
Lemma generate_sections_takeaways (oracle : nat -> llm_request -> exn + option str)
    (text model : str) (summary_words k : Z) (tr : list llm_request) (d : dict) :
  0 <= k ->
  run oracle 0 (generate_sections text model summary_words (Some k)) = (tr, inr d) ->
  (exists items, dict_lookup d K_TAKEAWAYS = Some (JArray items) /\ len items = k)
  \/ (k = 0 /\ length tr = 1%nat
      /\ exists v, dict_lookup d K_TAKEAWAYS = Some v /\ forall items, v <> JArray items).
Proof.
  intros Hk. unfold generate_sections.
  generalize (build_prompt text summary_words (Some k)). intros prompt.
  rewrite run_bind, run_call.
  destruct (oracle 0%nat _) as [e|content]; [discriminate|].
  destruct (_extract_json content) as [e|data0]; [discriminate|].
  destruct (normalize_null_takeaways data0) as [e|data]; [discriminate|].
  cbn [length Nat.add]. rewrite run_bind. unfold validate_takeaways.
  destruct (Z.geb_spec k 0) as [_|Hneg]; [|lia].
  destruct data as [| | | | |items|d1]; try discriminate.
  cbn [as_dict bind].
  assert (Hfinal : forall d' items,
            dict_lookup d' K_TAKEAWAYS = Some (JArray items) ->
            dict_lookup (dict_setdefault (dict_setdefault d' K_SUMMARY (JString []))
                                         K_TAKEAWAYS (JArray []))
                        K_TAKEAWAYS = Some (JArray items)).
  { intros d' items' E. rewrite !dict_lookup_setdefault, E. reflexivity. }
  destruct (Z.eqb_spec (len (takeaways_list d1)) k) as [Hlen|Hlen]; cbn [negb].
  - (* the first answer has the requested count *)
    cbn [run length Nat.add app fst snd as_dict bind].
    intros H. injection H as <- <-.
    unfold takeaways_list, dict_get in Hlen.
    destruct (dict_lookup d1 K_TAKEAWAYS) as [v|] eqn:Ev.
    + destruct v as [| | | | |items|kvs];
        try (right; split; [unfold len in Hlen; simpl in Hlen; lia|];
             split; [reflexivity|];
             eexists; split;
             [rewrite !dict_lookup_setdefault, Ev; reflexivity | discriminate]).
      left. exists items. split; [now apply Hfinal | exact Hlen].
    + left. exists []. split; [|exact Hlen].
      rewrite !dict_lookup_setdefault, Ev. reflexivity.
  - (* one retry, then the local repair *)
    change (Call {| rq_model := model; rq_prompt := prompt |} _)
      with (bind (_call model prompt)
                 (fun data2 => bind (as_dict llm_request (option str) data2)
                    (fun d2 => Ret (JObject (dict_set d2 K_TAKEAWAYS
                       (JArray (pad_or_truncate (takeaways_list d2) k))))))).
    rewrite run_bind, run_call.
    destruct (oracle 1%nat _) as [e|content2]; [discriminate|].
    destruct (_extract_json content2) as [e|data1]; [discriminate|].
    destruct (normalize_null_takeaways data1) as [e|data2]; [discriminate|].
    destruct data2 as [| | | | |items|d2]; try discriminate.
    cbn [run length Nat.add app fst snd as_dict bind].
    intros H. injection H as <- <-.
    left. exists (pad_or_truncate (takeaways_list d2) k).
    split; [|now apply len_pad_or_truncate].
    apply Hfinal. rewrite dict_lookup_set, str_eqb_refl. reflexivity.
Qed.

(* ===================================================================== *)
(** * Whitespace normalisation                                           *)
(* ===================================================================== *)

(** X1. [_normalize_whitespace] returns the words of its argument joined by
    single spaces ([None] counts as the empty string); it keeps the words
    and is idempotent. *)
Theorem normalize_whitespace_canonical (raw : option str) :
  let s := match raw with Some x => x | None => [] end in
  _normalize_whitespace raw = join [SP] (split_ws s)
  /\ Forall word_ok (split_ws s)
  /\ split_ws (_normalize_whitespace raw) = split_ws s
  /\ _normalize_whitespace (Some (_normalize_whitespace raw)) = _normalize_whitespace raw.
Proof.
  destruct raw as [x|]; cbv zeta.
  - split; [apply normalize_join|].
    split; [apply split_ws_words_ok|].
    split; [apply split_ws_normalize | apply normalize_idempotent].
  - repeat split. constructor.
Qed.


(* ===================================================================== *)
(** * The chunk builder: one chunk, partition, overlap                   *)
(* ===================================================================== *)

Lemma words_of_app (a b : list str) : words_of (a ++ b) = words_of a ++ words_of b.
Proof. unfold words_of. now rewrite map_app, concat_app. Qed.

Lemma words_of_one (s : str) : words_of [s] = split_ws s.
Proof. unfold words_of. simpl. apply app_nil_r. Qed.

(** The final clean-up of [_chunk_by_words] keeps the words. *)
Lemma words_of_chunk_output (raw : list str) :
  words_of (map (fun c => _normalize_whitespace (Some c))
                (filter (fun c => negb (is_empty (_normalize_whitespace (Some c)))) raw))
  = words_of raw.
Proof.
  induction raw as [|c raw IH]; [reflexivity|].
  change (c :: raw) with ([c] ++ raw). rewrite words_of_app, words_of_one. simpl filter.
  rewrite is_empty_normalize.
  destruct (split_ws c) eqn:E; simpl.
  - exact IH.
  - change (?x :: ?l) with ([x] ++ l) at 1.
    rewrite words_of_app, words_of_one, split_ws_normalize, IH, E. reflexivity.
Qed.

Lemma raw_chunks_words (t o : Z) (sentences : list str) :
  words_of (raw_chunks t o sentences)
  = words_of (chunks (chunk_loop t o sentences))
    ++ words_of (current (chunk_loop t o sentences)).
Proof.
  unfold raw_chunks. destruct (current (chunk_loop t o sentences)) as [|x l] eqn:E.
  - simpl. now rewrite app_nil_r.
  - cbn [is_empty]. rewrite words_of_app, words_of_one, split_ws_join. reflexivity.
Qed.

(** X2. Sentences that together have no more than [target_chunk_words] words
    give one chunk, which holds all their words (none when there is no
    word). *)
Theorem chunk_single_when_fits (sentences : list str)
    (target_chunk_words overlap_words : Z) :
  len (words_of sentences) <= target_chunk_words ->
  _chunk_by_words sentences target_chunk_words overlap_words
  = match words_of sentences with
    | [] => []
    | ws => [join [SP] ws]
    end.
Proof.
  intros Hfit.
  assert (Hinv : len (words_of sentences) <= target_chunk_words ->
                 chunks (chunk_loop target_chunk_words overlap_words sentences) = []
                 /\ current (chunk_loop target_chunk_words overlap_words sentences) = sentences
                 /\ current_words (chunk_loop target_chunk_words overlap_words sentences)
                    = len (words_of sentences)).
  { unfold chunk_loop.
    apply (fold_left_invariant _ _ (chunk_step target_chunk_words overlap_words)
             (fun done st => len (words_of done) <= target_chunk_words ->
                             chunks st = [] /\ current st = done
                             /\ current_words st = len (words_of done))).
    - intros _. repeat split.
    - intros done st sent IH Hle.
      rewrite words_of_app, words_of_one, len_app in Hle.
      pose proof (len_nonneg _ (split_ws sent)) as Hs.
      pose proof (len_nonneg _ (words_of done)) as Hd.
      destruct IH as (Hc & Hcur & Hw); [lia|].
      unfold chunk_step.
      replace (current_words st + sentence_len sent >? target_chunk_words) with false
        by (symmetry; rewrite Z.gtb_ltb; apply Z.ltb_ge; unfold sentence_len; lia).
      simpl. repeat split; [exact Hc | now rewrite Hcur |].
      rewrite words_of_app, words_of_one, len_app, Hw. reflexivity. }
  destruct (Hinv Hfit) as (Hc & Hcur & _).
  unfold _chunk_by_words, raw_chunks. rewrite Hc, Hcur.
  destruct sentences as [|s ss]; [reflexivity|].
  cbn [is_empty app filter].
  rewrite is_empty_normalize, split_ws_join. fold (words_of (s :: ss)).
  destruct (words_of (s :: ss)) eqn:E; cbn [is_empty negb map]; [reflexivity|].
  rewrite normalize_join, split_ws_join. fold (words_of (s :: ss)). now rewrite E.
Qed.

Lemma chunk_single_when_fits_witness :
  len (words_of (map lit ["a b."; " c d. "]%string)) <= 4
  /\ _chunk_by_words (map lit ["a b."; " c d. "]%string) 4 1 = [lit "a b. c d."].
Proof.
  split; [vm_compute; discriminate|].
  rewrite (chunk_single_when_fits (map lit ["a b."; " c d. "]%string) 4 1).
  - reflexivity.
  - vm_compute. discriminate.
Defined.

(** X3. Without overlap ([overlap_words <= 0]) the chunks partition the
    words of the sentences: in order, nothing lost and nothing repeated. *)
Theorem chunk_partition_without_overlap (sentences : list str)
    (target_chunk_words overlap_words : Z) :
  overlap_words <= 0 ->
  words_of (_chunk_by_words sentences target_chunk_words overlap_words)
  = words_of sentences.
Proof.
  intros Ho. unfold _chunk_by_words.
  rewrite words_of_chunk_output, raw_chunks_words. unfold chunk_loop.
  apply (fold_left_invariant _ _ (chunk_step target_chunk_words overlap_words)
           (fun done st => words_of (chunks st) ++ words_of (current st) = words_of done)).
  - reflexivity.
  - intros done st sent IH. unfold chunk_step.
    replace (overlap_words >? 0) with false by (symmetry; rewrite Z.gtb_ltb; apply Z.ltb_ge; lia).
    destruct ((current_words st + sentence_len sent >? target_chunk_words)
              && negb (is_empty (current st))); simpl.
    + rewrite !words_of_app, !words_of_one, split_ws_join. fold (words_of (current st)).
      now rewrite IH.
    + rewrite !words_of_app, app_assoc. now rewrite IH.
Qed.

Lemma chunk_partition_without_overlap_witness :
  0 <= 0
  /\ words_of (_chunk_by_words (map lit ["a b c"; "d e"; "f g h"]%string) 4 0)
     = map lit ["a"; "b"; "c"; "d"; "e"; "f"; "g"; "h"]%string.
Proof.
  split; [lia|].
  rewrite (chunk_partition_without_overlap (map lit ["a b c"; "d e"; "f g h"]%string) 4 0).
  - reflexivity.
  - lia.
Defined.

Lemma chained_nil (A : Type) (R : A -> A -> Prop) : chained R [].
Proof. intros [|? ?] ? ? ? E; discriminate. Qed.

Lemma chained_snoc (A : Type) (R : A -> A -> Prop) (l : list A) (y : A) :
  chained R l -> (forall pre a, l = pre ++ [a] -> R a y) -> chained R (l ++ [y]).
Proof.
  intros Hl Hy pre a b post E.
  apply snoc_eq_cons2 in E. destruct E as [(-> & -> & E)|(post' & -> & E)].
  - exact (Hy pre a E).
  - exact (Hl pre a b post' E).
Qed.

Lemma chained_map (A B : Type) (R : A -> A -> Prop) (R' : B -> B -> Prop) (f : A -> B)
    (l : list A) :
  (forall a b, R a b -> R' (f a) (f b)) -> chained R l -> chained R' (map f l).
Proof.
  intros Hf Hl pre a b post E.
  apply map_eq_app in E. destruct E as (l1 & l2 & -> & _ & E).
  apply map_eq_cons in E. destruct E as (a' & l3 & -> & <- & E).
  apply map_eq_cons in E. destruct E as (b' & l4 & -> & <- & _).
  apply Hf. exact (Hl l1 a' b' l4 eq_refl).
Qed.

Lemma split_ws_last_n_join (n : nat) (s : str) :
  split_ws (join [SP] (last_n n (split_ws s))) = last_n n (split_ws s).
Proof. apply split_ws_join_words. unfold last_n. apply Forall_skipn, split_ws_words_ok. Qed.

(** What the loop of [_chunk_by_words] maintains when it seeds each new
    chunk with the tail of the one it closed. *)
Lemma chunk_overlap_inv (t o : Z) (sentences : list str) :
  0 < o ->
  Forall (fun s => split_ws s <> []) sentences ->
  let st := chunk_loop t o sentences in
  chained (overlaps (Z.to_nat o)) (chunks st)
  /\ (forall pre a, chunks st = pre ++ [a] ->
        exists rest, words_of (current st) = last_n (Z.to_nat o) (split_ws a) ++ rest)
  /\ Forall (fun c => split_ws c <> []) (chunks st)
  /\ (current st <> [] -> words_of (current st) <> []).
Proof.
  intros Ho. unfold chunk_loop.
  apply (fold_left_invariant _ _ (chunk_step t o)
           (fun done st =>
              Forall (fun s => split_ws s <> []) done ->
              chained (overlaps (Z.to_nat o)) (chunks st)
              /\ (forall pre a, chunks st = pre ++ [a] ->
                    exists rest,
                      words_of (current st) = last_n (Z.to_nat o) (split_ws a) ++ rest)
              /\ Forall (fun c => split_ws c <> []) (chunks st)
              /\ (current st <> [] -> words_of (current st) <> []))).
  - intros _. simpl. repeat split.
    + apply chained_nil.
    + intros [|? ?] ? E; discriminate.
    + constructor.
    + congruence.
  - intros done st sent IH Hall.
    apply Forall_app in Hall. destruct Hall as [Hdone Hsent].
    apply Forall_inv in Hsent.
    destruct (IH Hdone) as (Hchain & Htail & Hwords & Hcur).
    unfold chunk_step.
    replace (o >? 0) with true by (symmetry; rewrite Z.gtb_ltb; apply Z.ltb_lt; lia).
    destruct ((current_words st + sentence_len sent >? t) && negb (is_empty (current st)))
      eqn:Hover; simpl.
    + apply andb_prop in Hover. destruct Hover as [_ Hne].
      apply negb_true_iff, is_empty_false in Hne.
      repeat split.
      * apply chained_snoc; [exact Hchain|].
        intros pre a E. destruct (Htail pre a E) as (rest & Hrest).
        exists rest. now rewrite split_ws_join.
      * intros pre a E. apply app_inj_tail in E. destruct E as [_ <-].
        exists (split_ws sent).
        change [?x; sent] with ([x] ++ [sent]).
        now rewrite words_of_app, !words_of_one, split_ws_last_n_join.
      * apply Forall_app. split; [exact Hwords|]. constructor; [|constructor].
        rewrite split_ws_join. exact (Hcur Hne).
      * intros _.
        change [?x; sent] with ([x] ++ [sent]).
        rewrite words_of_app, !words_of_one. intros E.
        apply app_eq_nil in E. destruct E as [_ E]. contradiction.
    + repeat split.
      * exact Hchain.
      * intros pre a E. destruct (Htail pre a E) as (rest & Hrest).
        exists (rest ++ split_ws sent).
        now rewrite words_of_app, words_of_one, Hrest, app_assoc.
      * exact Hwords.
      * intros _. rewrite words_of_app, words_of_one. intros E.
        apply app_eq_nil in E. destruct E as [_ E]. contradiction.
Qed.

Lemma chunk_overlap_chain (sentences : list str) (target_chunk_words overlap_words : Z) :
  0 < overlap_words ->
  Forall (fun s => split_ws s <> []) sentences ->
  chained (overlaps (Z.to_nat overlap_words))
          (raw_chunks target_chunk_words overlap_words sentences)
  /\ _chunk_by_words sentences target_chunk_words overlap_words
     = map (fun c => _normalize_whitespace (Some c))
           (raw_chunks target_chunk_words overlap_words sentences).
Proof.
  intros Ho Hall.
  destruct (chunk_overlap_inv target_chunk_words overlap_words sentences Ho Hall)
    as (Hchain & Htail & Hwords & Hcur).
  set (st := chunk_loop target_chunk_words overlap_words sentences) in *.
  assert (Hraw : chained (overlaps (Z.to_nat overlap_words))
                         (raw_chunks target_chunk_words overlap_words sentences)
                 /\ Forall (fun c => split_ws c <> [])
                           (raw_chunks target_chunk_words overlap_words sentences)).
  { unfold raw_chunks. fold st. destruct (is_empty (current st)) eqn:E.
    - now split.
    - apply is_empty_false in E. split.
      + apply chained_snoc; [exact Hchain|].
        intros pre a Ea. destruct (Htail pre a Ea) as (rest & Hrest).
        exists rest. now rewrite split_ws_join.
      + apply Forall_app. split; [exact Hwords|]. constructor; [|constructor].
        rewrite split_ws_join. exact (Hcur E). }
  destruct Hraw as [Hc Hne]. split; [exact Hc|]. unfold _chunk_by_words.
  rewrite filter_all; [reflexivity|].
  apply Forall_impl with (2 := Hne). intros c Hcw.
  rewrite is_empty_normalize. now apply negb_true_iff, is_empty_false.
Qed.

Lemma chunk_overlap_output (sentences : list str) (target_chunk_words overlap_words : Z) :
  0 < overlap_words ->
  Forall (fun s => split_ws s <> []) sentences ->
  chained (overlaps (Z.to_nat overlap_words))
          (_chunk_by_words sentences target_chunk_words overlap_words).
Proof.
  intros Ho Hall.
  destruct (chunk_overlap_chain sentences target_chunk_words overlap_words Ho Hall)
    as [Hc ->].
  apply (chained_map _ _ (overlaps (Z.to_nat overlap_words))); [|exact Hc].
  intros a b (rest & Hrest). exists rest. now rewrite !split_ws_normalize.
Qed.

(** X4. With [overlap_words > 0] and sentences that all have a word, every
    chunk after the first starts with the last [overlap_words] words of the
    chunk before it (with all its words, when it has fewer). *)
Theorem chunk_overlap (sentences : list str) (target_chunk_words overlap_words : Z) :
  0 < overlap_words ->
  Forall (fun s => split_ws s <> []) sentences ->
  chained (overlaps (Z.to_nat overlap_words))
          (_chunk_by_words sentences target_chunk_words overlap_words).
Proof. apply chunk_overlap_output. Qed.

Lemma chunk_overlap_witness :
  0 < 1
  /\ Forall (fun s => split_ws s <> []) (map lit ["a b c"; "d e"; "f g h"]%string)
  /\ _chunk_by_words (map lit ["a b c"; "d e"; "f g h"]%string) 4 1
     = map lit ["a b c"; "c d e"; "e f g h"]%string
  /\ overlaps 1 (lit "c d e") (lit "e f g h").
Proof.
  assert (H : Forall (fun s => split_ws s <> [])
                     (map lit ["a b c"; "d e"; "f g h"]%string))
    by (repeat constructor; discriminate).
  split; [lia|]. split; [exact H|]. split; [reflexivity|].
  exact (chunk_overlap (map lit ["a b c"; "d e"; "f g h"]%string) 4 1 ltac:(lia) H
           [lit "a b c"] (lit "c d e") (lit "e f g h") [] eq_refl).
Defined.

(** X5. There are never more chunks than sentences. *)
Theorem chunk_count_bound (sentences : list str) (target_chunk_words overlap_words : Z) :
  (length (_chunk_by_words sentences target_chunk_words overlap_words)
   <= length sentences)%nat.
Proof.
  unfold _chunk_by_words. rewrite length_map.
  eapply Nat.le_trans; [apply filter_length_le|].
  unfold raw_chunks, chunk_loop.
  apply (fold_left_invariant _ _ (chunk_step target_chunk_words overlap_words)
           (fun done st =>
              (length (if is_empty (current st) then chunks st
                       else chunks st ++ [join [SP] (current st)])
               <= length done)%nat)).
  - simpl. lia.
  - intros done st sent IH. unfold chunk_step. rewrite length_app. simpl.
    destruct ((current_words st + sentence_len sent >? target_chunk_words)
              && negb (is_empty (current st))) eqn:Hover.
    + apply andb_prop in Hover. destruct Hover as [_ Hne].
      apply negb_true_iff in Hne. rewrite Hne in IH.
      destruct (overlap_words >? 0); simpl; rewrite !length_app in *; simpl in *; lia.
    + simpl. destruct (current st); simpl in *; rewrite ?length_app in *; simpl in *; lia.
Qed.


(* ===================================================================== *)
(** * The sentence segmenter: shape of the sentences                     *)
(* ===================================================================== *)

Lemma tidy_cons (c : char) (r : str) :
  tidy (c :: r)
  = (if is_space c then (c =? SP)%N && negb (is_space (hd SP r)) else true) && tidy r.
Proof. reflexivity. Qed.

Lemma tidy_last (s : str) : tidy s = true -> s <> [] -> is_space (last s SP) = false.
Proof.
  induction s as [|c r IH]; [congruence|]. intros H _.
  rewrite tidy_cons in H. apply andb_prop in H. destruct H as [Hc Hr].
  destruct r as [|d r'].
  - simpl. destruct (is_space c); [|reflexivity].
    simpl in Hc. rewrite andb_false_r in Hc. discriminate.
  - change (last (c :: d :: r') SP) with (last (d :: r') SP).
    apply IH; [exact Hr | discriminate].
Qed.

Lemma tidy_collapse (s : str) : tidy s = true -> collapse_ws s = s.
Proof.
  induction s as [|c r IH]; [reflexivity|]. intros H.
  rewrite tidy_cons in H. apply andb_prop in H. destruct H as [Hc Hr].
  simpl. destruct (is_space c).
  - apply andb_prop in Hc. destruct Hc as [Hsp Hd]. apply N.eqb_eq in Hsp. subst c.
    destruct r as [|d r']; [discriminate|].
    simpl in Hd. apply negb_true_iff in Hd. rewrite Hd. now rewrite (IH Hr).
  - now rewrite (IH Hr).
Qed.

(** A tidy text that starts with a word is whitespace-normalised. *)
Lemma tidy_normalised (s : str) :
  tidy s = true -> is_space (hd SP s) = false -> normalised s.
Proof.
  intros Ht Hh. assert (Hne : s <> []) by (intros ->; discriminate).
  split; [exact Hne|].
  unfold _normalize_whitespace. rewrite (tidy_collapse s Ht).
  apply strip_unpadded; [exact Hh | now apply tidy_last].
Qed.

Lemma tidy_word_app (w x : str) :
  forallb (fun c => negb (is_space c)) w = true -> tidy (w ++ x) = tidy x.
Proof.
  induction w as [|c w IH]; [reflexivity|]. intros H.
  simpl in H. apply andb_prop in H. destruct H as [Hc Hw].
  apply negb_true_iff in Hc.
  change ((c :: w) ++ x) with (c :: (w ++ x)). rewrite tidy_cons, Hc. simpl.
  now apply IH.
Qed.

Lemma tidy_join_words (ws : list str) : Forall word_ok ws -> tidy (join [SP] ws) = true.
Proof.
  induction 1 as [|w ws [Hne Hw] Hws IH]; [reflexivity|].
  rewrite join_cons, tidy_word_app by exact Hw.
  destruct ws as [|w' ws']; [reflexivity|].
  change ([SP] ++ ?x) with (SP :: x). rewrite tidy_cons, is_space_SP, IH.
  rewrite join_cons. inversion Hws as [|? ? [Hne' Hw'] _]; subst.
  destruct w' as [|d w']; [congruence|].
  simpl in Hw'. apply andb_prop in Hw'. destruct Hw' as [Hd _].
  simpl. now rewrite Hd.
Qed.

Lemma tidy_normalize (s : str) : tidy (_normalize_whitespace (Some s)) = true.
Proof. rewrite normalize_join. apply tidy_join_words, split_ws_words_ok. Qed.

Lemma strip_head (s : str) : strip s <> [] -> is_space (hd SP (strip s)) = false.
Proof.
  unfold strip. intros H. destruct (lstrip_head (rstrip s)) as [E|(c & r & E & Hc)].
  - congruence.
  - rewrite E. exact Hc.
Qed.

Lemma normalised_head (s : str) : normalised s -> is_space (hd SP s) = false.
Proof.
  intros [Hne E]. rewrite <- E. apply strip_head. unfold _normalize_whitespace in E.
  now rewrite E.
Qed.

Lemma normalised_tidy (s : str) : normalised s -> tidy s = true.
Proof. intros [_ E]. rewrite <- E. apply tidy_normalize. Qed.

Lemma normalised_last (s : str) : normalised s -> is_space (last s SP) = false.
Proof. intros H. apply tidy_last; [now apply normalised_tidy | apply H]. Qed.

Lemma normalised_words (s : str) : normalised s -> split_ws s <> [].
Proof.
  intros [Hne E] Hw. rewrite normalize_join, Hw in E. simpl in E. congruence.
Qed.

Lemma last_app_cons (A : Type) (x y : list A) (c d : A) : last (x ++ c :: y) d = last (c :: y) d.
Proof. apply last_app_nonempty. discriminate. Qed.

(** What the scan of [re.split] gives on a tidy text. *)
Lemma re_split_scan_tidy (s : str) :
  forall st,
    tidy s = true ->
    (st = InSep -> is_space (hd SP s) = false) ->
    tidy (fst (re_split_scan st s)) = true
    /\ (is_space (hd SP s) = false -> hd SP (fst (re_split_scan st s)) = hd SP s)
    /\ Forall (fun q => tidy q = true /\ is_space (hd SP q) = false)
              (snd (re_split_scan st s))
    /\ (snd (re_split_scan st s) <> [] ->
        ends_terminal (fst (re_split_scan st s))
        \/ (fst (re_split_scan st s) = [] /\ st = AfterTerminal))
    /\ all_but_last ends_terminal (snd (re_split_scan st s)).
Proof.
  induction s as [|c r IH]; intros st Ht Hsep.
  - simpl. repeat split; [constructor | congruence |].
    intros [|? ?] ? ? ? E; discriminate.
  - rewrite tidy_cons in Ht. apply andb_prop in Ht. destruct Ht as [Hc Hr].
    simpl re_split_scan. destruct (is_space c) eqn:Ec.
    + apply andb_prop in Hc. destruct Hc as [Hsp Hd]. apply negb_true_iff in Hd.
      destruct st.
      * specialize (Hsep eq_refl). simpl in Hsep. congruence.
      * destruct (IH InSep Hr (fun _ => Hd)) as (H1 & H2 & H3 & H4 & H5).
        destruct (re_split_scan InSep r) as [p ps]. cbn [fst snd] in *.
        repeat split.
        -- simpl. congruence.
        -- constructor; [|exact H3]. split; [exact H1|]. now rewrite (H2 Hd).
        -- intros _. right. now split.
        -- apply all_but_last_cons; [|exact H5].
           intros Hps. destruct (H4 Hps) as [H|[_ H]]; [exact H | discriminate].
      * destruct (IH Elsewhere Hr ltac:(discriminate)) as (H1 & H2 & H3 & H4 & H5).
        destruct (re_split_scan Elsewhere r) as [p ps]. cbn [fst snd] in *.
        repeat split.
        -- rewrite tidy_cons, Ec, Hsp, (H2 Hd), Hd, H1. reflexivity.
        -- exact H3.
        -- intros Hps. left. destruct (H4 Hps) as [H|[_ H]]; [|discriminate].
           unfold ends_terminal in *. destruct p as [|d p]; [discriminate|exact H].
        -- exact H5.
    + set (st' := if is_terminal c then AfterTerminal else Elsewhere).
      assert (Hst' : st' = InSep -> is_space (hd SP r) = false)
        by (unfold st'; destruct (is_terminal c); discriminate).
      destruct (IH st' Hr Hst') as (H1 & H2 & H3 & H4 & H5).
      destruct (re_split_scan st' r) as [p ps]. cbn [fst snd] in *.
      repeat split.
      * rewrite tidy_cons, Ec, H1. reflexivity.
      * exact H3.
      * intros Hps. left. unfold ends_terminal in *.
        destruct (H4 Hps) as [H|[-> H]].
        -- destruct p as [|d p]; [discriminate | exact H].
        -- unfold st' in H. simpl. destruct (is_terminal c); [reflexivity | discriminate].
      * exact H5.
Qed.

Lemma all_but_last_Forall (A : Type) (P : A -> Prop) (l : list A) (y : A) :
  all_but_last P (l ++ [y]) -> Forall P l.
Proof.
  intros H. apply Forall_forall. intros x Hx.
  apply in_split in Hx. destruct Hx as (l1 & l2 & ->).
  destruct l2 as [|b l2].
  - apply (H l1 x y []). now rewrite <- app_assoc.
  - apply (H l1 x b (l2 ++ [y])). now rewrite <- app_assoc.
Qed.

Lemma all_but_last_snoc (A : Type) (P : A -> Prop) (l : list A) (y : A) :
  Forall P l -> all_but_last P (l ++ [y]).
Proof.
  intros H pre a b post E. rewrite Forall_forall in H. apply H.
  apply snoc_eq_cons2 in E. destruct E as [(_ & _ & ->)|(post' & _ & ->)];
    apply in_or_app; right; now left.
Qed.

(** The parts [re.split] cuts a normalised text into are normalised, and
    every part but the last ends with a terminal mark. *)
Lemma re_split_sentences_parts (s : str) :
  normalised s ->
  Forall normalised (re_split_sentences s)
  /\ all_but_last ends_terminal (re_split_sentences s).
Proof.
  intros Hs. pose proof (normalised_head s Hs) as Hh.
  destruct (re_split_scan_tidy s Elsewhere (normalised_tidy s Hs) ltac:(discriminate))
    as (H1 & H2 & H3 & H4 & H5).
  unfold re_split_sentences. destruct (re_split_scan Elsewhere s) as [p ps].
  cbn [fst snd] in *. split.
  - constructor.
    + apply tidy_normalised; [exact H1 | now rewrite (H2 Hh)].
    + apply Forall_impl with (2 := H3). intros q [Hq1 Hq2]. now apply tidy_normalised.
  - apply all_but_last_cons; [|exact H5].
    intros Hps. destruct (H4 Hps) as [H|[_ H]]; [exact H | discriminate].
Qed.

Lemma tidy_app (a x : str) : tidy a = true -> tidy (a ++ x) = tidy x.
Proof.
  induction a as [|c a IH]; [reflexivity|]. intros H.
  rewrite tidy_cons in H. apply andb_prop in H. destruct H as [Hc Ha].
  change ((c :: a) ++ x) with (c :: (a ++ x)). rewrite tidy_cons, (IH Ha).
  destruct (is_space c); [|reflexivity].
  apply andb_prop in Hc. destruct Hc as [Hsp Hd].
  destruct a as [|d a]; [discriminate|]. simpl in *. now rewrite Hsp, Hd.
Qed.

(** A normalised buffer and a normalised fragment joined by a space. *)
Lemma strip_buffer_fragment (buf p : str) :
  buf = [] \/ normalised buf -> normalised p ->
  normalised (strip (buf ++ [SP] ++ p))
  /\ last (strip (buf ++ [SP] ++ p)) SP = last p SP.
Proof.
  intros Hbuf Hp.
  pose proof (normalised_head p Hp) as Hph. pose proof (normalised_last p Hp) as Hpl.
  destruct Hbuf as [->|Hb].
  - replace ([] ++ [SP] ++ p) with ([SP] ++ p ++ []) by (simpl; now rewrite app_nil_r).
    rewrite strip_padded by (auto using is_space_SP). now split.
  - pose proof (normalised_head buf Hb) as Hbh.
    destruct buf as [|b buf]; [destruct Hb; congruence|].
    change ([SP] ++ p) with (SP :: p).
    assert (Hl : last ((b :: buf) ++ SP :: p) SP = last p SP).
    { rewrite last_app_cons. destruct p; [destruct Hp; congruence | reflexivity]. }
    rewrite strip_unpadded; [|exact Hbh | now rewrite Hl].
    split; [|exact Hl].
    apply tidy_normalised; [|exact Hbh].
    rewrite tidy_app by now apply normalised_tidy.
    rewrite tidy_cons, is_space_SP, Hph, (normalised_tidy p Hp). reflexivity.
Qed.

Lemma strip_normalised (p : str) : normalised p -> strip p = p.
Proof.
  intros Hp. apply strip_unpadded; [now apply normalised_head | now apply normalised_last].
Qed.

(** One iteration of the merge, seen from what would be returned. *)
Lemma merge_step_flush (st : list str * str) (p : str) :
  Forall normalised (flush st) -> normalised p ->
  exists l y,
    flush (merge_step st p) = l ++ [y]
    /\ incl l (flush st) /\ normalised y /\ last y SP = last p SP.
Proof.
  destruct st as [merged buf]. intros Hst Hp.
  assert (Hbuf : buf = [] \/ normalised buf).
  { unfold flush in Hst. cbn [fst snd] in Hst. destruct buf as [|b buf]; [now left|].
    right. apply Forall_app in Hst. destruct Hst as [_ Hst]. now apply Forall_inv in Hst. }
  assert (Hincl : incl merged (flush (merged, buf))).
  { unfold flush. cbn [fst snd]. destruct (is_empty buf); [apply incl_refl|].
    now apply incl_appl, incl_refl. }
  destruct (strip_buffer_fragment buf p Hbuf Hp) as [Hn Hl].
  assert (Hne : is_empty (strip (buf ++ [SP] ++ p)) = false)
    by (apply is_empty_false, Hn).
  unfold merge_step. destruct (word_count p <? 4).
  - exists merged, (strip (buf ++ [SP] ++ p)).
    split; [|split; [exact Hincl | split; [exact Hn | exact Hl]]].
    destruct (word_count (strip (buf ++ [SP] ++ p)) >=? 4); unfold flush; cbn [fst snd].
    + reflexivity.
    + now rewrite Hne.
  - exists (flush (merged, buf)), p. rewrite (strip_normalised p Hp).
    split; [|split; [apply incl_refl | split; [exact Hp | reflexivity]]].
    unfold flush. cbn [fst snd is_empty]. reflexivity.
Qed.

Lemma Forall_incl (A : Type) (P : A -> Prop) (l l' : list A) :
  incl l l' -> Forall P l' -> Forall P l.
Proof. intros Hi H. rewrite Forall_forall in *. auto. Qed.

Lemma Forall_all_but_last (A : Type) (P : A -> Prop) (l : list A) :
  Forall P l -> all_but_last P l.
Proof.
  intros H pre a b post ->. rewrite Forall_forall in H. apply H.
  apply in_or_app. right. now left.
Qed.

(** Normalised fragments of which all but the last end with a terminal mark
    are merged into normalised sentences of which all but the last end with
    a terminal mark. *)
Lemma merge_fragments_terminal (parts : list str) :
  Forall normalised parts -> all_but_last ends_terminal parts ->
  Forall normalised (merge_fragments parts)
  /\ all_but_last ends_terminal (merge_fragments parts).
Proof.
  intros Hn Ht.
  assert (H : Forall normalised parts -> all_but_last ends_terminal parts ->
              Forall normalised (flush (fold_left merge_step parts ([], [])))
              /\ all_but_last ends_terminal (flush (fold_left merge_step parts ([], [])))
              /\ (Forall ends_terminal parts ->
                  Forall ends_terminal (flush (fold_left merge_step parts ([], []))))).
  { apply (fold_left_invariant _ _ merge_step
             (fun done st =>
                Forall normalised done -> all_but_last ends_terminal done ->
                Forall normalised (flush st)
                /\ all_but_last ends_terminal (flush st)
                /\ (Forall ends_terminal done -> Forall ends_terminal (flush st)))).
    - intros _ _. unfold flush. simpl. repeat split; try constructor.
      intros [|? ?] ? ? ? E; discriminate.
    - intros done st p IH Hdn Hdt.
      apply Forall_app in Hdn. destruct Hdn as [Hdn Hp]. apply Forall_inv in Hp.
      pose proof (all_but_last_Forall _ _ _ _ Hdt) as Hdone.
      destruct (IH Hdn (Forall_all_but_last _ _ _ Hdone)) as (I1 & _ & I3).
      specialize (I3 Hdone).
      destruct (merge_step_flush st p I1 Hp) as (l & y & -> & Hl & Hy & Hlast).
      repeat split.
      + apply Forall_snoc; [exact (Forall_incl _ _ _ _ Hl I1) | exact Hy].
      + apply all_but_last_snoc. exact (Forall_incl _ _ _ _ Hl I3).
      + intros Hall. apply Forall_app in Hall. destruct Hall as [_ Hpt].
        apply Forall_inv in Hpt.
        apply Forall_snoc; [exact (Forall_incl _ _ _ _ Hl I3)|].
        unfold ends_terminal in *. now rewrite Hlast. }
  destruct (H Hn Ht) as (H1 & H2 & _).
  unfold merge_fragments.
  destruct (fold_left merge_step parts ([], [])) as [merged buf].
  unfold flush in *. cbn [fst snd] in *.
  rewrite filter_all; [now split|].
  apply Forall_impl with (2 := H1). intros s [Hs _].
  now apply negb_true_iff, is_empty_false.
Qed.

Lemma join_app (sep : str) (a b : list str) :
  a <> [] -> b <> [] -> join sep (a ++ b) = join sep a ++ sep ++ join sep b.
Proof.
  intros Ha Hb. induction a as [|x a IH]; [now elim Ha|].
  destruct a as [|y a].
  - simpl app. rewrite join_cons. destruct b; [now elim Hb | reflexivity].
  - change ((x :: y :: a) ++ b) with (x :: ((y :: a) ++ b)).
    rewrite (join_cons sep x ((y :: a) ++ b)), (join_cons sep x (y :: a)).
    change ((y :: a) ++ b) with (y :: (a ++ b)) at 1. cbv iota.
    change (y :: (a ++ b)) with ((y :: a) ++ b).
    rewrite IH by discriminate. now rewrite <- !app_assoc.
Qed.

(** Normalised texts joined by single spaces are their words joined by
    single spaces. *)
Lemma join_normalised (l : list str) :
  Forall normalised l -> join [SP] l = join [SP] (words_of l).
Proof.
  induction 1 as [|s l Hs Hl IH]; [reflexivity|].
  change (s :: l) with ([s] ++ l) at 2. rewrite words_of_app, words_of_one.
  assert (Es : s = join [SP] (split_ws s)).
  { destruct Hs as [_ E]. now rewrite normalize_join in E. }
  pose proof (normalised_words s Hs) as Hw.
  rewrite join_cons. destruct l as [|t l'].
  - unfold words_of. simpl. now rewrite !app_nil_r.
  - assert (Hl' : words_of (t :: l') <> []).
    { change (t :: l') with ([t] ++ l'). rewrite words_of_app, words_of_one.
      intros E. apply app_eq_nil in E. destruct E as [E _].
      apply Forall_inv in Hl. now apply (normalised_words t Hl). }
    rewrite (join_app [SP] _ _ Hw Hl'), <- IH, <- Es. reflexivity.
Qed.

(** In either mode the sentences are normalised and keep the words. *)
Lemma split_into_sentences_shape (text : str) :
  Forall normalised (_split_into_sentences text)
  /\ words_of (_split_into_sentences text) = split_ws text.
Proof.
  unfold _split_into_sentences.
  destruct (low_punctuation (_normalize_whitespace (Some text))) eqn:Hlow.
  - unfold pseudo_sentences, py_range.
    set (ws := split_ws (_normalize_whitespace (Some text))).
    destruct (pseudo_groups ws 30 ltac:(lia) (split_ws_words_ok _) (length ws) 0
                ltac:(lia))
      as (Hw & _ & Hall).
    split.
    + apply Forall_impl with (2 := Hall). intros s [Hc Hj].
      assert (Hne : split_ws s <> []).
      { intros E. unfold word_count in Hc. rewrite E in Hc. unfold len in Hc.
        simpl in Hc. lia. }
      split; [intros ->; now apply Hne | now rewrite normalize_join].
    + unfold words_of. rewrite Hw. simpl. apply split_ws_normalize.
  - assert (Hne : normalised (_normalize_whitespace (Some text))).
    { split; [|apply normalize_idempotent].
      intros E. rewrite E in Hlow. discriminate. }
    destruct (re_split_sentences_parts _ Hne) as [Hp Ht].
    destruct (merge_fragments_terminal _ Hp Ht) as [Hm _].
    split; [exact Hm|].
    destruct (merge_fragments_spec (re_split_sentences (_normalize_whitespace (Some text))))
      as (_ & _ & Hw).
    unfold words_of. now rewrite Hw, re_split_sentences_words, split_ws_normalize.
Qed.

(** X6. Whatever the text, the sentences returned are not empty and are
    whitespace-normalised; joined by single spaces they are the normalised
    text, so their words, in order, are the words of the text; and there is
    no sentence exactly when the text has no word. *)
Theorem sentences_cover_text (text : str) :
  Forall normalised (_split_into_sentences text)
  /\ join [SP] (_split_into_sentences text) = _normalize_whitespace (Some text)
  /\ words_of (_split_into_sentences text) = split_ws text
  /\ (_split_into_sentences text = [] <-> split_ws text = []).
Proof.
  destruct (split_into_sentences_shape text) as [Hn Hw]. split; [exact Hn|].
  split; [now rewrite (join_normalised _ Hn), Hw, normalize_join|].
  split; [exact Hw|]. split.
  - intros E. now rewrite <- Hw, E.
  - intros E. destruct (_split_into_sentences text) as [|s ss]; [reflexivity|].
    exfalso. apply Forall_inv in Hn. apply (normalised_words s Hn).
    rewrite <- Hw in E. unfold words_of in E. simpl in E.
    now apply app_eq_nil in E.
Qed.

(** X7. On punctuated text every sentence returned, except possibly the last
    one, ends with one of [. ! ?]. *)
Theorem regular_sentences_end_with_terminal (text : str) :
  low_punctuation (_normalize_whitespace (Some text)) = false ->
  all_but_last ends_terminal (_split_into_sentences text).
Proof.
  intros Hlow. unfold _split_into_sentences. rewrite Hlow.
  assert (Hne : normalised (_normalize_whitespace (Some text))).
  { split; [|apply normalize_idempotent].
    intros E. rewrite E in Hlow. discriminate. }
  destruct (re_split_sentences_parts _ Hne) as [Hp Ht].
  now destruct (merge_fragments_terminal _ Hp Ht).
Qed.

Lemma regular_sentences_end_with_terminal_witness :
  low_punctuation (_normalize_whitespace (Some (lit "Hi. It is a late hour now! ok"))) = false
  /\ _split_into_sentences (lit "Hi. It is a late hour now! ok")
     = [lit "Hi."; lit "It is a late hour now!"; lit "ok"]
  /\ ends_terminal (lit "It is a late hour now!").
Proof.
  split; [reflexivity|]. split; [reflexivity|].
  exact (regular_sentences_end_with_terminal (lit "Hi. It is a late hour now! ok") eq_refl
           [lit "Hi."] (lit "It is a late hour now!") (lit "ok") [] eq_refl).
Defined.

Lemma merge_long_fragments (parts : list str) :
  Forall normalised parts -> Forall (fun p => 4 <= word_count p) parts ->
  merge_fragments parts = parts.
Proof.
  intros Hn Hl.
  assert (H : Forall normalised parts -> Forall (fun p => 4 <= word_count p) parts ->
              fold_left merge_step parts ([], []) = (parts, [])).
  { apply (fold_left_invariant _ _ merge_step
             (fun done st =>
                Forall normalised done -> Forall (fun p => 4 <= word_count p) done ->
                st = (done, []))).
    - reflexivity.
    - intros done st p IH Hdn Hdl.
      apply Forall_app in Hdn. destruct Hdn as [Hdn Hp]. apply Forall_inv in Hp.
      apply Forall_app in Hdl. destruct Hdl as [Hdl Hpl]. apply Forall_inv in Hpl.
      rewrite (IH Hdn Hdl). unfold merge_step.
      destruct (Z.ltb_spec (word_count p) 4) as [Hlt|_]; [lia|].
      cbn [is_empty]. now rewrite (strip_normalised p Hp). }
  unfold merge_fragments. rewrite (H Hn Hl). cbn [is_empty].
  apply filter_all. apply Forall_impl with (2 := Hn). intros s [Hs _].
  now apply negb_true_iff, is_empty_false.
Qed.

(** X8. On punctuated text whose fragments between sentence ends all have at
    least four words, the merge changes nothing: the sentences returned are
    exactly the fragments [re.split] cuts the normalised text into. *)
Theorem long_sentences_kept_apart (text : str) :
  low_punctuation (_normalize_whitespace (Some text)) = false ->
  Forall (fun p => 4 <= word_count p)
         (re_split_sentences (_normalize_whitespace (Some text))) ->
  _split_into_sentences text = re_split_sentences (_normalize_whitespace (Some text)).
Proof.
  intros Hlow Hlong. unfold _split_into_sentences. rewrite Hlow.
  assert (Hne : normalised (_normalize_whitespace (Some text))).
  { split; [|apply normalize_idempotent].
    intros E. rewrite E in Hlow. discriminate. }
  destruct (re_split_sentences_parts _ Hne) as [Hp _].
  now apply merge_long_fragments.
Qed.

Lemma long_sentences_kept_apart_witness :
  _split_into_sentences (lit " This is sentence one.  And here comes two! ")
  = [lit "This is sentence one."; lit "And here comes two!"].
Proof.
  rewrite (long_sentences_kept_apart (lit " This is sentence one.  And here comes two! ")).
  - reflexivity.
  - reflexivity.
  - repeat constructor; vm_compute; discriminate.
Defined.


(* ===================================================================== *)
(** * The chunks of a document                                           *)
(* ===================================================================== *)

Lemma last_cons_default (A : Type) (l : list A) :
  forall a d d', last (a :: l) d = last (a :: l) d'.
Proof.
  induction l as [|b l IH]; intros a d d'; [reflexivity|].
  change (last (a :: b :: l) d) with (last (b :: l) d).
  change (last (a :: b :: l) d') with (last (b :: l) d'). apply IH.
Qed.

Lemma fresh_after_snoc (n : nat) (cs : list str) (c : str) :
  forall prev,
    fresh_after n prev (cs ++ [c])
    = fresh_after n prev cs ++ fresh_words n (last cs prev) c.
Proof.
  induction cs as [|x cs IH]; intros prev.
  - simpl. now rewrite app_nil_r.
  - change ((x :: cs) ++ [c]) with (x :: (cs ++ [c])). cbn [fresh_after].
    rewrite IH, <- app_assoc. do 2 f_equal.
    destruct cs as [|y cs']; [reflexivity|].
    change (last (x :: y :: cs') prev) with (last (y :: cs') prev).
    now rewrite (last_cons_default _ cs' y x prev).
Qed.

Lemma unrolled_snoc (n : nat) (pre : list str) (a c : str) :
  unrolled n ((pre ++ [a]) ++ [c]) = unrolled n (pre ++ [a]) ++ fresh_words n a c.
Proof.
  destruct pre as [|x pre].
  - simpl. now rewrite !app_nil_r.
  - change (((x :: pre) ++ [a]) ++ [c]) with (x :: ((pre ++ [a]) ++ [c])).
    change ((x :: pre) ++ [a]) with (x :: (pre ++ [a])). cbn [unrolled].
    rewrite fresh_after_snoc, <- app_assoc. do 2 f_equal.
    now rewrite last_last.
Qed.

Lemma fresh_words_tail (n : nat) (a c : str) (rest : list str) :
  split_ws c = last_n n (split_ws a) ++ rest -> fresh_words n a c = rest.
Proof.
  intros E. unfold fresh_words. rewrite E.
  rewrite skipn_app, skipn_all, Nat.sub_diag. reflexivity.
Qed.

(** Closing the running chunk [c], whose words are [ws], after the chunks
    [cs]. *)
Lemma unrolled_close (n : nat) (cs : list str) (c : str) (rest : list str) :
  (cs = [] -> split_ws c = rest) ->
  (forall pre a, cs = pre ++ [a] -> split_ws c = last_n n (split_ws a) ++ rest) ->
  unrolled n (cs ++ [c]) = unrolled n cs ++ rest.
Proof.
  intros H0 H1. destruct cs as [|x cs] using rev_ind.
  - simpl. now rewrite app_nil_r, (H0 eq_refl).
  - rewrite unrolled_snoc. f_equal. apply fresh_words_tail. exact (H1 cs x eq_refl).
Qed.

(** What the loop of [_chunk_by_words] maintains with overlap: the chunks
    closed so far, unrolled, and the part of the running chunk that is not
    overlap make up the words read so far. *)
Lemma chunk_unrolled_inv (t o : Z) (sentences : list str) :
  0 < o ->
  let st := chunk_loop t o sentences in
  exists rest,
    (chunks st = [] -> words_of (current st) = rest)
    /\ (forall pre a, chunks st = pre ++ [a] ->
          words_of (current st) = last_n (Z.to_nat o) (split_ws a) ++ rest)
    /\ unrolled (Z.to_nat o) (chunks st) ++ rest = words_of sentences.
Proof.
  intros Ho. unfold chunk_loop.
  apply (fold_left_invariant _ _ (chunk_step t o)
           (fun done st =>
              exists rest,
                (chunks st = [] -> words_of (current st) = rest)
                /\ (forall pre a, chunks st = pre ++ [a] ->
                      words_of (current st) = last_n (Z.to_nat o) (split_ws a) ++ rest)
                /\ unrolled (Z.to_nat o) (chunks st) ++ rest = words_of done)).
  - exists []. simpl. repeat split. intros [|? ?] ? E; discriminate.
  - intros done st sent (rest & H0 & H1 & Hu). unfold chunk_step.
    replace (o >? 0) with true by (symmetry; rewrite Z.gtb_ltb; apply Z.ltb_lt; lia).
    destruct ((current_words st + sentence_len sent >? t) && negb (is_empty (current st)));
      simpl.
    + exists (split_ws sent). split; [|split].
      * intros E. destruct (chunks st); discriminate.
      * intros pre a E. apply app_inj_tail in E. destruct E as [_ <-].
        change [?x; sent] with ([x] ++ [sent]).
        now rewrite words_of_app, !words_of_one, split_ws_last_n_join.
      * rewrite (unrolled_close (Z.to_nat o) (chunks st) (join [SP] (current st)) rest).
        -- rewrite words_of_app, words_of_one, <- Hu. reflexivity.
        -- intros E. rewrite split_ws_join. exact (H0 E).
        -- intros pre a E. rewrite split_ws_join. exact (H1 pre a E).
    + exists (rest ++ split_ws sent). split; [|split].
      * intros E. now rewrite words_of_app, words_of_one, (H0 E).
      * intros pre a E. now rewrite words_of_app, words_of_one, (H1 pre a E), app_assoc.
      * now rewrite !words_of_app, words_of_one, app_assoc, Hu.
Qed.

Lemma fresh_after_normalize (n : nat) (cs : list str) :
  forall prev,
    fresh_after n (_normalize_whitespace (Some prev))
                (map (fun c => _normalize_whitespace (Some c)) cs)
    = fresh_after n prev cs.
Proof.
  induction cs as [|c cs IH]; intros prev; [reflexivity|].
  simpl. unfold fresh_words. now rewrite !split_ws_normalize, IH.
Qed.

Lemma unrolled_normalize (n : nat) (cs : list str) :
  unrolled n (map (fun c => _normalize_whitespace (Some c)) cs) = unrolled n cs.
Proof.
  destruct cs as [|c cs]; [reflexivity|]. simpl.
  now rewrite split_ws_normalize, fresh_after_normalize.
Qed.

Lemma chunk_unrolled_output (sentences : list str) (target_chunk_words overlap_words : Z) :
  0 < overlap_words ->
  Forall (fun s => split_ws s <> []) sentences ->
  unrolled (Z.to_nat overlap_words)
           (_chunk_by_words sentences target_chunk_words overlap_words)
  = words_of sentences.
Proof.
  intros Ho Hall.
  destruct (chunk_overlap_chain sentences target_chunk_words overlap_words Ho Hall)
    as [_ ->].
  rewrite unrolled_normalize.
  destruct (chunk_unrolled_inv target_chunk_words overlap_words sentences Ho)
    as (rest & H0 & H1 & Hu).
  unfold raw_chunks.
  set (st := chunk_loop target_chunk_words overlap_words sentences) in *.
  destruct (current st) as [|x cur] eqn:Ec; cbn [is_empty].
  - rewrite <- Hu.
    assert (rest = []) as ->; [|now rewrite app_nil_r].
    destruct (chunks st) as [|y cs] using rev_ind.
    + symmetry. exact (H0 eq_refl).
    + specialize (H1 cs y eq_refl). unfold words_of in H1. simpl in H1.
      symmetry in H1. now apply app_eq_nil in H1.
  - rewrite (unrolled_close (Z.to_nat overlap_words) (chunks st) (join [SP] (x :: cur)) rest).
    + exact Hu.
    + intros E. rewrite split_ws_join. exact (H0 E).
    + intros pre a E. rewrite split_ws_join. exact (H1 pre a E).
Qed.

(** X9. With [overlap_words > 0] and sentences that all have a word, the
    chunks hold the words of the sentences and nothing else but the
    overlaps: the words of the first chunk, followed by the words of every
    later chunk after its overlap, are the words of the sentences in
    order. *)
Theorem chunk_cover_with_overlap (sentences : list str)
    (target_chunk_words overlap_words : Z) :
  0 < overlap_words ->
  Forall (fun s => split_ws s <> []) sentences ->
  unrolled (Z.to_nat overlap_words)
           (_chunk_by_words sentences target_chunk_words overlap_words)
  = words_of sentences.
Proof. apply chunk_unrolled_output. Qed.

Lemma chunk_cover_with_overlap_witness :
  _chunk_by_words (map lit ["a b c"; "d e"; "f g h"]%string) 4 1
  = map lit ["a b c"; "c d e"; "e f g h"]%string
  /\ unrolled 1 (map lit ["a b c"; "c d e"; "e f g h"]%string)
     = map lit ["a"; "b"; "c"; "d"; "e"; "f"; "g"; "h"]%string.
Proof.
  split; [reflexivity|].
  assert (H : Forall (fun s => split_ws s <> [])
                     (map lit ["a b c"; "d e"; "f g h"]%string))
    by (repeat constructor; discriminate).
  exact (chunk_cover_with_overlap (map lit ["a b c"; "d e"; "f g h"]%string) 4 1
           ltac:(lia) H).
Defined.

(** X10. The chunks [summarize_document] builds for a text (sentences cut by
    [_split_into_sentences], chunks of 2400 words with an overlap of 200):
    there is no chunk exactly when the text has no word; every chunk after
    the first starts with the last 200 words of the chunk before it; and
    the words of the first chunk followed by the words of every later chunk
    after its overlap are the words of the text, in order. *)
Theorem document_chunks (text : str) :
  let cs := _chunk_by_words (_split_into_sentences text) 2400 200 in
  (cs = [] <-> split_ws text = [])
  /\ chained (overlaps 200) cs
  /\ unrolled 200 cs = split_ws text.
Proof.
  intros cs.
  pose proof (split_into_sentences_shape text) as Hn.
  destruct Hn as [Hn Hw].
  assert (Hall : Forall (fun s => split_ws s <> []) (_split_into_sentences text)).
  { apply Forall_impl with (2 := Hn). intros s Hs. now apply normalised_words. }
  assert (Hu : unrolled 200 cs = split_ws text).
  { rewrite <- Hw.
    exact (chunk_unrolled_output (_split_into_sentences text) 2400 200 ltac:(lia) Hall). }
  split; [|split; [|exact Hu]].
  - split.
    + intros E. now rewrite <- Hu, E.
    + intros E. rewrite <- Hw in E.
      assert (Hs : _split_into_sentences text = []).
      { destruct (_split_into_sentences text) as [|s ss]; [reflexivity|]. exfalso.
        apply Forall_inv in Hall. apply Hall. unfold words_of in E. simpl in E.
        now apply app_eq_nil in E. }
      unfold cs. now rewrite Hs.
  - exact (chunk_overlap_output (_split_into_sentences text) 2400 200 ltac:(lia) Hall).
Qed.


(* ===================================================================== *)
(** * The orchestrator: a summary that is not a string                   *)
(* ===================================================================== *)

Lemma run_map_step_answers (generator : nat -> gen_call -> exn + dict) (n tw : Z)
    (model : str) (cont : list json -> prog gen_call dict dict) (cs : list str) :
  forall budgets values i acc,
    chunk_budgets n tw cs = Some budgets ->
    map_answers generator i (map_calls model cs budgets) = Some values ->
    run generator i (map_step n tw model cs acc cont)
    = (map_calls model cs budgets
         ++ fst (run generator (i + length cs) (cont (acc ++ values))),
       snd (run generator (i + length cs) (cont (acc ++ values)))).
Proof.
  induction cs as [|c cs IH]; intros budgets values i acc Hb Hm.
  - simpl in Hb. injection Hb as <-. simpl in Hm. injection Hm as <-.
    simpl. rewrite Nat.add_0_r, app_nil_r. now destruct (run generator i (cont acc)).
  - simpl in Hb. change (len (split_ws c)) with (word_count c) in *.
    simpl map_step. change (len (split_ws c)) with (word_count c).
    destruct (_proportional_words n (word_count c) tw) as [e|b]; [discriminate|].
    destruct (chunk_budgets n tw cs) as [bs|] eqn:Ebs; [|discriminate].
    injection Hb as <-. simpl in Hm. simpl run.
    fold (map_call model c b).
    destruct (generator i (map_call model c b)) as [e|d]; [discriminate|].
    destruct (map_answers generator (S i) (map_calls model cs bs)) as [vs|] eqn:Evs;
      [|discriminate].
    injection Hm as <-.
    rewrite (IH bs vs (S i) (acc ++ [dict_get d K_SUMMARY (JString [])]) eq_refl Evs).
    rewrite <- app_assoc. simpl app.
    cbn [Nat.add length]. rewrite ?Nat.add_succ_r. reflexivity.
Qed.

Lemma keep_nonblank_non_string (values : list json) :
  forallb is_json_string values = false -> keep_nonblank values = inl AttributeError.
Proof.
  induction values as [|v values IH]; [discriminate|]. simpl. intros H.
  destruct v; try reflexivity. simpl in H. now rewrite (IH H).
Qed.

(** X11. On an input of at least 60 words, when every map request is answered
    but one of the answers has a [summary] that is not a string, the
    orchestrator raises [AttributeError] after the map requests: no reduce
    request is sent. *)
Theorem non_string_summary_aborts (raw_text : option str) (model : str)
    (target_words : Z) (takeaways_count : option Z)
    (generator : nat -> gen_call -> exn + dict) (budgets : list Z) (values : list json) :
  60 <= word_count (_normalize_whitespace raw_text) ->
  chunk_budgets (word_count (_normalize_whitespace raw_text)) target_words
    (_chunk_by_words (_split_into_sentences (_normalize_whitespace raw_text)) 2400 200)
  = Some budgets ->
  map_answers generator 0
    (map_calls model
       (_chunk_by_words (_split_into_sentences (_normalize_whitespace raw_text)) 2400 200)
       budgets)
  = Some values ->
  forallb is_json_string values = false ->
  run generator 0 (summarize_document raw_text model target_words takeaways_count)
  = (map_calls model
       (_chunk_by_words (_split_into_sentences (_normalize_whitespace raw_text)) 2400 200)
       budgets,
     inl AttributeError).
Proof.
  intros Hlong Hb Hm Hv. unfold summarize_document.
  change (len (split_ws (_normalize_whitespace raw_text)))
    with (word_count (_normalize_whitespace raw_text)).
  destruct (Z.ltb_spec (word_count (_normalize_whitespace raw_text)) 60) as [Hlt|_]; [lia|].
  rewrite (run_map_step_answers generator _ target_words model _ _ budgets values 0 []
             Hb Hm).
  simpl app. unfold reduce_step. rewrite (keep_nonblank_non_string values Hv).
  simpl. now rewrite app_nil_r.
Qed.

Lemma non_string_summary_aborts_witness :
  run gen_number 0 (summarize_document (Some doc60) (lit "m") 200 (Some 3))
  = ([map_call (lit "m") doc60 200], inl AttributeError).
Proof.
  rewrite (non_string_summary_aborts (Some doc60) (lit "m") 200 (Some 3) gen_number
             [200] [JInt 5]).
  - vm_compute. reflexivity.
  - vm_compute. discriminate.
  - vm_compute. reflexivity.
  - vm_compute. reflexivity.
  - reflexivity.
Defined.


(* ===================================================================== *)
(** * The section generator: requests, failures, retry                   *)
(* ===================================================================== *)

Lemma run_call_outcome (oracle : nat -> llm_request -> exn + option str) (i : nat)
    (model prompt : str) :
  run oracle i (_call model prompt)
  = ([{| rq_model := model; rq_prompt := prompt |}],
     call_outcome oracle i {| rq_model := model; rq_prompt := prompt |}).
Proof. apply run_call. Qed.

Lemma run_finish (oracle : nat -> llm_request -> exn + option str) (i : nat) (data : json) :
  run oracle i
      (bind (as_dict llm_request (option str) data)
            (fun d => Ret (dict_setdefault (dict_setdefault d K_SUMMARY (JString []))
                                           K_TAKEAWAYS (JArray []))))
  = ([], finish data).
Proof. destruct data; reflexivity. Qed.

Lemma run_validate (oracle : nat -> llm_request -> exn + option str) (model prompt : str)
    (takeaways_count : option Z) (data : json) :
  run oracle 1 (validate_takeaways model prompt takeaways_count data)
  = match takeaways_count, data with
    | Some k, JObject d =>
        if (k >=? 0) && negb (len (takeaways_list d) =? k)
        then ([{| rq_model := model; rq_prompt := prompt |}],
              retry oracle {| rq_model := model; rq_prompt := prompt |} k)
        else ([], inr data)
    | Some k, _ => ([], if k >=? 0 then inl AttributeError else inr data)
    | None, _ => ([], inr data)
    end.
Proof.
  unfold validate_takeaways. destruct takeaways_count as [k|]; [|now destruct data].
  destruct (k >=? 0); [|now destruct data].
  destruct data as [| | | | | |d]; try reflexivity.
  cbn [as_dict bind andb].
  destruct (negb (len (takeaways_list d) =? k)); [|reflexivity].
  rewrite run_bind, run_call_outcome. unfold retry.
  destruct (call_outcome oracle 1 _) as [e|data2]; [reflexivity|].
  destruct data2; reflexivity.
Qed.

(** The run of [generate_sections], step by step. *)
Lemma run_generate_sections (oracle : nat -> llm_request -> exn + option str)
    (text model : str) (summary_words : Z) (takeaways_count : option Z) :
  let rq := request_of text model summary_words takeaways_count in
  run oracle 0 (generate_sections text model summary_words takeaways_count)
  = match call_outcome oracle 0 rq with
    | inl e => ([rq], inl e)
    | inr data =>
        match takeaways_count, data with
        | Some k, JObject d =>
            if (k >=? 0) && negb (len (takeaways_list d) =? k)
            then ([rq; rq],
                  match retry oracle rq k with
                  | inl e => inl e
                  | inr data2 => finish data2
                  end)
            else ([rq], finish data)
        | Some k, _ => ([rq], if k >=? 0 then inl AttributeError else finish data)
        | None, _ => ([rq], finish data)
        end
    end.
Proof.
  intros rq. unfold generate_sections, request_of in *.
  rewrite run_bind, run_call_outcome. fold rq.
  destruct (call_outcome oracle 0 rq) as [e|data]; [reflexivity|].
  cbn [length Nat.add]. rewrite run_bind, run_validate. fold rq.
  destruct takeaways_count as [k|].
  - destruct data as [| | | | | |d];
      try (destruct (k >=? 0); [reflexivity|]; cbn [length Nat.add app];
           rewrite run_finish; reflexivity).
    destruct ((k >=? 0) && negb (len (takeaways_list d) =? k)).
    + destruct (retry oracle rq k) as [e|data2]; [reflexivity|].
      cbn [length Nat.add app]. rewrite run_finish. reflexivity.
    + cbn [length Nat.add app]. rewrite run_finish. reflexivity.
  - destruct data; cbn [length Nat.add app]; rewrite run_finish; reflexivity.
Qed.

(** X12. [generate_sections] sends one request or two, both for the same
    model with the same prompt; it sends the second exactly when a count
    [k >= 0] was requested and the first answer is an object whose
    [key_takeaways], read as a list, does not have [k] items. *)
Theorem generate_sections_requests (oracle : nat -> llm_request -> exn + option str)
    (text model : str) (summary_words : Z) (takeaways_count : option Z) :
  let rq := request_of text model summary_words takeaways_count in
  let tr := fst (run oracle 0 (generate_sections text model summary_words takeaways_count)) in
  (tr = [rq] \/ tr = [rq; rq])
  /\ (tr = [rq; rq] <->
      exists k d, takeaways_count = Some k /\ 0 <= k
                  /\ call_outcome oracle 0 rq = inr (JObject d)
                  /\ len (takeaways_list d) <> k).
Proof.
  intros rq tr. unfold tr. rewrite run_generate_sections. fold rq.
  destruct (call_outcome oracle 0 rq) as [e|data].
  - cbn [fst]. split; [now left|]. split; [discriminate|].
    intros (k & d & _ & _ & H & _). discriminate.
  - destruct takeaways_count as [k|].
    + destruct data as [| | | | | |d];
        try (cbn [fst]; split; [now left|]; split; [discriminate|];
             intros (k' & d' & _ & _ & H & _); discriminate).
      destruct (Z.geb_spec k 0) as [Hk|Hk]; cbn [andb].
      * destruct (Z.eqb_spec (len (takeaways_list d)) k) as [Hl|Hl]; cbn [negb fst].
        -- split; [now left|]. split; [discriminate|].
           intros (k' & d' & Ek & _ & Ed & Hne). congruence.
        -- split; [now right|]. split; [|reflexivity].
           intros _. exists k, d. repeat split; [lia | exact Hl].
      * cbn [fst]. split; [now left|]. split; [discriminate|].
        intros (k' & d' & Ek & Hk' & _). injection Ek as <-. lia.
    + replace (fst match data with
                   | JNull | _ => ([rq], finish data)
                   end) with [rq] by now destruct data.
      split; [now left|]. split; [discriminate|].
      intros (k' & d' & Ek & _). discriminate.
Qed.

Lemma finish_keys (data : json) (d : dict) :
  finish data = inr d ->
  exists s t, dict_lookup d K_SUMMARY = Some s /\ dict_lookup d K_TAKEAWAYS = Some t.
Proof.
  destruct data as [| | | | | |d0]; try discriminate. intros H. injection H as <-.
  rewrite !dict_lookup_setdefault.
  change (str_eqb K_SUMMARY K_SUMMARY) with true.
  change (str_eqb K_TAKEAWAYS K_TAKEAWAYS) with true.
  destruct (dict_lookup d0 K_SUMMARY) as [s|]; destruct (dict_lookup d0 K_TAKEAWAYS) as [t|];
    eauto.
  all: destruct (str_eqb K_SUMMARY K_TAKEAWAYS); eauto.
Qed.

Lemma normalize_not_null (data : json) (d : dict) :
  normalize_null_takeaways data = inr (JObject d) ->
  dict_lookup d K_TAKEAWAYS <> Some JNull.
Proof.
  destruct data as [| | | |s|items|d0]; simpl; try discriminate.
  - destruct (is_infix K_TAKEAWAYS s); discriminate.
  - destruct (existsb (is_string K_TAKEAWAYS) items); discriminate.
  - destruct (dict_lookup d0 K_TAKEAWAYS) as [v|] eqn:E.
    + destruct v; intros H; injection H as <-; rewrite ?E; try discriminate.
      rewrite dict_lookup_set, str_eqb_refl. discriminate.
    + intros H. injection H as <-. rewrite E. discriminate.
Qed.

Lemma call_outcome_not_null (oracle : nat -> llm_request -> exn + option str) (i : nat)
    (rq : llm_request) (d : dict) :
  call_outcome oracle i rq = inr (JObject d) -> dict_lookup d K_TAKEAWAYS <> Some JNull.
Proof.
  unfold call_outcome. destruct (oracle i rq) as [e|content]; [discriminate|].
  destruct (_extract_json content) as [e|data]; [discriminate|].
  apply normalize_not_null.
Qed.

Lemma finish_not_null (data : json) (d : dict) :
  (forall d0, data = JObject d0 -> dict_lookup d0 K_TAKEAWAYS <> Some JNull) ->
  finish data = inr d -> dict_lookup d K_TAKEAWAYS <> Some JNull.
Proof.
  destruct data as [| | | | | |d0]; try discriminate. intros Hn H. injection H as <-.
  specialize (Hn d0 eq_refl). rewrite !dict_lookup_setdefault.
  change (str_eqb K_TAKEAWAYS K_TAKEAWAYS) with true.
  change (str_eqb K_SUMMARY K_TAKEAWAYS) with false.
  destruct (dict_lookup d0 K_TAKEAWAYS) as [v|]; [|discriminate].
  intros E. apply Hn. exact E.
Qed.

(** X13. Whatever the endpoint answers, a dictionary that [generate_sections]
    returns has both keys, [summary] and [key_takeaways], and its
    [key_takeaways] is never null. *)
Theorem generate_sections_keys (oracle : nat -> llm_request -> exn + option str)
    (text model : str) (summary_words : Z) (takeaways_count : option Z)
    (tr : list llm_request) (d : dict) :
  run oracle 0 (generate_sections text model summary_words takeaways_count) = (tr, inr d) ->
  exists s t, dict_lookup d K_SUMMARY = Some s /\ dict_lookup d K_TAKEAWAYS = Some t
              /\ t <> JNull.
Proof.
  rewrite run_generate_sections.
  destruct (call_outcome oracle 0 _) as [e|data] eqn:E0; [discriminate|].
  assert (Hf : forall tr' x,
               (forall d0, x = JObject d0 -> dict_lookup d0 K_TAKEAWAYS <> Some JNull) ->
               (tr', finish x) = (tr, inr d) ->
               exists s t, dict_lookup d K_SUMMARY = Some s
                           /\ dict_lookup d K_TAKEAWAYS = Some t /\ t <> JNull).
  { intros tr' x Hx H. injection H as _ H.
    destruct (finish_keys _ _ H) as (s & t & Hs & Ht).
    exists s, t. split; [exact Hs | split; [exact Ht|]].
    intros ->. exact (finish_not_null _ _ Hx H Ht). }
  assert (H0 : forall d0, data = JObject d0 -> dict_lookup d0 K_TAKEAWAYS <> Some JNull).
  { intros d0 ->. exact (call_outcome_not_null _ _ _ _ E0). }
  destruct takeaways_count as [k|].
  - destruct data as [| | | | | |d0];
      try (destruct (k >=? 0); [discriminate | now apply Hf]).
    destruct ((k >=? 0) && negb (len (takeaways_list d0) =? k)); [|now apply Hf].
    unfold retry. destruct (call_outcome oracle 1 _) as [e|data2]; [discriminate|].
    destruct data2 as [| | | | | |d2]; try discriminate.
    apply Hf. intros d3 E. injection E as <-.
    rewrite dict_lookup_set, str_eqb_refl. discriminate.
  - destruct data; now apply Hf.
Qed.

Lemma generate_sections_keys_witness :
  run (llm_const response_empty_object) 0
      (generate_sections (lit "t") (lit "m") 100 (Some 0))
  = ([request_of (lit "t") (lit "m") 100 (Some 0)],
     inr [(K_SUMMARY, JString []); (K_TAKEAWAYS, JArray [])])
  /\ exists s t,
       dict_lookup [(K_SUMMARY, JString []); (K_TAKEAWAYS, JArray [])] K_SUMMARY = Some s
       /\ dict_lookup [(K_SUMMARY, JString []); (K_TAKEAWAYS, JArray [])] K_TAKEAWAYS
          = Some t
       /\ t <> JNull.
Proof.
  assert (H : run (llm_const response_empty_object) 0
                  (generate_sections (lit "t") (lit "m") 100 (Some 0))
              = ([request_of (lit "t") (lit "m") 100 (Some 0)],
                 inr [(K_SUMMARY, JString []); (K_TAKEAWAYS, JArray [])]))
    by (vm_compute; reflexivity).
  split; [exact H|].
  exact (generate_sections_keys (llm_const response_empty_object) (lit "t") (lit "m") 100
           (Some 0) _ _ H).
Defined.

(** X14. A failure of the first call (the endpoint raises, the answer has no
    text or cannot be parsed, or is not a container) is raised after that one
    request: it is never retried. Every exception [generate_sections] raises
    is the failure of its first or of its second call, or [AttributeError]
    for an answer that is not an object. *)
Theorem generate_sections_failure (oracle : nat -> llm_request -> exn + option str)
    (text model : str) (summary_words : Z) (takeaways_count : option Z) :
  let rq := request_of text model summary_words takeaways_count in
  (forall e, call_outcome oracle 0 rq = inl e ->
     run oracle 0 (generate_sections text model summary_words takeaways_count)
     = ([rq], inl e))
  /\ forall tr e,
       run oracle 0 (generate_sections text model summary_words takeaways_count)
       = (tr, inl e) ->
       (tr = [rq]
        /\ (call_outcome oracle 0 rq = inl e
            \/ e = AttributeError
               /\ exists data, call_outcome oracle 0 rq = inr data
                               /\ forall d, data <> JObject d))
       \/ (tr = [rq; rq]
           /\ (call_outcome oracle 1 rq = inl e
               \/ e = AttributeError
                  /\ exists data, call_outcome oracle 1 rq = inr data
                                  /\ forall d, data <> JObject d)).
Proof.
  intros rq. rewrite run_generate_sections. fold rq. split.
  - intros e ->. reflexivity.
  - intros tr e.
    destruct (call_outcome oracle 0 rq) as [e0|data] eqn:E0.
    + intros H. injection H as <- <-. left. split; [reflexivity | now left].
    + assert (Hf : ([rq], finish data) = (tr, inl e) ->
                   tr = [rq] /\ (inr data = inl e
                                 \/ e = AttributeError
                                    /\ exists data', @inr exn json data = inr data'
                                                     /\ forall d, data' <> JObject d)).
      { intros H. injection H as <- H. split; [reflexivity|]. right.
        destruct data; try discriminate; injection H as <-;
          (split; [reflexivity|]); eexists; (split; [reflexivity | discriminate]). }
      assert (Hn : (forall d, data <> JObject d) ->
                   ([rq], @inl exn dict AttributeError) = (tr, inl e) ->
                   tr = [rq] /\ (inr data = inl e
                                 \/ e = AttributeError
                                    /\ exists data', @inr exn json data = inr data'
                                                     /\ forall d, data' <> JObject d)).
      { intros Hd H. injection H as <- <-. split; [reflexivity|]. right.
        split; [reflexivity|]. now exists data. }
      destruct takeaways_count as [k|].
      * destruct data as [| | | | | |d0];
          try (destruct (k >=? 0); [intros H; left; apply Hn; [discriminate | exact H]
                                   | intros H; left; now apply Hf]).
        destruct ((k >=? 0) && negb (len (takeaways_list d0) =? k));
          [|intros H; left; now apply Hf].
        unfold retry. intros H. right.
        destruct (call_outcome oracle 1 rq) as [e1|data2].
        -- injection H as <- <-. split; [reflexivity | now left].
        -- split; [now injection H as <- _|]. right.
           destruct data2; cbv beta iota in H; cbn [finish] in H; injection H as _ H;
             try discriminate H;
             subst e; (split; [reflexivity|]);
             eexists; (split; [reflexivity | discriminate]).
      * intros H. left. destruct data; now apply Hf.
Qed.

Lemma firstn_repeat_le (A : Type) (x : A) (n m : nat) :
  (n <= m)%nat -> firstn n (repeat x m) = repeat x n.
Proof.
  revert m. induction n as [|n IH]; intros m H; [reflexivity|].
  destruct m as [|m]; [lia|]. simpl. f_equal. apply IH. lia.
Qed.

Lemma pad_or_truncate_firstn (kt : list json) (k : Z) :
  0 <= k ->
  pad_or_truncate kt k
  = firstn (Z.to_nat k) (kt ++ repeat (JString []) (Z.to_nat k)).
Proof.
  intros Hk. unfold pad_or_truncate, len.
  destruct (Z.ltb_spec (Z.of_nat (length kt)) k) as [Hlt|Hge].
  - rewrite firstn_app, firstn_all2 by lia. f_equal.
    replace (Z.to_nat k - length kt)%nat with (Z.to_nat (k - Z.of_nat (length kt))) by lia.
    rewrite firstn_repeat_le by lia. reflexivity.
  - rewrite firstn_app.
    replace (Z.to_nat k - length kt)%nat with 0%nat by lia.
    rewrite firstn_O, app_nil_r.
    destruct (Z.gtb_spec (Z.of_nat (length kt)) k) as [Hgt|Hle]; [reflexivity|].
    rewrite firstn_all2 by lia. reflexivity.
Qed.

(** X15. When the first answer does not have the [k >= 0] takeaways asked for
    and the second answer is an object, [generate_sections] returns the
    second answer: its summary, its other entries, and as [key_takeaways]
    the first [k] of its takeaways in order, padded with empty strings when
    there are fewer. Nothing of the first answer is kept. *)
Theorem generate_sections_retry (oracle : nat -> llm_request -> exn + option str)
    (text model : str) (summary_words k : Z) (d1 d2 : dict) :
  0 <= k ->
  call_outcome oracle 0 (request_of text model summary_words (Some k)) = inr (JObject d1) ->
  len (takeaways_list d1) <> k ->
  call_outcome oracle 1 (request_of text model summary_words (Some k)) = inr (JObject d2) ->
  exists d,
    run oracle 0 (generate_sections text model summary_words (Some k))
    = ([request_of text model summary_words (Some k);
        request_of text model summary_words (Some k)], inr d)
    /\ dict_lookup d K_TAKEAWAYS
       = Some (JArray (firstn (Z.to_nat k)
                              (takeaways_list d2 ++ repeat (JString []) (Z.to_nat k))))
    /\ dict_lookup d K_SUMMARY = Some (dict_get d2 K_SUMMARY (JString []))
    /\ forall key, key <> K_TAKEAWAYS -> key <> K_SUMMARY ->
                   dict_lookup d key = dict_lookup d2 key.
Proof.
  intros Hk E1 Hlen E2. rewrite run_generate_sections. cbv zeta. rewrite E1.
  destruct (Z.geb_spec k 0) as [_|Hneg]; [|lia].
  destruct (Z.eqb_spec (len (takeaways_list d1)) k) as [Heq|_]; [contradiction|].
  cbn [andb negb]. unfold retry. rewrite E2. cbn [finish].
  eexists. split; [reflexivity|].
  rewrite <- (pad_or_truncate_firstn _ k Hk).
  assert (Hst : str_eqb K_SUMMARY K_TAKEAWAYS = false) by reflexivity.
  assert (Hts : str_eqb K_TAKEAWAYS K_SUMMARY = false) by reflexivity.
  split; [|split].
  - rewrite !dict_lookup_setdefault, dict_lookup_set, str_eqb_refl. reflexivity.
  - rewrite !dict_lookup_setdefault, dict_lookup_set, Hts, str_eqb_refl. unfold dict_get.
    destruct (dict_lookup d2 K_SUMMARY); reflexivity.
  - intros key Hkt Hks. rewrite !dict_lookup_setdefault, dict_lookup_set.
    assert (F1 : str_eqb K_TAKEAWAYS key = false).
    { destruct (str_eqb K_TAKEAWAYS key) eqn:E; [|reflexivity].
      apply str_eqb_eq in E. congruence. }
    assert (F2 : str_eqb K_SUMMARY key = false).
    { destruct (str_eqb K_SUMMARY key) eqn:E; [|reflexivity].
      apply str_eqb_eq in E. congruence. }
    rewrite F1, F2. destruct (dict_lookup d2 key); reflexivity.
Qed.

Lemma generate_sections_retry_witness :
  exists d,
    run (llm_two response_one_takeaway response_three_takeaways) 0
        (generate_sections (lit "t") (lit "m") 100 (Some 2))
    = ([request_of (lit "t") (lit "m") 100 (Some 2);
        request_of (lit "t") (lit "m") 100 (Some 2)], inr d)
    /\ dict_lookup d K_TAKEAWAYS = Some (JArray [JString (lit "p"); JString (lit "q")])
    /\ dict_lookup d K_SUMMARY = Some (JString (lit "b")).
Proof.
  destruct (generate_sections_retry
              (llm_two response_one_takeaway response_three_takeaways)
              (lit "t") (lit "m") 100 2
              [(K_SUMMARY, JString (lit "a")); (K_TAKEAWAYS, JArray [JString (lit "x")])]
              [(K_SUMMARY, JString (lit "b"));
               (K_TAKEAWAYS, JArray [JString (lit "p"); JString (lit "q");
                                     JString (lit "r")])])
    as (d & Hrun & Ht & Hs & _).
  - lia.
  - vm_compute. reflexivity.
  - vm_compute. discriminate.
  - vm_compute. reflexivity.
  - exists d. split; [exact Hrun|]. split; [exact Ht | exact Hs].
Defined.


(* ===================================================================== *)
(** * JSON extraction: padding, brace search, repair, prose              *)
(* ===================================================================== *)

Lemma rstrip_app_space (w t : str) :
  forallb is_space w = true ->
  rstrip (w ++ t) = match rstrip t with [] => [] | r => w ++ r end.
Proof.
  induction w as [|c w IH]; intros H.
  - change ([] ++ t) with t. destruct (rstrip t); reflexivity.
  - simpl in H. apply andb_prop in H. destruct H as [Hc Hw].
    change ((c :: w) ++ t) with (c :: (w ++ t)). rewrite rstrip_cons, (IH Hw), Hc.
    destruct (rstrip t); [reflexivity|]. destruct w; reflexivity.
Qed.

Lemma rstrip_app_tail (x w : str) : forallb is_space w = true -> rstrip (x ++ w) = rstrip x.
Proof.
  intros Hw. induction x as [|c x IH].
  - simpl. now apply rstrip_all_space.
  - change ((c :: x) ++ w) with (c :: (x ++ w)). now rewrite !rstrip_cons, IH.
Qed.

(** Whitespace around a text does not change what [strip] returns. *)
Lemma strip_pad (w1 t w2 : str) :
  forallb is_space w1 = true -> forallb is_space w2 = true ->
  strip (w1 ++ t ++ w2) = strip t.
Proof.
  intros H1 H2. unfold strip.
  rewrite app_assoc, (rstrip_app_tail _ w2 H2), (rstrip_app_space w1 t H1).
  destruct (rstrip t) as [|c r] eqn:E; [reflexivity|].
  now apply lstrip_app_space.
Qed.

(** X16. Whitespace before and after the response does not change what
    [_extract_json] returns or raises. *)
Theorem extract_json_ignores_padding (w1 t w2 : str) :
  forallb is_space w1 = true -> forallb is_space w2 = true ->
  _extract_json (Some (w1 ++ t ++ w2)) = _extract_json (Some t).
Proof.
  intros H1 H2. apply extract_json_clean. unfold clean_fences.
  now rewrite strip_pad.
Qed.

Lemma extract_json_ignores_padding_witness :
  _extract_json (Some ([NL; SP] ++ response_refusal ++ [SP; NL]))
  = _extract_json (Some response_refusal).
Proof.
  apply (extract_json_ignores_padding [NL; SP] response_refusal [SP; NL]); reflexivity.
Defined.

Lemma upto_last_brace_none (s : str) : upto_last_brace s = None <-> ~ In 125%N s.
Proof.
  induction s as [|c r IH]; simpl.
  - tauto.
  - destruct (upto_last_brace r) as [p|].
    + split; [discriminate|]. intros H. exfalso.
      assert (Hr : In 125%N r).
      { destruct (in_dec N.eq_dec 125%N r) as [Hin|Hn]; [exact Hin|].
        apply IH in Hn. discriminate. }
      tauto.
    + destruct (N.eqb_spec c 125) as [->|Hc].
      * split; [discriminate | intros H; exfalso; apply H; now left].
      * split; [|reflexivity]. intros _ [E|Hin]; [congruence|].
        now apply (proj1 IH eq_refl).
Qed.

Lemma upto_last_brace_some (s p : str) :
  upto_last_brace s = Some p ->
  exists mid post, s = mid ++ 125%N :: post /\ p = mid ++ [125%N] /\ ~ In 125%N post.
Proof.
  revert p. induction s as [|c r IH]; intros p; simpl; [discriminate|].
  destruct (upto_last_brace r) as [q|] eqn:E.
  - intros H. injection H as <-. destruct (IH q eq_refl) as (mid & post & -> & -> & Hn).
    now exists (c :: mid), post.
  - destruct (N.eqb_spec c 125) as [->|Hc]; [|discriminate].
    intros H. injection H as <-. exists [], r. repeat split.
    now apply upto_last_brace_none.
Qed.

(** X17. [re.search] with the pattern of [_extract_json] finds the block that
    runs from the first opening brace to the last closing brace of the
    text; it finds nothing exactly when no closing brace comes after an
    opening one. *)
Theorem search_braces_spec (s : str) :
  match search_braces s with
  | Some c =>
      exists pre mid post,
        s = pre ++ c ++ post /\ c = 123%N :: mid ++ [125%N]
        /\ ~ In 123%N pre /\ ~ In 125%N post
  | None => forall pre post, s = pre ++ 123%N :: post -> ~ In 125%N post
  end.
Proof.
  induction s as [|c r IH]; simpl.
  - intros [|? ?] ? E; discriminate.
  - destruct (N.eqb_spec c 123) as [->|Hc].
    + destruct (upto_last_brace r) as [p|] eqn:E.
      * destruct (upto_last_brace_some r p E) as (mid & post & -> & -> & Hn).
        exists [], mid, post. repeat split; [|tauto | exact Hn].
        simpl. now rewrite <- app_assoc.
      * apply upto_last_brace_none in E.
        assert (Hnone : search_braces r = None).
        { destruct (search_braces r) as [x|]; [|reflexivity].
          destruct IH as (pre & mid & post & -> & -> & _).
          exfalso. apply E. apply in_or_app. right. simpl. right.
          apply in_or_app. left. apply in_or_app. right. now left. }
        rewrite Hnone. intros pre post Es Hin. apply E.
        destruct pre as [|d pre].
        -- injection Es as ->. exact Hin.
        -- injection Es as _ ->. apply in_or_app. right. now right.
    + destruct (search_braces r) as [x|].
      * destruct IH as (pre & mid & post & -> & -> & Hpre & Hpost).
        exists (c :: pre), mid, post. repeat split; [|exact Hpost].
        intros [E|Hin]; [congruence | contradiction].
      * intros pre post Es. destruct pre as [|d pre]; injection Es as -> ->; [congruence|].
        now apply (IH pre post).
Qed.

Lemma lstrip_incl (s : str) : incl (lstrip s) s.
Proof.
  destruct (lstrip_decompose s) as (p & _ & E). intros c Hc. rewrite E.
  apply in_or_app. now right.
Qed.

Lemma rstrip_incl (s : str) : incl (rstrip s) s.
Proof.
  induction s as [|c r IH]; [apply incl_refl|]. rewrite rstrip_cons.
  destruct (rstrip r) as [|d r'].
  - destruct (is_space c); intros x Hx; [contradiction|].
    destruct Hx as [<-|[]]. now left.
  - intros x [<-|Hx]; [now left | right; now apply IH].
Qed.

Lemma strip_incl (s : str) : incl (strip s) s.
Proof. intros c Hc. apply rstrip_incl, lstrip_incl. exact Hc. Qed.

Lemma sub_close_fence_incl (s : str) : incl (sub_close_fence s) s.
Proof.
  induction s as [|c r IH]; rewrite sub_close_fence_eq.
  - destruct (match_close_fence []) as [rest|] eqn:E; [|apply incl_refl].
    apply match_close_fence_shape in E. destruct E as (p & _ & E & _).
    destruct p; discriminate.
  - destruct (match_close_fence (c :: r)) as [rest|] eqn:E.
    + apply match_close_fence_shape in E. destruct E as (p & _ & E & _).
      rewrite E. intros x Hx. apply in_or_app. right. apply in_or_app. now right.
    + intros x [<-|Hx]; [now left | right; now apply IH].
Qed.

Lemma strip_prefix_ci_incl (p s rest : str) : strip_prefix_ci p s = Some rest -> incl rest s.
Proof.
  revert s. induction p as [|a p IH]; intros s; simpl.
  - intros H. injection H as <-. apply incl_refl.
  - destruct s as [|c r]; [discriminate|]. destruct (ci_match a c); [|discriminate].
    intros H. apply IH in H. intros x Hx. right. now apply H.
Qed.

Lemma sub_fences_incl (tag s : str) : incl (sub_fences tag s) s.
Proof.
  unfold sub_fences, match_open_fence.
  destruct (strip_prefix_ci (BACKTICKS ++ tag) s) as [rest|] eqn:E.
  - apply strip_prefix_ci_incl in E. intros x Hx. apply E, lstrip_incl.
    now apply sub_close_fence_incl.
  - apply sub_close_fence_incl.
Qed.

(** The fence clean-up only removes characters. *)
Lemma clean_fences_incl (text : str) : incl (clean_fences text) text.
Proof.
  unfold clean_fences. intros c Hc.
  apply strip_incl, (sub_fences_incl (lit "json")), strip_incl, (sub_fences_incl []),
    strip_incl.
  exact Hc.
Qed.

Lemma json_loads_object_brace (t : str) (kvs : dict) :
  json_loads t = Some (JObject kvs) -> In 123%N t.
Proof.
  intros H. apply json_loads_object_core in H.
  destruct H as (a & body & b & -> & _). apply in_or_app. right. now left.
Qed.

Lemma search_braces_no_open (s : str) : ~ In 123%N s -> search_braces s = None.
Proof.
  induction s as [|c r IH]; [reflexivity|]. intros H. simpl.
  destruct (N.eqb_spec c 123) as [->|_]; [exfalso; apply H; now left|].
  apply IH. intros Hin. apply H. now right.
Qed.

(** X18. A response without an opening brace never yields a dictionary:
    [_extract_json] returns the value the cleaned response denotes as a
    whole, which is not an object, or raises the [ValueError] of the last
    line. *)
Theorem no_brace_no_dict (text : str) :
  ~ In 123%N text ->
  match _extract_json (Some text) with
  | inr v => json_loads (clean_fences text) = Some v /\ forall kvs, v <> JObject kvs
  | inl e => e = ValueError (lit "Could not parse JSON from model output.")
  end.
Proof.
  intros Hno.
  assert (Hclean : ~ In 123%N (clean_fences text)).
  { intros H. apply Hno. now apply clean_fences_incl. }
  unfold _extract_json. fold (clean_fences text).
  destruct (json_loads (clean_fences text)) as [v|] eqn:E.
  - split; [reflexivity|]. intros kvs ->. apply Hclean.
    now apply json_loads_object_brace with kvs.
  - now rewrite (search_braces_no_open _ Hclean).
Qed.

Lemma no_brace_no_dict_witness :
  ~ In 123%N response_refusal
  /\ _extract_json (Some response_refusal)
     = inl (ValueError (lit "Could not parse JSON from model output.")).
Proof.
  assert (H : ~ In 123%N response_refusal).
  { intros H. vm_compute in H. repeat (destruct H as [H|H]; [discriminate H|]).
    exact H. }
  split; [exact H|].
  pose proof (no_brace_no_dict response_refusal H) as P.
  destruct (_extract_json (Some response_refusal)) as [e|v] eqn:E.
  - now rewrite P.
  - vm_compute in E. discriminate E.
Defined.

Lemma repair_quotes_from_length (s : str) :
  forall escaped, length (repair_quotes_from escaped s) = length s.
Proof. induction s as [|c r IH]; intros escaped; simpl; [reflexivity | now rewrite IH]. Qed.

Lemma repair_quotes_from_none (s : str) :
  forall escaped, ~ In 39%N s -> repair_quotes_from escaped s = s.
Proof.
  induction s as [|c r IH]; intros escaped H; [reflexivity|]. simpl.
  destruct (N.eqb_spec c 39) as [->|_]; [exfalso; apply H; now left|].
  simpl. f_equal. apply IH. intros Hin. apply H. now right.
Qed.

Lemma repair_quotes_from_idem (s : str) :
  forall escaped,
    repair_quotes_from escaped (repair_quotes_from escaped s) = repair_quotes_from escaped s.
Proof.
  induction s as [|c r IH]; intros escaped; [reflexivity|]. simpl.
  destruct (N.eqb_spec c 39) as [->|Hc]; destruct escaped; simpl.
  - f_equal. apply IH.
  - f_equal. apply IH.
  - destruct (N.eqb_spec c 39); [contradiction|]. simpl. f_equal. apply IH.
  - destruct (N.eqb_spec c 39); [contradiction|]. simpl. f_equal. apply IH.
Qed.

Lemma repair_quotes_from_app (a b : str) :
  forall escaped,
    repair_quotes_from escaped (a ++ b)
    = repair_quotes_from escaped a
      ++ repair_quotes_from (match a with [] => escaped | _ => (last a 0 =? 92)%N end) b.
Proof.
  induction a as [|c a IH]; intros escaped; [reflexivity|].
  simpl app. cbn [repair_quotes_from]. rewrite IH. cbn [app]. f_equal. f_equal.
  destruct a; reflexivity.
Qed.

(** X19. The soft repair keeps the length of the candidate and changes
    nothing in a candidate without a single quote; a single quote becomes a
    double quote unless a backslash stands right before it, in which case it
    stays; and repairing twice is repairing once. *)
Theorem repair_quotes_properties (s pre post : str) :
  length (repair_quotes s) = length s
  /\ (~ In 39%N s -> repair_quotes s = s)
  /\ repair_quotes (repair_quotes s) = repair_quotes s
  /\ repair_quotes (pre ++ [92; 39]%N ++ post)
     = repair_quotes pre ++ [92; 39]%N ++ repair_quotes post
  /\ (last pre 0%N <> 92%N ->
      repair_quotes (pre ++ [39%N] ++ post)
      = repair_quotes pre ++ [34%N] ++ repair_quotes post).
Proof.
  unfold repair_quotes. split; [apply repair_quotes_from_length|].
  split; [apply repair_quotes_from_none|].
  split; [apply repair_quotes_from_idem|]. split.
  - rewrite repair_quotes_from_app. reflexivity.
  - intros Hlast. rewrite repair_quotes_from_app. f_equal.
    assert (E : match pre with [] => false | _ :: _ => (last pre 0 =? 92)%N end = false).
    { destruct pre; [reflexivity|]. now apply N.eqb_neq. }
    rewrite E. reflexivity.
Qed.

Lemma rstrip_app_cons_nospace (y w : str) (d : char) :
  is_space d = false -> rstrip (y ++ d :: w) = y ++ d :: rstrip w.
Proof.
  intros Hd. induction y as [|c y IH].
  - now apply rstrip_cons_nospace.
  - change ((c :: y) ++ d :: w) with (c :: (y ++ d :: w)). rewrite rstrip_cons, IH.
    destruct y; reflexivity.
Qed.

Lemma lstrip_app_cons_nospace (p r : str) (c : char) :
  is_space c = false -> lstrip (p ++ c :: r) = lstrip p ++ c :: r.
Proof.
  intros Hc. induction p as [|a p IH]; simpl.
  - now rewrite Hc.
  - destruct (is_space a); [exact IH | reflexivity].
Qed.

Lemma rstrip_last (s : str) : rstrip s <> [] -> is_space (last (rstrip s) SP) = false.
Proof.
  induction s as [|c r IH]; [simpl; congruence|]. rewrite rstrip_cons.
  destruct (rstrip r) as [|d r'] eqn:E.
  - destruct (is_space c) eqn:Hc; [intros H; now elim H | intros _; exact Hc].
  - intros _. change (last (c :: d :: r') SP) with (last (d :: r') SP).
    apply IH. discriminate.
Qed.

Lemma strip_last (s : str) : strip s <> [] -> is_space (last (strip s) SP) = false.
Proof.
  unfold strip. intros H.
  destruct (lstrip_decompose (rstrip s)) as (p & _ & E).
  assert (Hr : rstrip s <> []) by (intros E0; rewrite E0 in H; now apply H).
  pose proof (rstrip_last s Hr) as Hl. rewrite E in Hl.
  now rewrite last_app_nonempty in Hl.
Qed.

Lemma strip_idempotent (s : str) : strip (strip s) = strip s.
Proof.
  destruct (strip s) as [|c r] eqn:E; [reflexivity|]. rewrite <- E.
  apply strip_unpadded; [apply strip_head | apply strip_last]; rewrite E; discriminate.
Qed.

Lemma ci_match_backtick (c : char) : ci_match 96%N c = (c =? 96)%N.
Proof.
  unfold ci_match. destruct (N.eqb_spec c 96) as [->|Hc]; [reflexivity|].
  cbn [orb]. change (96 =? 115)%N with false. rewrite andb_false_l, orb_false_r.
  destruct (N.leb_spec 65 c); [|reflexivity].
  destruct (N.leb_spec c 90); [|reflexivity].
  cbn [andb]. apply N.eqb_neq. lia.
Qed.

Lemma match_open_fence_no_backtick (tag s : str) :
  ~ In 96%N s -> match_open_fence tag s = None.
Proof.
  intros H. unfold match_open_fence, BACKTICKS. simpl.
  destruct s as [|c r]; [reflexivity|]. rewrite ci_match_backtick.
  destruct (N.eqb_spec c 96) as [->|_]; [exfalso; apply H; now left | reflexivity].
Qed.

Lemma match_open_fence_head (tag s : str) :
  hd SP s <> 96%N -> match_open_fence tag s = None.
Proof.
  intros H. unfold match_open_fence, BACKTICKS. simpl.
  destruct s as [|c r]; [reflexivity|]. rewrite ci_match_backtick.
  destruct (N.eqb_spec c 96) as [->|_]; [now simpl in H | reflexivity].
Qed.

Lemma sub_close_fence_no_backtick (s : str) : ~ In 96%N s -> sub_close_fence s = s.
Proof.
  induction s as [|c r IH]; intros H; rewrite sub_close_fence_eq.
  - destruct (match_close_fence []) as [rest|] eqn:E; [|reflexivity].
    apply match_close_fence_shape in E. destruct E as (p & _ & E & _).
    destruct p; discriminate.
  - destruct (match_close_fence (c :: r)) as [rest|] eqn:E.
    + apply match_close_fence_shape in E. destruct E as (p & _ & E & _).
      exfalso. apply H. rewrite E. apply in_or_app. right. now left.
    + f_equal. apply IH. intros Hin. apply H. now right.
Qed.

Lemma upto_last_brace_app (mid post : str) :
  ~ In 125%N post -> upto_last_brace (mid ++ 125%N :: post) = Some (mid ++ [125%N]).
Proof.
  intros H. induction mid as [|c mid IH]; simpl.
  - now rewrite (proj2 (upto_last_brace_none post) H).
  - now rewrite IH.
Qed.

Lemma search_braces_app (pre rest : str) :
  ~ In 123%N pre -> search_braces (pre ++ rest) = search_braces rest.
Proof.
  intros H. induction pre as [|c pre IH]; [reflexivity|]. simpl.
  destruct (N.eqb_spec c 123) as [->|_]; [exfalso; apply H; now left|].
  apply IH. intros Hin. apply H. now right.
Qed.

Lemma strip_around (pre mid post : str) (c d : char) :
  is_space c = false -> is_space d = false ->
  strip (pre ++ (c :: mid ++ [d]) ++ post) = lstrip pre ++ (c :: mid ++ [d]) ++ rstrip post.
Proof.
  intros Hc Hd. unfold strip.
  transitivity (lstrip (rstrip ((pre ++ c :: mid) ++ d :: post))).
  { do 2 f_equal. rewrite <- !app_assoc. simpl. now rewrite <- app_assoc. }
  rewrite (rstrip_app_cons_nospace (pre ++ c :: mid) post d Hd), <- app_assoc.
  simpl app. rewrite (lstrip_app_cons_nospace pre _ c Hc).
  simpl. now rewrite <- app_assoc.
Qed.

Lemma sub_close_fence_around (pre mid post : str) (c : char) :
  ~ In 96%N post ->
  sub_close_fence (pre ++ (c :: mid ++ [125%N]) ++ post)
  = pre ++ (c :: mid ++ [125%N]) ++ post.
Proof.
  intros H.
  transitivity (sub_close_fence ((pre ++ c :: mid) ++ 125%N :: post)).
  { f_equal. rewrite <- !app_assoc. simpl. now rewrite <- app_assoc. }
  rewrite sub_close_fence_brace, (sub_close_fence_no_backtick post H).
  rewrite <- !app_assoc. simpl. now rewrite <- app_assoc.
Qed.

Lemma search_braces_around (pre mid post : str) :
  ~ In 123%N pre -> ~ In 125%N post ->
  search_braces (pre ++ (123%N :: mid ++ [125%N]) ++ post) = Some (123%N :: mid ++ [125%N]).
Proof.
  intros Hpre Hpost. rewrite (search_braces_app pre _ Hpre).
  transitivity (search_braces (123%N :: mid ++ 125%N :: post)).
  { f_equal. simpl. now rewrite <- app_assoc. }
  simpl. now rewrite (upto_last_brace_app mid post Hpost).
Qed.

(** X20. An object between two remarks is found: when the text before it
    has no opening brace, the text after it no closing brace, neither has a
    backtick, and the stripped response as a whole is not JSON,
    [_extract_json] returns what the object denotes. *)
Theorem object_in_prose (pre body post : str) (v : json) :
  json_loads (object_text body) = Some v ->
  ~ In 123%N pre -> ~ In 125%N post -> ~ In 96%N pre -> ~ In 96%N post ->
  json_loads (strip (pre ++ object_text body ++ post)) = None ->
  _extract_json (Some (pre ++ object_text body ++ post)) = inr v.
Proof.
  intros Hv Hpre Hpost Hb1 Hb2 Hwhole.
  set (T := lstrip pre ++ object_text body ++ rstrip post).
  assert (Hstrip : strip (pre ++ object_text body ++ post) = T)
    by (apply strip_around; reflexivity).
  assert (Hclose : sub_close_fence T = T).
  { apply sub_close_fence_around. intros H. apply Hb2. now apply rstrip_incl. }
  assert (Hopen : forall tag, match_open_fence tag T = None).
  { intros tag. apply match_open_fence_head. unfold T.
    destruct (lstrip pre) as [|c r] eqn:E; [discriminate|].
    simpl. intros ->. apply Hb1. apply lstrip_incl. rewrite E. now left. }
  assert (Hfences : forall tag, sub_fences tag T = T).
  { intros tag. unfold sub_fences. now rewrite Hopen. }
  assert (HT : strip T = T) by (rewrite <- Hstrip; apply strip_idempotent).
  assert (Hclean : clean_fences (pre ++ object_text body ++ post) = T).
  { unfold clean_fences. now rewrite Hstrip, Hfences, HT, Hfences. }
  assert (Hsearch : search_braces T = Some (object_text body)).
  { apply search_braces_around.
    - intros H. apply Hpre. now apply lstrip_incl.
    - intros H. apply Hpost. now apply rstrip_incl. }
  unfold _extract_json. fold (clean_fences (pre ++ object_text body ++ post)).
  rewrite Hclean. rewrite Hstrip in Hwhole. now rewrite Hwhole, Hsearch, Hv.
Qed.

Lemma object_in_prose_witness :
  _extract_json (Some response_in_prose) = inr (JObject [(lit "a", JInt 1)]).
Proof.
  apply (object_in_prose (lit "Sure: ") (quoted (lit "a") ++ lit ": 1") (lit " Done.")).
  - vm_compute. reflexivity.
  - intros H. vm_compute in H. repeat (destruct H as [H|H]; [discriminate H|]). exact H.
  - intros H. vm_compute in H. repeat (destruct H as [H|H]; [discriminate H|]). exact H.
  - intros H. vm_compute in H. repeat (destruct H as [H|H]; [discriminate H|]). exact H.
  - intros H. vm_compute in H. repeat (destruct H as [H|H]; [discriminate H|]). exact H.
  - vm_compute. reflexivity.
Defined.


(* ===================================================================== *)
(** * pdf_utils.py: the text of a document                               *)
(* ===================================================================== *)

Lemma page_loop_texts (pages : list page_outcome) :
  forall texts, fold_left page_step pages texts = texts ++ page_texts pages.
Proof.
  induction pages as [|p pages IH]; intros texts.
  - simpl. now rewrite app_nil_r.
  - simpl fold_left. rewrite IH. unfold page_texts, readable_texts. simpl flat_map.
    destruct p as [e|[t|]]; simpl.
    + reflexivity.
    + destruct (is_empty (strip t)); simpl; [reflexivity|].
      now rewrite <- app_assoc.
    + reflexivity.
Qed.

Lemma page_texts_stripped (pages : list page_outcome) :
  Forall (fun t => t <> [] /\ strip t = t) (page_texts pages).
Proof.
  unfold page_texts. apply Forall_forall. intros t Ht.
  apply filter_In in Ht. destruct Ht as [Hin Hne].
  apply negb_true_iff, is_empty_false in Hne. split; [exact Hne|].
  apply in_map_iff in Hin. destruct Hin as (x & <- & _). apply strip_idempotent.
Qed.

Lemma stripped_ends (t : str) :
  t <> [] -> strip t = t -> is_space (hd SP t) = false /\ is_space (last t SP) = false.
Proof.
  intros Hne E. rewrite <- E.
  split; [apply strip_head | apply strip_last]; now rewrite E.
Qed.

(** Stripped, non-empty texts joined by a separator: the join starts as the
    first and ends as the last. *)
Lemma join_ends (sep : str) (ts : list str) :
  ts <> [] ->
  Forall (fun t => t <> [] /\ strip t = t) ts ->
  is_space (hd SP (join sep ts)) = false /\ is_space (last (join sep ts) SP) = false.
Proof.
  intros Hne H. revert Hne. induction H as [|t ts [Ht Es] Hts IH]; intros Hne; [now elim Hne|].
  destruct (stripped_ends t Ht Es) as [Hh Hl].
  rewrite join_cons. destruct ts as [|t' ts'].
  - rewrite app_nil_r. now split.
  - destruct IH as [_ IHl]; [discriminate|]. split.
    + destruct t; [congruence | exact Hh].
    + rewrite app_assoc, last_app_nonempty; [exact IHl|].
      rewrite join_cons. inversion Hts as [|? ? [Ht' _] _]; subst.
      destruct t'; [congruence | discriminate].
Qed.

(** X21. [extract_text_from_pdf] returns the texts of the pages that could be
    read and are not blank, each stripped, joined by a blank line; pages
    that raise, give [None] or give only whitespace leave no trace. The
    result is empty exactly when no page has text, and the closing [strip]
    has nothing to remove. An exception of the reader itself is not
    caught. *)
Theorem pdf_text_is_joined_pages (pages : list page_outcome) (e : exn) :
  extract_text_from_pdf (inr pages) = inr (join [NL; NL] (page_texts pages))
  /\ strip (join [NL; NL] (page_texts pages)) = join [NL; NL] (page_texts pages)
  /\ Forall (fun t => t <> [] /\ strip t = t) (page_texts pages)
  /\ (join [NL; NL] (page_texts pages) = [] <-> page_texts pages = [])
  /\ extract_text_from_pdf (inl e) = inl e.
Proof.
  pose proof (page_texts_stripped pages) as Hall.
  assert (Hstrip : strip (join [NL; NL] (page_texts pages)) = join [NL; NL] (page_texts pages)).
  { destruct (page_texts pages) as [|t ts] eqn:E; [reflexivity|].
    destruct (join_ends [NL; NL] (t :: ts)) as [Hh Hl]; [discriminate | exact Hall|].
    now apply strip_unpadded. }
  split; [|split; [exact Hstrip | split; [exact Hall | split; [|reflexivity]]]].
  - unfold extract_text_from_pdf. rewrite page_loop_texts. simpl app. now rewrite Hstrip.
  - split; [|now intros ->].
    destruct (page_texts pages) as [|t ts] eqn:E; [reflexivity|]. intros Ej. exfalso.
    destruct (join_ends [NL; NL] (t :: ts)) as [Hh _]; [discriminate | exact Hall|].
    rewrite Ej in Hh. discriminate.
Qed.


(* ===================================================================== *)
(** * app.py: text files                                                 *)
(* ===================================================================== *)

Lemma to_N_byte_of_N (n : N) : (n < 256)%N -> Byte.to_N (byte_of_N n) = n.
Proof.
  intros H. unfold byte_of_N. pose proof (Byte.to_of_N_option_map n) as E.
  destruct (N.leb_spec n 255) as [_|Hgt]; [|lia].
  destruct (Byte.of_N n) as [b|]; [|discriminate]. simpl in E. now injection E.
Qed.

Lemma map_to_N_byte_of_N (l : list N) :
  Forall (fun n => (n < 256)%N) l -> map Byte.to_N (map byte_of_N l) = l.
Proof.
  induction 1 as [|n l Hn _ IH]; [reflexivity|]. simpl.
  now rewrite (to_N_byte_of_N n Hn), IH.
Qed.

Lemma utf8_decode_unfold (b0 : N) (r0 : list N) :
  utf8_decode (b0 :: r0)
  = if (b0 <? 128)%N then map_option (cons b0) (utf8_decode r0)
    else if ((194 <=? b0) && (b0 <=? 223))%N then
      match r0 with
      | b1 :: r1 =>
          if is_cont b1
          then map_option (cons ((b0 - 192) * 64 + (b1 - 128))%N) (utf8_decode r1)
          else None
      | _ => None
      end
    else if ((224 <=? b0) && (b0 <=? 239))%N then
      match r0 with
      | b1 :: b2 :: r2 =>
          if ((if (b0 =? 224)%N then 160 else 128) <=? b1)%N
             && (b1 <=? (if (b0 =? 237)%N then 159 else 191))%N
             && is_cont b2
          then map_option
                 (cons (((b0 - 224) * 64 + (b1 - 128)) * 64 + (b2 - 128))%N)
                 (utf8_decode r2)
          else None
      | _ => None
      end
    else if ((240 <=? b0) && (b0 <=? 244))%N then
      match r0 with
      | b1 :: b2 :: b3 :: r3 =>
          if ((if (b0 =? 240)%N then 144 else 128) <=? b1)%N
             && (b1 <=? (if (b0 =? 244)%N then 143 else 191))%N
             && is_cont b2 && is_cont b3
          then map_option
                 (cons ((((b0 - 240) * 64 + (b1 - 128)) * 64 + (b2 - 128)) * 64
                        + (b3 - 128))%N)
                 (utf8_decode r3)
          else None
      | _ => None
      end
    else None.
Proof. reflexivity. Qed.

(** The quotients and remainders of a code point by 64. *)
Lemma sextets (c : N) :
  (c = 64 * (c / 64) + c mod 64 /\ c mod 64 < 64
   /\ c / 64 = 64 * (c / 4096) + (c / 64) mod 64 /\ (c / 64) mod 64 < 64
   /\ c / 4096 = 64 * (c / 262144) + (c / 4096) mod 64 /\ (c / 4096) mod 64 < 64)%N.
Proof.
  assert (E1 : (c / 4096 = c / 64 / 64)%N) by (rewrite N.Div0.div_div; reflexivity).
  assert (E2 : (c / 262144 = c / 4096 / 64)%N) by (rewrite N.Div0.div_div; reflexivity).
  rewrite E2, E1.
  repeat split; try (apply N.div_mod; lia); apply N.mod_lt; lia.
Qed.

(** Decoding the UTF-8 form of a code point gives it back and goes on with
    the bytes after it. *)
Lemma utf8_decode_encoded_match (c : char) (rest : list N) :
  match utf8_encode_char c with
  | Some bs =>
      utf8_decode (bs ++ rest) = map_option (cons c) (utf8_decode rest)
      /\ Forall (fun n => (n < 256)%N) bs
  | None => True
  end.
Proof.
  unfold utf8_encode_char, is_high_surrogate, is_low_surrogate.
  destruct (sextets c) as (D1 & R1 & D2 & R2 & D3 & R3).
  set (q1 := (c / 64)%N) in *. set (r1 := (c mod 64)%N) in *.
  set (q2 := (c / 4096)%N) in *. set (r2 := (q1 mod 64)%N) in *.
  set (q3 := (c / 262144)%N) in *. set (r3 := (q2 mod 64)%N) in *.
  clearbody q1 r1 q2 r2 q3 r3.
  destruct (N.ltb_spec c 128) as [H1|H1].
  { split; [|repeat (apply Forall_cons; [lia|]); apply Forall_nil].
    cbn [app]. rewrite utf8_decode_unfold. run_tests. reflexivity. }
  destruct (N.ltb_spec c 2048) as [H2|H2].
  { split; [|repeat (apply Forall_cons; [lia|]); apply Forall_nil].
    cbn [app]. rewrite utf8_decode_unfold. unfold is_cont. run_tests.
    do 2 f_equal. lia. }
  destruct (N.ltb_spec c 65536) as [H3|H3].
  { destruct ((55296 <=? c)%N && (c <=? 56319)%N || (56320 <=? c)%N && (c <=? 57343)%N)
      eqn:Hs; [exact I|].
    assert (Hns : (c < 55296 \/ 57343 < c)%N).
    { apply orb_false_iff in Hs. destruct Hs as [Ha Hb].
      apply andb_false_iff in Ha. apply andb_false_iff in Hb.
      rewrite !N.leb_gt in Ha, Hb. lia. }
    split; [|repeat (apply Forall_cons; [lia|]); apply Forall_nil].
    cbn [app]. rewrite utf8_decode_unfold. unfold is_cont. run_tests.
    all: do 2 f_equal; lia. }
  destruct (N.ltb_spec c 1114112) as [H4|H4]; [|exact I].
  split; [|repeat (apply Forall_cons; [lia|]); apply Forall_nil].
  cbn [app]. rewrite utf8_decode_unfold. unfold is_cont. run_tests.
  all: do 2 f_equal; lia.
Qed.

Lemma utf8_decode_encoded (c : char) (bs rest : list N) :
  utf8_encode_char c = Some bs ->
  utf8_decode (bs ++ rest) = map_option (cons c) (utf8_decode rest)
  /\ Forall (fun n => (n < 256)%N) bs.
Proof.
  intros E. pose proof (utf8_decode_encoded_match c rest) as H. now rewrite E in H.
Qed.

Lemma encode_utf8_decoded (s : str) :
  forall bs, encode_utf8 s = Some bs -> decode_utf8 bs = Some s.
Proof.
  unfold decode_utf8. induction s as [|c r IH]; intros bs; simpl.
  - intros E. injection E as <-. reflexivity.
  - destruct (utf8_encode_char c) as [cb|] eqn:Ec; [|discriminate].
    destruct (encode_utf8 r) as [rest|]; [|discriminate].
    intros E. injection E as <-.
    destruct (utf8_decode_encoded c cb (map Byte.to_N rest) Ec) as [Hd Hb].
    rewrite map_app, (map_to_N_byte_of_N cb Hb), Hd, (IH rest eq_refl). reflexivity.
Qed.

Lemma encode_utf8_scalar (s : str) : forallb is_scalar s = true -> encode_utf8 s <> None.
Proof.
  induction s as [|c r IH]; simpl; [discriminate|]. intros H.
  apply andb_prop in H. destruct H as [Hc Hr].
  assert (Ec : utf8_encode_char c <> None).
  { assert (Hs : (c < 55296 \/ 57344 <= c /\ c < 1114112)%N).
    { unfold is_scalar in Hc. apply orb_prop in Hc. destruct Hc as [Hc|Hc].
      - left. now apply N.ltb_lt.
      - right. apply andb_prop in Hc. destruct Hc as [Ha Hb].
        split; [now apply N.leb_le | now apply N.ltb_lt]. }
    clear Hc. unfold utf8_encode_char, is_high_surrogate, is_low_surrogate.
    destruct (N.ltb_spec c 128); [discriminate|].
    destruct (N.ltb_spec c 2048); [discriminate|].
    destruct (N.ltb_spec c 65536).
    - destruct Hs as [Hs|Hs]; settle_tests; cbn [andb orb]; discriminate.
    - settle_tests. discriminate. }
  destruct (utf8_encode_char c); [|congruence].
  specialize (IH Hr). destruct (encode_utf8 r); [discriminate | congruence].
Qed.

(** X22. A text encoded as UTF-8 (as the summary is for the download) and
    read back with [read_txt_file] is the same text, on any host; and every
    text made of Unicode scalar values can be encoded. *)
Theorem utf8_round_trip (host_little_endian : bool) (s : str) :
  (forall file_bytes, encode_utf8 s = Some file_bytes ->
                      read_txt_file host_little_endian file_bytes = s)
  /\ (forallb is_scalar s = true -> encode_utf8 s <> None).
Proof.
  split; [|apply encode_utf8_scalar].
  intros file_bytes E. unfold read_txt_file.
  now rewrite (encode_utf8_decoded s file_bytes E).
Qed.

Lemma map_option_cons_nil (A : Type) (a : A) (o : option (list A)) :
  map_option (cons a) o <> Some [].
Proof. destruct o; discriminate. Qed.

Lemma utf8_decode_nil (l : list N) : utf8_decode l = Some [] -> l = [].
Proof.
  intros H. destruct l as [|b0 r0]; [reflexivity|]. exfalso.
  rewrite utf8_decode_unfold in H.
  repeat match type of H with
         | context [if ?b then _ else _] => destruct b
         | context [match ?l with [] => _ | _ :: _ => _ end] => destruct l
         end;
    try discriminate H; exact (map_option_cons_nil _ _ _ H).
Qed.

Lemma utf16_units_nil (le : bool) (l : list N) : utf16_units le l = Some [] -> l = [].
Proof.
  destruct l as [|a [|b r]]; simpl; [reflexivity | discriminate |].
  intros H. exfalso. exact (map_option_cons_nil _ _ _ H).
Qed.

Lemma utf16_chars_nil (us : list N) : utf16_chars us = Some [] -> us = [].
Proof.
  destruct us as [|u r]; simpl; [reflexivity|]. intros H. exfalso.
  destruct (is_high_surrogate u).
  - destruct r as [|u2 r2]; [discriminate|].
    destruct (is_low_surrogate u2); [|discriminate].
    exact (map_option_cons_nil _ _ _ H).
  - destruct (is_low_surrogate u); [discriminate|].
    exact (map_option_cons_nil _ _ _ H).
Qed.

Lemma utf16_decoding_nil (le : bool) (l : list N) :
  bind_option (utf16_units le l) utf16_chars = Some [] -> l = [].
Proof.
  destruct (utf16_units le l) as [us|] eqn:E; simpl; [|discriminate].
  intros H. apply utf16_chars_nil in H. subst us. now apply utf16_units_nil in E.
Qed.

Lemma to_N_inj (a b : Byte.byte) : Byte.to_N a = Byte.to_N b -> a = b.
Proof.
  intros H. pose proof (Byte.of_to_N a) as Ha. rewrite H, Byte.of_to_N in Ha.
  now injection Ha.
Qed.

Lemma map_to_N_inj (a b : bytes) : map Byte.to_N a = map Byte.to_N b -> a = b.
Proof.
  revert b. induction a as [|x a IH]; intros [|y b] H; try discriminate; [reflexivity|].
  injection H as Hx Hr. f_equal; [now apply to_N_inj | now apply IH].
Qed.

(** X23. [read_txt_file] returns the empty string only for an empty file and
    for a file that consists of a UTF-16 byte-order mark alone. *)
Theorem read_txt_file_empty (host_little_endian : bool) (file_bytes : bytes) :
  read_txt_file host_little_endian file_bytes = []
  <-> file_bytes = [] \/ file_bytes = [Byte.xff; Byte.xfe]
      \/ file_bytes = [Byte.xfe; Byte.xff].
Proof.
  split.
  - unfold read_txt_file, decode_utf8.
    destruct (utf8_decode (map Byte.to_N file_bytes)) as [s|] eqn:E8.
    + intros ->. apply utf8_decode_nil in E8. left.
      apply map_to_N_inj. exact E8.
    + unfold first_decoding, decode_utf16, decode_latin1.
      destruct (map Byte.to_N file_bytes) as [|a [|b r]] eqn:Em.
      * discriminate.
      * cbv zeta. simpl. discriminate.
      * cbv zeta. cbv beta iota.
        destruct (N.eqb_spec a 255) as [->|Ha]; cbn [andb].
        -- destruct (N.eqb_spec b 254) as [->|Hb].
           ++ destruct (bind_option (utf16_units true r) utf16_chars) as [s|] eqn:E16.
              ** intros ->. apply utf16_decoding_nil in E16. subst r.
                 right. left. now apply map_to_N_inj.
              ** discriminate.
           ++ change (255 =? 254)%N with false. cbn [andb].
              destruct (bind_option (utf16_units host_little_endian (255 :: b :: r)%N)
                                    utf16_chars) as [s|] eqn:E16.
              ** intros ->. now apply utf16_decoding_nil in E16.
              ** discriminate.
        -- destruct ((a =? 254)%N && (b =? 255)%N) eqn:Eb.
           ++ apply andb_prop in Eb. destruct Eb as [Ea Eb].
              apply N.eqb_eq in Ea. apply N.eqb_eq in Eb. subst a b.
              destruct (bind_option (utf16_units false r) utf16_chars) as [s|] eqn:E16.
              ** intros ->. apply utf16_decoding_nil in E16. subst r.
                 right. right. now apply map_to_N_inj.
              ** discriminate.
           ++ destruct (bind_option (utf16_units host_little_endian (a :: b :: r)%N)
                                    utf16_chars) as [s|] eqn:E16.
              ** intros ->. now apply utf16_decoding_nil in E16.
              ** discriminate.
  - intros [->|[->| ->]]; destruct host_little_endian; reflexivity.
Qed.


(* ===================================================================== *)
(** * app.py: download name and guard; the client of llm_client.py       *)
(* ===================================================================== *)

Lemma before_last_dot_none (s : str) : ~ In 46%N s -> before_last_dot s = None.
Proof.
  induction s as [|c r IH]; [reflexivity|]. intros H. simpl.
  rewrite IH by (intros Hin; apply H; now right).
  destruct (N.eqb_spec c 46) as [->|_]; [exfalso; apply H; now left | reflexivity].
Qed.

Lemma before_last_dot_app (base ext : str) :
  ~ In 46%N ext -> before_last_dot (base ++ 46%N :: ext) = Some base.
Proof.
  intros H. induction base as [|c base IH]; simpl.
  - now rewrite (before_last_dot_none ext H).
  - now rewrite IH.
Qed.

(** X24. The download is named after the uploaded file with its last
    extension removed: [base.ext] gives [base_summary.txt] (also when
    [base] has dots of its own, or is empty), a name without a dot is kept
    whole, and without an uploaded file the name is
    [summary_summary.txt]. *)
Theorem download_name_spec (base ext name : str) :
  (~ In 46%N ext ->
   download_name (Some (base ++ [46%N] ++ ext)) = base ++ lit "_summary.txt")
  /\ (~ In 46%N name -> name <> [] ->
      download_name (Some name) = name ++ lit "_summary.txt")
  /\ download_name None = lit "summary_summary.txt"
  /\ download_name (Some []) = lit "summary_summary.txt".
Proof.
  split; [|split; [|split; reflexivity]].
  - intros H. unfold download_name, rsplit_dot_first.
    assert (E : match base ++ [46%N] ++ ext with
                | c :: r => c :: r
                | [] => lit "summary"
                end = base ++ 46%N :: ext) by now destruct base.
    transitivity (match before_last_dot (base ++ 46%N :: ext) with
                  | Some p => p
                  | None => base ++ 46%N :: ext
                  end ++ lit "_summary.txt").
    + destruct base; reflexivity.
    + now rewrite (before_last_dot_app base ext H).
  - intros H Hne. unfold download_name, rsplit_dot_first.
    destruct name as [|c r]; [now elim Hne|].
    now rewrite (before_last_dot_none (c :: r) H).
Qed.


(** X26. The module-level [generate_sections] fails with [RuntimeError]
    exactly when there is no client yet and the key of the environment is
    missing or blank; it then leaves no client, so the next call reads the
    environment again. Otherwise it runs the client's method, and the
    client it leaves is the one it had, or a new one holding the stripped
    key. *)
Theorem client_singleton (singleton env_key : option str) (text model : str)
    (summary_words : Z) (takeaways_count : option Z) :
  let key := strip (match env_key with Some k => k | None => [] end) in
  let result := generate_sections_fn singleton env_key text model summary_words
                                     takeaways_count in
  ((exists e, snd result = inl e) <-> singleton = None /\ key = [])
  /\ (forall e, snd result = inl e -> fst result = None)
  /\ (forall p, snd result = inr p ->
        p = generate_sections text model summary_words takeaways_count
        /\ fst result = match singleton with
                        | Some client => Some client
                        | None => Some key
                        end).
Proof.
  intros key result. unfold result, generate_sections_fn, GeminiClient_init. fold key.
  destruct singleton as [client|]; cbn [fst snd].
  - split; [|split].
    + split; [intros [e H]; discriminate | intros [H _]; discriminate].
    + discriminate.
    + intros p H. injection H as <-. now split.
  - destruct key as [|c r]; cbn [is_empty fst snd].
    + split; [|split].
      * split; [now split | intros _; eexists; reflexivity].
      * reflexivity.
      * discriminate.
    + split; [|split].
      * split; [intros [e H]; discriminate | intros [_ H]; discriminate].
      * discriminate.
      * intros p H. injection H as <-. now split.
Qed.


(* ===================================================================== *)
(** * The orchestrator with the section generator behind it              *)
(* ===================================================================== *)

Lemma run_ext (Q R A : Type) (o1 o2 : nat -> Q -> exn + R) (p : prog Q R A) :
  (forall j q, o1 j q = o2 j q) -> forall i, run o1 i p = run o2 i p.
Proof.
  intros H. induction p as [a|e|q k IH]; intros i; simpl; [reflexivity | reflexivity|].
  rewrite H. destruct (o2 i q) as [e|r]; [reflexivity|]. now rewrite IH.
Qed.

(** A run that starts at request number [i] is a run from 0 against the
    oracle shifted by [i]. *)
Lemma run_shift (Q R A : Type) (p : prog Q R A) :
  forall (oracle : nat -> Q -> exn + R) (i : nat),
    run oracle i p = run (fun j => oracle (i + j)%nat) 0 p.
Proof.
  induction p as [a|e|q k IH]; intros oracle i; simpl; [reflexivity | reflexivity|].
  rewrite Nat.add_0_r. destruct (oracle i q) as [e|r]; [reflexivity|].
  rewrite (IH r oracle (S i)), (IH r (fun j => oracle (i + j)%nat) 1%nat).
  rewrite (run_ext _ _ _ (fun j => oracle (S i + j)%nat) (fun j => oracle (i + (1 + j))%nat));
    [reflexivity|].
  intros j q'. f_equal. lia.
Qed.

Lemma run_bind_inr (Q R A B : Type) (oracle : nat -> Q -> exn + R) (m : prog Q R A)
    (f : A -> prog Q R B) (i : nat) (tr : list Q) (b : B) :
  run oracle i (bind m f) = (tr, inr b) ->
  exists tr1 a tr2,
    run oracle i m = (tr1, inr a)
    /\ run oracle (i + length tr1) (f a) = (tr2, inr b)
    /\ tr = tr1 ++ tr2.
Proof.
  rewrite run_bind. destruct (run oracle i m) as [tr1 [e|a]]; [discriminate|].
  destruct (run oracle (i + length tr1) (f a)) as [tr2 out] eqn:E. cbn [fst snd].
  intros H. injection H as <- ->. now exists tr1, a, tr2.
Qed.

(** What [generate_sections] returns for a positive count, at any point of
    a run. *)
Lemma generate_sections_shape (oracle : nat -> llm_request -> exn + option str)
    (i : nat) (text model : str) (summary_words k : Z) (tr : list llm_request) (d : dict) :
  0 < k ->
  run oracle i (generate_sections text model summary_words (Some k)) = (tr, inr d) ->
  exists s items,
    dict_lookup d K_SUMMARY = Some s
    /\ dict_lookup d K_TAKEAWAYS = Some (JArray items) /\ len items = k.
Proof.
  intros Hk H. rewrite run_shift in H.
  destruct (generate_sections_takeaways _ text model summary_words k tr d ltac:(lia) H)
    as [(items & Ht & Hl)|(Hz & _)]; [|lia].
  assert (Hs : exists s t, dict_lookup d K_SUMMARY = Some s
                           /\ dict_lookup d K_TAKEAWAYS = Some t).
  { rewrite run_generate_sections in H.
    destruct (call_outcome _ 0 _) as [e|data]; [discriminate|].
    assert (Hf : forall tr' x, (tr', finish x) = (tr, inr d) ->
                 exists s t, dict_lookup d K_SUMMARY = Some s
                             /\ dict_lookup d K_TAKEAWAYS = Some t).
    { intros tr' x E. injection E as _ E. now apply finish_keys in E. }
    destruct data as [| | | | | |d0];
      try (destruct (k >=? 0); [discriminate | now apply Hf in H]).
    destruct ((k >=? 0) && negb (len (takeaways_list d0) =? k)); [|now apply Hf in H].
    destruct (retry _ _ k) as [e|data2]; [discriminate | now apply Hf in H]. }
  destruct Hs as (s & _ & Hs & _). now exists s, items.
Qed.

(** X27. For a positive count [k], whatever the endpoint answers, a
    dictionary that [generate_sections] returns has a [key_takeaways] that
    is a list of exactly [k] items. *)
Theorem generate_sections_positive_count
    (oracle : nat -> llm_request -> exn + option str) (text model : str)
    (summary_words k : Z) (tr : list llm_request) (d : dict) :
  0 < k ->
  run oracle 0 (generate_sections text model summary_words (Some k)) = (tr, inr d) ->
  exists items, dict_lookup d K_TAKEAWAYS = Some (JArray items) /\ len items = k.
Proof.
  intros Hk H.
  destruct (generate_sections_shape oracle 0 text model summary_words k tr d Hk H)
    as (s & items & _ & Ht & Hl).
  now exists items.
Qed.

Lemma generate_sections_positive_count_witness :
  run (llm_two response_one_takeaway response_three_takeaways) 0
      (generate_sections (lit "t") (lit "m") 100 (Some 2))
  = ([request_of (lit "t") (lit "m") 100 (Some 2);
      request_of (lit "t") (lit "m") 100 (Some 2)],
     inr [(K_SUMMARY, JString (lit "b"));
          (K_TAKEAWAYS, JArray [JString (lit "p"); JString (lit "q")])])
  /\ exists items,
       dict_lookup [(K_SUMMARY, JString (lit "b"));
                    (K_TAKEAWAYS, JArray [JString (lit "p"); JString (lit "q")])]
                   K_TAKEAWAYS = Some (JArray items)
       /\ len items = 2.
Proof.
  assert (H : run (llm_two response_one_takeaway response_three_takeaways) 0
                  (generate_sections (lit "t") (lit "m") 100 (Some 2))
              = ([request_of (lit "t") (lit "m") 100 (Some 2);
                  request_of (lit "t") (lit "m") 100 (Some 2)],
                 inr [(K_SUMMARY, JString (lit "b"));
                      (K_TAKEAWAYS, JArray [JString (lit "p"); JString (lit "q")])]))
    by (vm_compute; reflexivity).
  split; [exact H|].
  exact (generate_sections_positive_count _ _ _ _ 2 _ _ ltac:(lia) H).
Defined.

(** A successful linked run of the map step ends with a successful linked
    run of what follows it. *)
Lemma run_link_map_step (oracle : nat -> llm_request -> exn + option str) (n tw : Z)
    (model : str) (cont : list json -> prog gen_call dict dict) (cs : list str) :
  forall i acc tr d,
    run oracle i (link (map_step n tw model cs acc cont)) = (tr, inr d) ->
    exists i' acc' tr', run oracle i' (link (cont acc')) = (tr', inr d).
Proof.
  induction cs as [|c cs IH]; intros i acc tr d H.
  - now exists i, acc, tr.
  - simpl map_step in H.
    destruct (_proportional_words n (len (split_ws c)) tw) as [e|b]; [discriminate|].
    cbn [link] in H. apply run_bind_inr in H.
    destruct H as (tr1 & mini & tr2 & _ & H & _).
    exact (IH _ _ _ _ H).
Qed.

(** X28. With the section generator of [llm_client.py] behind it and a
    positive takeaway count, whatever the endpoint answers, a dictionary
    that [summarize_document] returns has a [summary] and a [key_takeaways]
    that is a list of exactly the requested length; on an input of fewer
    than 60 words the summary is the normalised input. *)
Theorem summarize_with_llm_result (oracle : nat -> llm_request -> exn + option str)
    (raw_text : option str) (model : str) (target_words k : Z)
    (tr : list llm_request) (d : dict) :
  0 < k ->
  run oracle 0 (link (summarize_document raw_text model target_words (Some k)))
  = (tr, inr d) ->
  exists s items,
    dict_lookup d K_SUMMARY = Some s
    /\ dict_lookup d K_TAKEAWAYS = Some (JArray items) /\ len items = k
    /\ (word_count (_normalize_whitespace raw_text) < 60 ->
        s = JString (_normalize_whitespace raw_text)).
Proof.
  intros Hk. unfold summarize_document.
  change (len (split_ws (_normalize_whitespace raw_text)))
    with (word_count (_normalize_whitespace raw_text)).
  destruct (Z.ltb_spec (word_count (_normalize_whitespace raw_text)) 60) as [Hlt|Hge].
  - cbn [link]. intros H. apply run_bind_inr in H.
    destruct H as (tr1 & mini & tr2 & Hgen & Hret & _).
    cbn [gc_text gc_model gc_summary_words gc_takeaways_count] in Hgen.
    destruct (generate_sections_shape _ _ _ _ _ _ _ _ Hk Hgen) as (s & items & _ & Ht & Hl).
    cbn [link run] in Hret. injection Hret as _ <-.
    exists (JString (_normalize_whitespace raw_text)), items.
    split; [reflexivity|]. split; [|split; [exact Hl | reflexivity]].
    unfold dict_get. rewrite Ht. reflexivity.
  - intros H. apply run_link_map_step in H. destruct H as (i' & acc' & tr' & H).
    unfold reduce_step in H. destruct (keep_nonblank acc') as [e|kept]; [discriminate|].
    cbn [link] in H. apply run_bind_inr in H.
    destruct H as (tr1 & final & tr2 & Hgen & Hret & _).
    cbn [gc_text gc_model gc_summary_words gc_takeaways_count] in Hgen.
    destruct (generate_sections_shape _ _ _ _ _ _ _ _ Hk Hgen) as (s & items & Hs & Ht & Hl).
    cbn [link run] in Hret. injection Hret as _ <-.
    exists s, items. repeat split; try assumption. lia.
Qed.

Lemma summarize_with_llm_result_witness :
  run (llm_const response_three_takeaways) 0
      (link (summarize_document (Some (lit " hello  world ")) (lit "m") 200 (Some 3)))
  = ([request_of (lit "hello world") (lit "m") 30 (Some 3)],
     inr [(K_SUMMARY, JString (lit "hello world"));
          (K_TAKEAWAYS, JArray [JString (lit "p"); JString (lit "q"); JString (lit "r")])])
  /\ exists s items,
       dict_lookup [(K_SUMMARY, JString (lit "hello world"));
                    (K_TAKEAWAYS,
                     JArray [JString (lit "p"); JString (lit "q"); JString (lit "r")])]
                   K_SUMMARY = Some s
       /\ dict_lookup [(K_SUMMARY, JString (lit "hello world"));
                       (K_TAKEAWAYS,
                        JArray [JString (lit "p"); JString (lit "q"); JString (lit "r")])]
                      K_TAKEAWAYS = Some (JArray items)
       /\ len items = 3.
Proof.
  assert (H : run (llm_const response_three_takeaways) 0
                  (link (summarize_document (Some (lit " hello  world ")) (lit "m") 200
                                            (Some 3)))
              = ([request_of (lit "hello world") (lit "m") 30 (Some 3)],
                 inr [(K_SUMMARY, JString (lit "hello world"));
                      (K_TAKEAWAYS,
                       JArray [JString (lit "p"); JString (lit "q"); JString (lit "r")])]))
    by (vm_compute; reflexivity).
  split; [exact H|].
  destruct (summarize_with_llm_result _ _ _ _ 3 _ _ ltac:(lia) H)
    as (s & items & Hs & Ht & Hl & _).
  now exists s, items.
Defined.
